(** * frame_muxer: audio/video synchronisation and cadence conversion

    A shallow embedding of [modules/ffmpeg/producer/frame_muxer.cpp].

    - rates are IEEE binary64 numbers ([double]), modelled by Rocq's
      primitive floats;
    - [safe_ptr<write_frame>] is an address into a store of frames, so that
      the copy made by [duplicate] and the in-place writes to
      [audio_data()] are visible as such;
    - the member functions run in a small state-and-error monad: a call
      returns normally, throws [invalid_operation], or has no defined
      behaviour ([front()], [back()] or [pop] on an empty container). *)

From Stdlib Require Import Floats ZArith Lia.
From stdpp Require Import base list strings.

(** ** Enumerations *)

(** [core::video_mode::type]: the three enumerators the muxer names. *)
Module video_mode.
Inductive type := progressive | lower | upper.

Definition eqb (a b : type) : bool :=
  match a, b with
  | progressive, progressive | lower, lower | upper, upper => true
  | _, _ => false
  end.
End video_mode.

Module display_mode.
Inductive type :=
| simple
| duplicate
| half
| interlace
| deinterlace_bob
| deinterlace_bob_reinterlace
| deinterlace
| count
| invalid.

Definition eqb (a b : type) : bool :=
  match a, b with
  | simple, simple | duplicate, duplicate | half, half
  | interlace, interlace | deinterlace_bob, deinterlace_bob
  | deinterlace_bob_reinterlace, deinterlace_bob_reinterlace
  | deinterlace, deinterlace | count, count | invalid, invalid => true
  | _, _ => false
  end.

Definition print (value : type) : string :=
  match value with
  | simple => "simple"
  | duplicate => "duplicate"
  | half => "half"
  | interlace => "interlace"
  | deinterlace_bob => "deinterlace_bob"
  | deinterlace_bob_reinterlace => "deinterlace_bob_reinterlace"
  | deinterlace => "deinterlace"
  | _ => "invalid"
  end.
End display_mode.

(** ** The cadence resolver *)

Definition epsilon : float := 2.0%float.

(** [std::abs(a - b) < epsilon] *)
Definition within_epsilon (a b : float) : bool :=
  PrimFloat.ltb (PrimFloat.abs (PrimFloat.sub a b)) epsilon.

Definition get_display_mode (in_mode : video_mode.type) (in_fps : float)
    (out_mode : video_mode.type) (out_fps : float) : display_mode.type :=
  if within_epsilon in_fps out_fps then
    if negb (video_mode.eqb in_mode video_mode.progressive)
       && video_mode.eqb out_mode video_mode.progressive
    then display_mode.deinterlace
    else display_mode.simple
  else if within_epsilon (PrimFloat.div in_fps 2.0%float) out_fps then
    if negb (video_mode.eqb in_mode video_mode.progressive)
    then display_mode.invalid
    else if negb (video_mode.eqb out_mode video_mode.progressive)
    then display_mode.interlace
    else display_mode.half
  else if within_epsilon in_fps (PrimFloat.div out_fps 2.0%float) then
    if negb (video_mode.eqb out_mode video_mode.progressive)
    then display_mode.invalid
    else if negb (video_mode.eqb in_mode video_mode.progressive)
    then display_mode.deinterlace_bob
    else display_mode.duplicate
  else display_mode.invalid.

(** *** The rule table of the specification

    The first column of the table: how the source rate relates to the
    target rate.  The rows are tried from top to bottom. *)
Inductive rate_relation :=
| rates_equal
| source_twice_target
| target_twice_source
| no_ratio_matches.

(** The absolute tolerance of the rate comparisons, in frames per second. *)
Definition tolerance : float := 2.0%float.

(** Two rates are near each other when they differ by less than the
    tolerance, in either direction: [-2.0 < a - b < 2.0]. *)
Definition near (a b : float) : bool :=
  PrimFloat.ltb (PrimFloat.opp tolerance) (PrimFloat.sub a b)
  && PrimFloat.ltb (PrimFloat.sub a b) tolerance.

(** The rate column as the table words it: the source rate is near the
    target rate, near twice the target rate, or the target rate is near
    twice the source rate. *)
Definition rates_as_tabulated (source_rate target_rate : float)
  : rate_relation :=
  if near source_rate target_rate then rates_equal
  else if near source_rate (PrimFloat.mul 2.0%float target_rate)
  then source_twice_target
  else if near target_rate (PrimFloat.mul 2.0%float source_rate)
  then target_twice_source
  else no_ratio_matches.

(** The rate column with the tolerance on the halved rate: half the source
    rate is near the target rate for "source = 2 x target", the source rate
    is near half the target rate for "target = 2 x source". *)
Definition rates_halved (source_rate target_rate : float) : rate_relation :=
  if near source_rate target_rate then rates_equal
  else if near (PrimFloat.div source_rate 2.0%float) target_rate
  then source_twice_target
  else if near source_rate (PrimFloat.div target_rate 2.0%float)
  then target_twice_source
  else no_ratio_matches.

(** The rate of film on NTSC equipment, 24000/1001 rounded to three
    places, as the nearest [double]. *)
#[warnings="-inexact-float"]
Definition ntsc_film_rate : float := 23.976%float.

Inductive scan := scan_progressive | scan_non_progressive.

Definition scan_of (m : video_mode.type) : scan :=
  match m with
  | video_mode.progressive => scan_progressive
  | _ => scan_non_progressive
  end.

(** One line per row of the table, in the table's order. *)
Definition rule_table (r : rate_relation) (source target : scan)
  : display_mode.type :=
  match r, source, target with
  | rates_equal, scan_non_progressive, scan_progressive => display_mode.deinterlace
  | rates_equal, _, _ => display_mode.simple
  | source_twice_target, scan_progressive, scan_non_progressive => display_mode.interlace
  | source_twice_target, scan_progressive, scan_progressive => display_mode.half
  | source_twice_target, scan_non_progressive, _ => display_mode.invalid
  | target_twice_source, scan_progressive, scan_progressive => display_mode.duplicate
  | target_twice_source, scan_non_progressive, scan_progressive => display_mode.deinterlace_bob
  | target_twice_source, _, scan_non_progressive => display_mode.invalid
  | no_ratio_matches, _, _ => display_mode.invalid
  end.


(** ** Data *)

(** [AVFrame]: the fields the muxer reads, [data[0]] and [height], and the
    scan mode that [get_mode] reads off the frame. *)
Module AVFrame.
Record t := make {
  data0 : option (list Z);      (* [data[0]]; [None] is [nullptr] *)
  height : Z;                   (* [int] *)
  scan_mode : video_mode.type
}.
End AVFrame.

(** Modelled from the spec: [get_mode] (util.h) is not part of the source
    at hand; a Picture carries its scan mode (progressive, upper field
    first, lower field first). *)
Definition get_mode (frame : AVFrame.t) : video_mode.type :=
  AVFrame.scan_mode frame.

(** [core::video_format_desc]: the members the muxer reads. *)
Module video_format_desc.
Record t := make {
  mode : video_mode.type;
  fps : float;
  height : Z;                       (* [size_t] *)
  audio_samples_per_frame : nat     (* [size_t] *)
}.
End video_format_desc.

(** [static_cast<int>] of a [size_t]. *)
Definition static_cast_int (n : Z) : Z :=
  ((n + 2 ^ 31) mod 2 ^ 32 - 2 ^ 31)%Z.

(** [size_t] counters wrap around. *)
Definition size_t_modulus : Z := (2 ^ 64)%Z.
Definition size_t_add (a b : Z) : Z := ((a + b) mod size_t_modulus)%Z.

(** The vertical fill translation of a frame's image transform:
    [set_fill_translation(0.0f, 0.5/h)] moves the picture half a scan line
    down, [set_fill_translation(0.0f, -0.5/h)] half a scan line up, where
    [h] is the height of the frame's first plane. *)
Inductive fill_translation :=
| translation_none
| translation_half_line_down (plane_height : Z)
| translation_half_line_up (plane_height : Z).

(** [core::write_frame]: picture, attached samples, field type and image
    transform. *)
Module write_frame.
Record t := make {
  image_data : list Z;
  audio_data : list Z;              (* [std::vector<int16_t>] *)
  get_type : video_mode.type;
  plane0_height : Z;
  get_fill_translation : fill_translation
}.

Definition set_audio_data (samples : list Z) (f : t) : t :=
  make (image_data f) samples (get_type f) (plane0_height f)
       (get_fill_translation f).

Definition set_fill_translation (tr : fill_translation) (f : t) : t :=
  make (image_data f) (audio_data f) (get_type f) (plane0_height f) tr.

(** [write_frame(const void* tag)]: a frame without picture or samples. *)
Definition empty : t :=
  make [] [] video_mode.progressive 0%Z translation_none.
End write_frame.

(** Modelled from the spec: [make_write_frame] (util.h) is not part of the
    source at hand; it turns a decoded picture into a frame of the factory
    that holds the picture, its scan mode and geometry, and no samples. *)
Definition make_write_frame (av_frame : AVFrame.t) : write_frame.t :=
  write_frame.make (default [] (AVFrame.data0 av_frame)) []
                   (get_mode av_frame) (AVFrame.height av_frame)
                   translation_none.

(** The target of a [safe_ptr<write_frame>]: an index into the store. *)
Abbreviation addr := nat (only parsing).

(** [core::basic_frame] as the muxer emits it: a frame of its own, or the
    composite of two. *)
Inductive basic_frame :=
| frame_ref (frame : addr)
| frame_interlaced (frame1 frame2 : addr) (mode : video_mode.type).

(** Modelled from the spec: [basic_frame::interlace] is not part of the
    source at hand; it forms one composite picture by interlacing the
    fields of the two pictures according to the target field order. *)
Definition basic_frame_interlace (frame1 frame2 : addr)
    (mode : video_mode.type) : basic_frame :=
  frame_interlaced frame1 frame2 mode.

(** The deinterlace filter.  A default-constructed [filter] passes pictures
    through.  A filter built from a graph description is an opaque
    transform: what it returns for a picture depends on the description
    and on the pictures it was fed before. *)
Module ffmpeg_filter.
Inductive t :=
| pass_through
| graph (filters : string) (fed : list AVFrame.t).

(** [filter(filters)] *)
Definition make (filters : string) : t := graph filters [].
End ffmpeg_filter.

(** The behaviour of the filter graphs, supplied by the environment. *)
Definition filter_service := string -> list AVFrame.t -> AVFrame.t -> list AVFrame.t.

(** What the muxer writes to the log.  An entry holds the value that is
    logged, not its text: [log_video_frame_count] holds the counter, which
    the code prints after a conversion to [float]. *)
Inductive log_entry :=
| log_video_frame_count (n : Z)
| log_audio_chunk_count (n : Z)
| log_frame_muxer (mode : string)
| log_truncating (video_frames audio_samples : nat).

(** ** The muxer state

    The members of [frame_muxer::implementation].  The two [processed_]
    counters are never read or written and are left out; the frame factory
    is represented by what it supplies, the format descriptor and the
    store of frames it allocates. *)

Record implementation := make_implementation {
  video_streams_ : list (list addr);      (* deque of queues, front first *)
  audio_streams_ : list (list Z);
  frame_buffer_ : list basic_frame;
  display_mode_ : display_mode.type;
  in_fps_ : float;
  format_desc_ : video_format_desc.t;
  auto_mode_ : bool;
  audio_sample_count_ : Z;
  video_frame_count_ : Z;
  filter_ : ffmpeg_filter.t;
  (* the environment *)
  frames_ : list write_frame.t;           (* the store of write frames *)
  avfilter_ : filter_service;
  log_ : list log_entry
}.

Definition set_video_streams_ (v : list (list addr)) (s : implementation) :=
  make_implementation v (audio_streams_ s) (frame_buffer_ s) (display_mode_ s)
    (in_fps_ s) (format_desc_ s) (auto_mode_ s) (audio_sample_count_ s)
    (video_frame_count_ s) (filter_ s) (frames_ s) (avfilter_ s) (log_ s).

Definition set_audio_streams_ (a : list (list Z)) (s : implementation) :=
  make_implementation (video_streams_ s) a (frame_buffer_ s) (display_mode_ s)
    (in_fps_ s) (format_desc_ s) (auto_mode_ s) (audio_sample_count_ s)
    (video_frame_count_ s) (filter_ s) (frames_ s) (avfilter_ s) (log_ s).

Definition set_frame_buffer_ (b : list basic_frame) (s : implementation) :=
  make_implementation (video_streams_ s) (audio_streams_ s) b (display_mode_ s)
    (in_fps_ s) (format_desc_ s) (auto_mode_ s) (audio_sample_count_ s)
    (video_frame_count_ s) (filter_ s) (frames_ s) (avfilter_ s) (log_ s).

Definition set_display_mode_ (m : display_mode.type) (s : implementation) :=
  make_implementation (video_streams_ s) (audio_streams_ s) (frame_buffer_ s) m
    (in_fps_ s) (format_desc_ s) (auto_mode_ s) (audio_sample_count_ s)
    (video_frame_count_ s) (filter_ s) (frames_ s) (avfilter_ s) (log_ s).

Definition set_audio_sample_count_ (n : Z) (s : implementation) :=
  make_implementation (video_streams_ s) (audio_streams_ s) (frame_buffer_ s)
    (display_mode_ s) (in_fps_ s) (format_desc_ s) (auto_mode_ s) n
    (video_frame_count_ s) (filter_ s) (frames_ s) (avfilter_ s) (log_ s).

Definition set_video_frame_count_ (n : Z) (s : implementation) :=
  make_implementation (video_streams_ s) (audio_streams_ s) (frame_buffer_ s)
    (display_mode_ s) (in_fps_ s) (format_desc_ s) (auto_mode_ s)
    (audio_sample_count_ s) n (filter_ s) (frames_ s) (avfilter_ s) (log_ s).

Definition set_filter_ (f : ffmpeg_filter.t) (s : implementation) :=
  make_implementation (video_streams_ s) (audio_streams_ s) (frame_buffer_ s)
    (display_mode_ s) (in_fps_ s) (format_desc_ s) (auto_mode_ s)
    (audio_sample_count_ s) (video_frame_count_ s) f (frames_ s) (avfilter_ s)
    (log_ s).

Definition set_frames_ (h : list write_frame.t) (s : implementation) :=
  make_implementation (video_streams_ s) (audio_streams_ s) (frame_buffer_ s)
    (display_mode_ s) (in_fps_ s) (format_desc_ s) (auto_mode_ s)
    (audio_sample_count_ s) (video_frame_count_ s) (filter_ s) h (avfilter_ s)
    (log_ s).

Definition set_log_ (l : list log_entry) (s : implementation) :=
  make_implementation (video_streams_ s) (audio_streams_ s) (frame_buffer_ s)
    (display_mode_ s) (in_fps_ s) (format_desc_ s) (auto_mode_ s)
    (audio_sample_count_ s) (video_frame_count_ s) (filter_ s) (frames_ s)
    (avfilter_ s) l.

(** The constructor: one empty segment on each side, no policy yet.
    [auto_mode] is the value of the property [configuration.auto-mode]. *)
Definition implementation_new (in_fps : float)
    (format_desc : video_format_desc.t) (auto_mode : bool)
    (avfilter : filter_service) : implementation :=
  make_implementation [[]] [[]] [] display_mode.invalid in_fps format_desc
    auto_mode 0%Z 0%Z ffmpeg_filter.pass_through [] avfilter [].

(** ** The monad of member functions *)

Inductive exn := invalid_operation.

Inductive result (A : Type) :=
| Ok (a : A) (s : implementation)
| Throw (e : exn) (s : implementation)
| Undefined.
Arguments Ok {A} a s.
Arguments Throw {A} e s.
Arguments Undefined {A}.

Definition M (A : Type) := implementation -> result A.

Definition ret {A} (a : A) : M A := fun s => Ok a s.

Definition bind {A B} (m : M A) (k : A -> M B) : M B :=
  fun s =>
    match m s with
    | Ok a s' => k a s'
    | Throw e s' => Throw e s'
    | Undefined => Undefined
    end.

Notation "'do' x <- m ; k" := (bind m (fun x => k))
  (at level 10, x name, m at level 100, k at level 200).
Notation "m ;; k" := (bind m (fun _ => k))
  (at level 100, k at level 200, right associativity).

Definition get : M implementation := fun s => Ok s s.
Definition modify (f : implementation -> implementation) : M unit :=
  fun s => Ok tt (f s).
Definition throw {A} (e : exn) : M A := fun s => Throw e s.
Definition undefined {A} : M A := fun _ => Undefined.

Definition when (b : bool) (m : M unit) : M unit := if b then m else ret tt.

(** [BOOST_FOREACH]: an exception leaves the loop. *)
Fixpoint for_each {A} (l : list A) (body : A -> M unit) : M unit :=
  match l with
  | [] => ret tt
  | x :: l' => body x ;; for_each l' body
  end.

Definition log (e : log_entry) : M unit :=
  modify (fun s => set_log_ (log_ s ++ [e]) s).

(** ** Member functions *)

Definition is_empty {A} (l : list A) : bool :=
  match l with [] => true | _ => false end.

Definition samples_per_frame (s : implementation) : nat :=
  video_format_desc.audio_samples_per_frame (format_desc_ s).

(** [video_streams_.front()] and [audio_streams_.front()] *)
Definition front_video : M (list addr) :=
  fun s => match video_streams_ s with
           | v :: _ => Ok v s
           | [] => Undefined
           end.

Definition front_audio : M (list Z) :=
  fun s => match audio_streams_ s with
           | a :: _ => Ok a s
           | [] => Undefined
           end.

(** [x.back() = f(x.back())] on a deque kept as a list. *)
Definition update_back {A} (f : A -> A) (l : list A) : option (list A) :=
  match reverse l with
  | x :: r => Some (reverse (f x :: r))
  | [] => None
  end.

(** [video_streams_.back().push(frame)] *)
Definition push_back_video (frame : addr) : M unit :=
  fun s => match update_back (fun q => q ++ [frame]) (video_streams_ s) with
           | Some v => Ok tt (set_video_streams_ v s)
           | None => Undefined
           end.

(** [boost::range::push_back(audio_streams_.back(), samples)] *)
Definition push_back_audio (samples : list Z) : M unit :=
  fun s => match update_back (fun b => b ++ samples) (audio_streams_ s) with
           | Some a => Ok tt (set_audio_streams_ a s)
           | None => Undefined
           end.

(** [make_safe<core::write_frame>(...)]: a new frame in the store. *)
Definition new_frame (f : write_frame.t) : M addr :=
  fun s => Ok (length (frames_ s)) (set_frames_ (frames_ s ++ [f]) s).

(** Reading and writing through a [safe_ptr<write_frame>]. *)
Definition read_frame (a : addr) : M write_frame.t :=
  fun s => match frames_ s !! a with
           | Some f => Ok f s
           | None => Undefined
           end.

Definition write_frame_at (a : addr) (upd : write_frame.t -> write_frame.t)
  : M unit :=
  fun s => match frames_ s !! a with
           | Some f => Ok tt (set_frames_ (<[a := upd f]> (frames_ s)) s)
           | None => Undefined
           end.

(** [dest.push_back(frame)], where [dest] is [frame_buffer_]. *)
Definition push_back_dest (frame : basic_frame) : M unit :=
  modify (fun s => set_frame_buffer_ (frame_buffer_ s ++ [frame]) s).

Definition pop : M basic_frame :=
  fun s => match frame_buffer_ s with
           | frame :: rest => Ok frame (set_frame_buffer_ rest s)
           | [] => Undefined
           end.

Definition size (s : implementation) : nat := length (frame_buffer_ s).

Definition empty (s : implementation) : bool := Nat.eqb (size s) 0.

Definition pop_video : M addr :=
  fun s => match video_streams_ s with
           | (frame :: q) :: rest => Ok frame (set_video_streams_ (q :: rest) s)
           | _ => Undefined
           end.

(** [CASPAR_VERIFY] only reports; with fewer samples than one frame's worth
    the iterator [end] lies beyond the vector. *)
Definition pop_audio : M (list Z) :=
  fun s => match audio_streams_ s with
           | a :: rest =>
               let n := samples_per_frame s in
               if Nat.ltb (length a) n then Undefined
               else Ok (take n a) (set_audio_streams_ (drop n a :: rest) s)
           | [] => Undefined
           end.

(** [video_streams_.back().size()] *)
Definition video_frames (s : implementation) : option nat :=
  length <$> last (video_streams_ s).

(** [audio_streams_.back().size() / format_desc_.audio_samples_per_frame];
    a division by zero has no defined result. *)
Definition audio_chunks (s : implementation) : option nat :=
  match last (audio_streams_ s) with
  | Some b => if Nat.eqb (samples_per_frame s) 0 then None
              else Some (length b / samples_per_frame s)
  | None => None
  end.

Definition video_ready (s : implementation) : option bool :=
  match video_frames s with
  | Some n => Some (Nat.ltb 1 n
                    && Nat.leb (length (audio_streams_ s)) (length (video_streams_ s)))
  | None => None
  end.

Definition audio_ready (s : implementation) : option bool :=
  match audio_chunks s with
  | Some n => Some (Nat.ltb 1 n
                    && Nat.leb (length (video_streams_ s)) (length (audio_streams_ s)))
  | None => None
  end.

Definition simple : M unit :=
  do v <- front_video;
  if is_empty v then ret tt else
  do a <- front_audio;
  do s <- get;
  if Nat.ltb (length a) (samples_per_frame s) then ret tt else
  do frame1 <- pop_video;
  do samples <- pop_audio;
  write_frame_at frame1 (write_frame.set_audio_data samples);;
  push_back_dest (frame_ref frame1).

Definition duplicate : M unit :=
  do v <- front_video;
  if is_empty v then ret tt else
  do a <- front_audio;
  do s <- get;
  if Nat.ltb (length a / 2) (samples_per_frame s) then ret tt else
  do frame <- pop_video;
  do original <- read_frame frame;
  do frame1 <- new_frame original;                  (* make a copy *)
  do samples <- pop_audio;
  write_frame_at frame1 (write_frame.set_audio_data samples);;
  let frame2 := frame in
  do samples <- pop_audio;
  write_frame_at frame2 (write_frame.set_audio_data samples);;
  push_back_dest (frame_ref frame1);;
  push_back_dest (frame_ref frame2).

Definition half : M unit :=
  do v <- front_video;
  if Nat.ltb (length v) 2 then ret tt else
  do a <- front_audio;
  do s <- get;
  if Nat.ltb (length a) (samples_per_frame s) then ret tt else
  do frame1 <- pop_video;
  do samples <- pop_audio;
  write_frame_at frame1 (write_frame.set_audio_data samples);;
  pop_video;;                                       (* throw away *)
  push_back_dest (frame_ref frame1).

Definition interlace : M unit :=
  do v <- front_video;
  if Nat.ltb (length v) 2 then ret tt else
  do a <- front_audio;
  do s <- get;
  if Nat.ltb (length a) (samples_per_frame s) then ret tt else
  do frame1 <- pop_video;
  do samples <- pop_audio;
  write_frame_at frame1 (write_frame.set_audio_data samples);;
  do frame2 <- pop_video;
  push_back_dest
    (basic_frame_interlace frame1 frame2 (video_format_desc.mode (format_desc_ s))).

(** The first statement of [put_frames]: with more than one segment on
    both sides and an empty oldest segment on one of them, the oldest
    segment of both sides goes. *)
Definition truncate : M unit :=
  do s <- get;
  if Nat.ltb 1 (length (video_streams_ s))
     && Nat.ltb 1 (length (audio_streams_ s)) then
    do v <- front_video;
    do a <- front_audio;
    if is_empty v || is_empty a then
      when (negb (is_empty v) || negb (is_empty a))
           (log (log_truncating (length v) (length a)));;
      modify (fun s => set_video_streams_ (tail (video_streams_ s)) s);;
      modify (fun s => set_audio_streams_ (tail (audio_streams_ s)) s)
    else ret tt
  else ret tt.

Definition dispatch : M unit :=
  do s <- get;
  match display_mode_ s with
  | display_mode.simple => simple
  | display_mode.duplicate => duplicate
  | display_mode.half => half
  | display_mode.interlace => interlace
  | display_mode.deinterlace_bob => simple
  | display_mode.deinterlace_bob_reinterlace => interlace
  | display_mode.deinterlace => simple
  | _ => throw invalid_operation
  end.

(** The rest of [put_frames]: wait for more input, or combine. *)
Definition combine : M unit :=
  do v <- front_video;
  if is_empty v then ret tt else
  do a <- front_audio;
  do s <- get;
  if Nat.ltb (length a) (samples_per_frame s) then ret tt else
  dispatch.

Definition put_frames : M unit := truncate;; combine.

(** [filter_.execute(video_frame)] *)
Definition filter_execute (video_frame : AVFrame.t) : M (list AVFrame.t) :=
  do s <- get;
  match filter_ s with
  | ffmpeg_filter.pass_through => ret [video_frame]
  | ffmpeg_filter.graph filters fed =>
      modify (set_filter_ (ffmpeg_filter.graph filters (fed ++ [video_frame])));;
      ret (avfilter_ s filters fed video_frame)
  end.

(** The policy decision made on a real picture while no policy is set. *)
Definition decide_display_mode (video_frame : AVFrame.t) : M unit :=
  do s <- get;
  (if auto_mode_ s then
     let in_mode := get_mode video_frame in
     let out_mode := video_format_desc.mode (format_desc_ s) in
     modify (set_display_mode_
               (get_display_mode in_mode (in_fps_ s) out_mode
                                 (video_format_desc.fps (format_desc_ s))));;
     do s <- get;
     when (display_mode.eqb (display_mode_ s) display_mode.simple
           && negb (video_mode.eqb in_mode video_mode.progressive)
           && negb (video_mode.eqb out_mode video_mode.progressive)
           && negb (Z.eqb (AVFrame.height video_frame)
                          (static_cast_int (video_format_desc.height (format_desc_ s)))))
          (modify (set_display_mode_ display_mode.deinterlace_bob_reinterlace));;
     do s <- get;
     if display_mode.eqb (display_mode_ s) display_mode.deinterlace then
       modify (set_filter_ (ffmpeg_filter.make "YADIF=0:-1"))
     else if display_mode.eqb (display_mode_ s) display_mode.deinterlace_bob
             || display_mode.eqb (display_mode_ s) display_mode.deinterlace_bob_reinterlace
     then modify (set_filter_ (ffmpeg_filter.make "YADIF=1:-1"))
     else ret tt
   else modify (set_display_mode_ display_mode.simple));;
  do s <- get;
  log (log_frame_muxer (display_mode.print (display_mode_ s))).

(** The field-order fix applied to a frame made from a filtered picture. *)
Definition fix_field_order (out_mode : video_mode.type) (f : write_frame.t)
  : write_frame.t :=
  match write_frame.get_type f, out_mode with
  | video_mode.lower, video_mode.upper =>
      write_frame.set_fill_translation
        (translation_half_line_down (write_frame.plane0_height f)) f
  | video_mode.upper, video_mode.lower =>
      write_frame.set_fill_translation
        (translation_half_line_up (write_frame.plane0_height f)) f
  | _, _ => f
  end.

Definition increment_video_frame_count : M unit :=
  modify (fun s => set_video_frame_count_ (size_t_add (video_frame_count_ s) 1) s).

(** [push(const std::shared_ptr<AVFrame>&)] *)
Definition push_video (video_frame : option AVFrame.t) : M unit :=
  match video_frame with
  | None =>
      do s <- get;
      log (log_video_frame_count (video_frame_count_ s));;
      modify (set_video_frame_count_ 0%Z);;
      modify (fun s => set_video_streams_ (video_streams_ s ++ [[]]) s)
  | Some video_frame =>
      match AVFrame.data0 video_frame with
      | None =>
          do frame <- new_frame write_frame.empty;
          push_back_video frame;;
          increment_video_frame_count;;
          put_frames
      | Some _ =>
          do s <- get;
          when (display_mode.eqb (display_mode_ s) display_mode.invalid)
               (decide_display_mode video_frame);;
          do filtered <- filter_execute video_frame;
          for_each filtered (fun av_frame =>
            do s <- get;
            do frame <- new_frame
                          (fix_field_order (video_format_desc.mode (format_desc_ s))
                                           (make_write_frame av_frame));
            push_back_video frame;;
            increment_video_frame_count;;
            put_frames)
      end
  end.

(** [push(const std::shared_ptr<std::vector<int16_t>>&)].  The log line of
    a reset shows the sample count divided by the samples per frame; a
    division by zero has no defined result. *)
Definition push_audio (audio_samples : option (list Z)) : M unit :=
  match audio_samples with
  | None =>
      do s <- get;
      if Nat.eqb (samples_per_frame s) 0 then undefined else
      log (log_audio_chunk_count
             (audio_sample_count_ s / Z.of_nat (samples_per_frame s))%Z);;
      modify (fun s => set_audio_streams_ (audio_streams_ s ++ [[]]) s);;
      modify (set_audio_sample_count_ 0%Z)
  | Some samples =>
      modify (fun s => set_audio_sample_count_
                         (size_t_add (audio_sample_count_ s)
                                     (Z.of_nat (length samples))) s);;
      push_back_audio samples;;
      put_frames
  end.

(** ** Runs of the public interface *)

Inductive call :=
| call_push_video (video_frame : option AVFrame.t)
| call_push_audio (audio_samples : option (list Z))
| call_pop.

Definition exec (c : call) : M unit :=
  match c with
  | call_push_video f => push_video f
  | call_push_audio a => push_audio a
  | call_pop => pop;; ret tt
  end.

(** The object after a call: it lives on after an exception, in the state
    the exception left it in. *)
Definition state_after {A} (r : result A) : option implementation :=
  match r with
  | Ok _ s => Some s
  | Throw _ s => Some s
  | Undefined => None
  end.

Fixpoint run (calls : list call) (s : implementation) : option implementation :=
  match calls with
  | [] => Some s
  | c :: calls' =>
      match state_after (exec c s) with
      | Some s' => run calls' s'
      | None => None
      end
  end.

Definition is_reset_video (c : call) : bool :=
  match c with call_push_video None => true | _ => false end.

Definition is_reset_audio (c : call) : bool :=
  match c with call_push_audio None => true | _ => false end.

Definition is_real_picture (c : call) : bool :=
  match c with
  | call_push_video (Some f) =>
      match AVFrame.data0 f with Some _ => true | None => false end
  | _ => false
  end.

(** The samples attached to an emitted frame; a composite carries those of
    its two parts. *)
Definition frame_at (h : list write_frame.t) (a : addr) : write_frame.t :=
  default write_frame.empty (h !! a).

Definition frame_audio (h : list write_frame.t) (b : basic_frame) : list Z :=
  match b with
  | frame_ref a => write_frame.audio_data (frame_at h a)
  | frame_interlaced a1 a2 _ =>
      write_frame.audio_data (frame_at h a1) ++ write_frame.audio_data (frame_at h a2)
  end.

Definition frame_addrs (b : basic_frame) : list addr :=
  match b with
  | frame_ref a => [a]
  | frame_interlaced a1 a2 _ => [a1; a2]
  end.

(** ** Specification notions *)

(** Whatever a computation does to the object, normally or by an
    exception, the states before and after are related by [R]. *)
Definition keeps (R : relation implementation) {A} (m : M A) : Prop :=
  forall s, match m s with
            | Ok _ s' | Throw _ s' => R s s'
            | Undefined => True
            end.

Definition same_policy : relation implementation :=
  fun s s' => display_mode_ s' = display_mode_ s.

(** Video segment count minus audio segment count. *)
Definition depth_difference (s : implementation) : Z :=
  (Z.of_nat (length (video_streams_ s)) - Z.of_nat (length (audio_streams_ s)))%Z.

Definition same_depth_difference : relation implementation :=
  fun s s' => depth_difference s' = depth_difference s.

Definition count_calls (p : call -> bool) (calls : list call) : Z :=
  Z.of_nat (length (filter (fun c => p c = true) calls)).

(** The state [truncate] leaves behind. *)
Definition truncated (s : implementation) : implementation :=
  match video_streams_ s, audio_streams_ s with
  | v :: (_ :: _) as vs, a :: (_ :: _) as aus =>
      if is_empty v || is_empty a then
        let s1 := if negb (is_empty v) || negb (is_empty a)
                  then set_log_ (log_ s ++ [log_truncating (length v) (length a)]) s
                  else s in
        set_audio_streams_ aus (set_video_streams_ vs s1)
      else s
  | _, _ => s
  end.

(** The constructor's arguments stay what they were. *)
Definition same_config : relation implementation :=
  fun s s' =>
    in_fps_ s' = in_fps_ s /\ format_desc_ s' = format_desc_ s
    /\ auto_mode_ s' = auto_mode_ s /\ avfilter_ s' = avfilter_ s.

(** The frames waiting in the video segments, oldest first. *)
Definition queued (s : implementation) : list addr :=
  concat (video_streams_ s).

(** The representation invariant.  [dead] lists frames that were dropped
    with a truncated segment.

    - both segment lists are non-empty;
    - a frame waits in at most one place, exists in the store and has no
      samples attached yet;
    - an emitted frame carries one frame's worth of samples, and its parts
      exist, wait in no segment and were not dropped;
    - a dropped frame waits in no segment. *)
Record inv (dead : list addr) (s : implementation) : Prop := {
  inv_video : video_streams_ s <> [];
  inv_audio : audio_streams_ s <> [];
  inv_nodup : NoDup (queued s);
  inv_queued : forall a, a ∈ queued s ->
    exists f, frames_ s !! a = Some f /\ write_frame.audio_data f = [];
  inv_buffer : forall b, b ∈ frame_buffer_ s ->
    length (frame_audio (frames_ s) b) = samples_per_frame s
    /\ forall a, a ∈ frame_addrs b ->
         a < length (frames_ s) /\ (a ∉ queued s) /\ (a ∉ dead);
  inv_dead : forall a, a ∈ dead -> a < length (frames_ s) /\ (a ∉ queued s)
}.

(** A computation started in a state with [I] ends, normally or by an
    exception, in a state with [I]; in particular its behaviour is
    defined. *)
Definition preserves (I : implementation -> Prop) {A} (m : M A) : Prop :=
  forall s, I s -> match m s with
                   | Ok _ s' | Throw _ s' => I s'
                   | Undefined => False
                   end.

(** The parts of the state the invariant reads. *)
Definition same_store (s s' : implementation) : Prop :=
  video_streams_ s' = video_streams_ s /\ audio_streams_ s' = audio_streams_ s
  /\ frame_buffer_ s' = frame_buffer_ s /\ frames_ s' = frames_ s
  /\ format_desc_ s' = format_desc_ s.

(** The policy a real picture sets while none is set. *)
Definition decided_mode (s : implementation) (video_frame : AVFrame.t)
  : display_mode.type :=
  if auto_mode_ s then
    let in_mode := get_mode video_frame in
    let out_mode := video_format_desc.mode (format_desc_ s) in
    let resolved := get_display_mode in_mode (in_fps_ s) out_mode
                      (video_format_desc.fps (format_desc_ s)) in
    if display_mode.eqb resolved display_mode.simple
       && negb (video_mode.eqb in_mode video_mode.progressive)
       && negb (video_mode.eqb out_mode video_mode.progressive)
       && negb (Z.eqb (AVFrame.height video_frame)
                      (static_cast_int (video_format_desc.height (format_desc_ s))))
    then display_mode.deinterlace_bob_reinterlace
    else resolved
  else display_mode.simple.

(** Readiness in the words of the specification: the current segment
    holds more than one picture, respectively more than one frame's worth
    of samples, and its side has at least as many segments as the other. *)
Definition video_ready_as_specified (s : implementation) : bool :=
  match last (video_streams_ s) with
  | Some v => Nat.ltb 1 (length v)
              && Nat.leb (length (audio_streams_ s)) (length (video_streams_ s))
  | None => false
  end.

Definition audio_ready_as_specified (s : implementation) : bool :=
  match last (audio_streams_ s) with
  | Some b => Nat.ltb (samples_per_frame s) (length b)
              && Nat.leb (length (video_streams_ s)) (length (audio_streams_ s))
  | None => false
  end.

Definition no_real_picture (calls : list call) : bool :=
  forallb (fun c => negb (is_real_picture c)) calls.

(** A muxer under the duplicate policy that holds one picture [w] and
    waits for samples. *)
Definition waiting (in_fps : float) (fd : video_format_desc.t)
    (svc : filter_service) (w : write_frame.t) : implementation :=
  make_implementation [[0]] [[]] [] display_mode.duplicate in_fps fd true
    0%Z 1%Z ffmpeg_filter.pass_through [w] svc [log_frame_muxer "duplicate"].

(** ** Sample values *)

(** A filter service whose graphs return every picture as it is. *)
Definition identity_service : filter_service := fun _ _ f => [f].

(** A filter service whose graphs return every picture twice, as a bob
    deinterlacer does with the two fields. *)
Definition bob_service : filter_service := fun _ _ f => [f; f].

Definition format_25p : video_format_desc.t :=
  video_format_desc.make video_mode.progressive 25%float 576%Z 4.

Definition format_50p : video_format_desc.t :=
  video_format_desc.make video_mode.progressive 50%float 576%Z 4.

Definition format_25i : video_format_desc.t :=
  video_format_desc.make video_mode.upper 25%float 576%Z 4.

Definition picture_progressive : AVFrame.t :=
  AVFrame.make (Some [16; 128; 235]%Z) 576%Z video_mode.progressive.

Definition picture_upper : AVFrame.t :=
  AVFrame.make (Some [16; 128; 235]%Z) 576%Z video_mode.upper.

Definition picture_upper_small : AVFrame.t :=
  AVFrame.make (Some [16; 128; 235]%Z) 480%Z video_mode.upper.

Definition placeholder : AVFrame.t :=
  AVFrame.make None 576%Z video_mode.progressive.

(** ** Further specification notions *)

(** The seven policies that have a combiner. *)
Definition named_policy (m : display_mode.type) : bool :=
  match m with
  | display_mode.count | display_mode.invalid => false
  | _ => true
  end.

(** The graph description of a filter; none for the pass-through filter. *)
Definition filter_description (f : ffmpeg_filter.t) : option string :=
  match f with
  | ffmpeg_filter.pass_through => None
  | ffmpeg_filter.graph filters _ => Some filters
  end.

(** The filter that belongs to a policy. *)
Definition policy_filter (m : display_mode.type) : option string :=
  match m with
  | display_mode.deinterlace => Some "YADIF=0:-1"
  | display_mode.deinterlace_bob
  | display_mode.deinterlace_bob_reinterlace => Some "YADIF=1:-1"
  | _ => None
  end.

(** The scan kind of the target a policy is chosen for: [interlace] and
    [deinterlace_bob_reinterlace] write interlaced output, [half],
    [duplicate], [deinterlace] and [deinterlace_bob] progressive output. *)
Definition policy_fits_target (m : display_mode.type)
    (out_mode : video_mode.type) : Prop :=
  match m with
  | display_mode.interlace
  | display_mode.deinterlace_bob_reinterlace => out_mode <> video_mode.progressive
  | display_mode.half | display_mode.duplicate
  | display_mode.deinterlace
  | display_mode.deinterlace_bob => out_mode = video_mode.progressive
  | display_mode.simple | display_mode.invalid => True
  | display_mode.count => False
  end.

(** The policy and the kind of filter stay what they were. *)
Definition same_policy_and_filter : relation implementation :=
  fun s s' =>
    display_mode_ s' = display_mode_ s
    /\ filter_description (filter_ s') = filter_description (filter_ s).

(** Started under one of the seven policies that have a combiner, a
    computation does not throw. *)
Definition quiet {A} (m : M A) : Prop :=
  forall s, named_policy (display_mode_ s) = true ->
            match m s with
            | Throw _ _ => False
            | _ => True
            end.

(** A muxer with automatic detection whose first real picture set the
    policy [m] and left the pass-through filter in place. *)
Definition muxing (m : display_mode.type) (in_fps : float)
    (fd : video_format_desc.t) (am : bool) (svc : filter_service)
    (video : list (list addr)) (audio : list (list Z))
    (buffer : list basic_frame) (store : list write_frame.t)
    (video_count audio_count : Z) : implementation :=
  make_implementation video audio buffer m in_fps fd am audio_count
    video_count ffmpeg_filter.pass_through store svc
    [log_frame_muxer (display_mode.print m)].

(** The frame the muxer makes of a filtered picture. *)
Definition admitted_frame (fd : video_format_desc.t) (f : AVFrame.t)
  : write_frame.t :=
  fix_field_order (video_format_desc.mode fd) (make_write_frame f).

(** The output queue only grows at its end. *)
Definition appends : relation implementation :=
  fun s s' => frame_buffer_ s `prefix_of` frame_buffer_ s'.

(** The store changes only at frames that wait in a segment and at new
    addresses, and no stored frame that does not wait starts to wait. *)
Definition untouched : relation implementation :=
  fun s s' =>
    length (frames_ s) <= length (frames_ s')
    /\ (forall a, a ∈ queued s' -> a ∈ queued s \/ length (frames_ s) <= a)
    /\ (forall a, a < length (frames_ s) -> a ∉ queued s ->
                  frames_ s' !! a = frames_ s !! a).

(** The samples attached to the frames [out], in order. *)
Definition attached_samples (h : list write_frame.t) (out : list basic_frame)
  : list Z :=
  concat (map (frame_audio h) out).

(** All samples the muxer holds, in temporal order: those attached to the
    frames of the output queue, then those waiting in the audio segments. *)
Definition held_samples (s : implementation) : list Z :=
  attached_samples (frames_ s) (frame_buffer_ s) ++ concat (audio_streams_ s).

(** What a combiner does: it appends frames to the output queue and moves
    the samples it attaches to them from the head of the waiting samples,
    leaving the number of audio segments and the configuration alone. *)
Definition combined (s s' : implementation) : Prop :=
  untouched s s'
  /\ format_desc_ s' = format_desc_ s
  /\ length (audio_streams_ s') = length (audio_streams_ s)
  /\ exists out,
       frame_buffer_ s' = frame_buffer_ s ++ out
       /\ concat (audio_streams_ s)
          = attached_samples (frames_ s') out ++ concat (audio_streams_ s').

(** The samples of the chunks pushed by [calls], in order. *)
Definition pushed_samples (calls : list call) : list Z :=
  concat (omap (fun c => match c with
                         | call_push_audio (Some samples) => Some samples
                         | _ => None
                         end) calls).

Definition is_pop (c : call) : bool :=
  match c with call_pop => true | _ => false end.

(** A computation started in a state with the invariant is defined and
    ends in a state with the invariant that is [R]-related to the state it
    started in. *)
Definition advances (dead : list addr) (R : relation implementation) {A}
    (m : M A) : Prop :=
  forall s, inv dead s ->
            match m s with
            | Ok _ s' | Throw _ s' => inv dead s' /\ R s s'
            | Undefined => False
            end.

(** The muxer holds exactly the samples [P], in one audio segment. *)
Definition holds_samples (P : list Z) (s : implementation) : Prop :=
  inv [] s /\ length (audio_streams_ s) = 1 /\ held_samples s = P.

Definition keeps_audio_segment (c : call) : bool :=
  negb (is_pop c) && negb (is_reset_audio c).

(** A computation started in a state with [I] returns normally, in a
    state with [I]. *)
Definition returns (I : implementation -> Prop) {A} (m : M A) : Prop :=
  forall s, I s -> match m s with
                   | Ok _ s' => I s'
                   | _ => False
                   end.

(** A muxer that was reset on both sides while its oldest video segment
    [v] still held pictures and its oldest audio segment [a] held some
    samples, but less than one frame's worth; [buffer] is its output
    queue. *)
Definition stalled (v : list addr) (a : list Z) (buffer : list basic_frame)
    (s : implementation) : Prop :=
  v <> [] /\ a <> [] /\ length a < samples_per_frame s
  /\ frame_buffer_ s = buffer
  /\ exists vs aus,
       video_streams_ s = v :: vs /\ vs <> []
       /\ audio_streams_ s = a :: aus /\ aus <> [].

(** The segments, the output queue and the format are what they were. *)
Definition same_streams (s s' : implementation) : Prop :=
  video_streams_ s' = video_streams_ s /\ audio_streams_ s' = audio_streams_ s
  /\ frame_buffer_ s' = frame_buffer_ s /\ format_desc_ s' = format_desc_ s.

(** The vertical shift a frame of field type [get_type] needs on a target
    of mode [out_mode]: half a scan line when the field orders are
    opposite, none otherwise. *)
Definition expected_translation (out_mode : video_mode.type)
    (w : write_frame.t) : fill_translation :=
  match write_frame.get_type w, out_mode with
  | video_mode.lower, video_mode.upper =>
      translation_half_line_down (write_frame.plane0_height w)
  | video_mode.upper, video_mode.lower =>
      translation_half_line_up (write_frame.plane0_height w)
  | _, _ => translation_none
  end.

Definition field_order_fixed (out_mode : video_mode.type)
    (w : write_frame.t) : Prop :=
  write_frame.get_fill_translation w = expected_translation out_mode w.

(** Every stored frame keeps the shift its field order needs; the format
    stays what it was. *)
Definition keeps_field_order : relation implementation :=
  fun s s' =>
    format_desc_ s' = format_desc_ s
    /\ (Forall (field_order_fixed (video_format_desc.mode (format_desc_ s)))
               (frames_ s) ->
        Forall (field_order_fixed (video_format_desc.mode (format_desc_ s')))
               (frames_ s')).

(** The output queue grows by at most [k] frames. *)
Definition grows (k : nat) : relation implementation :=
  fun s s' =>
    exists out, frame_buffer_ s' = frame_buffer_ s ++ out /\ length out <= k.

(** The frames one run of the pump can emit under a policy. *)
Definition frames_per_pump (m : display_mode.type) : nat :=
  match m with
  | display_mode.duplicate => 2
  | display_mode.count | display_mode.invalid => 0
  | _ => 1
  end.
(** The code's test [std::abs(a - b) < epsilon] says that the difference
    lies strictly between the negated tolerance and the tolerance. *)
Lemma SFltb_abs (x : spec_float) m e :
  SFltb (SFabs x) (S754_finite false m e)
  = SFltb (S754_finite true m e) x && SFltb x (S754_finite false m e).
Proof.
  destruct x as [[] | [] | | [] mx ex]; try reflexivity; unfold SFltb; simpl.
  rewrite (Z.compare_antisym ex e).
  destruct (Z.compare ex e); simpl; try reflexivity.
  change (PosDef.Pos.compare_cont Eq m mx) with (Pos.compare m mx).
  change (PosDef.Pos.compare_cont Eq mx m) with (Pos.compare mx m).
  rewrite (Pos.compare_antisym mx m).
  destruct (Pos.compare mx m); reflexivity.
Qed.

Lemma within_epsilon_near a b : within_epsilon a b = near a b.
Proof.
  unfold within_epsilon, near.
  rewrite !ltb_spec, abs_spec.
  change (Prim2SF epsilon) with (S754_finite false 4503599627370496 (-51)).
  change (Prim2SF tolerance) with (S754_finite false 4503599627370496 (-51)).
  change (Prim2SF (- tolerance))
    with (S754_finite true 4503599627370496 (-51)).
  apply SFltb_abs.
Qed.

(** C1, as stated, fails: a 23.976 fps progressive source on a 50 fps
    progressive target.  Twice the source rate is 47.952, which is more
    than 2.0 away from 50, and no other row of the table matches, so the
    table gives [invalid]; the resolver compares the source rate with half
    the target rate, 23.976 with 25, and answers [duplicate]. *)
Lemma doubled_rate_counterexample :
  get_display_mode video_mode.progressive ntsc_film_rate
                   video_mode.progressive 50
  = display_mode.duplicate
  /\ PrimFloat.ltb 2 (PrimFloat.sub 50 (PrimFloat.mul 2 ntsc_film_rate))
     = true
  /\ rates_as_tabulated ntsc_film_rate 50 = no_ratio_matches
  /\ rule_table (rates_as_tabulated ntsc_film_rate 50)
                (scan_of video_mode.progressive)
                (scan_of video_mode.progressive)
     = display_mode.invalid.
Proof. by repeat split. Qed.

(** C1, amended: for every source scan mode, source rate, target scan mode
    and target rate, the resolver returns the policy of the rule table's
    row for that combination, where the rates are "equal" when they differ
    by less than 2.0, the source is "twice the target" when half the source
    rate differs from the target rate by less than 2.0, and the target is
    "twice the source" when the source rate differs from half the target
    rate by less than 2.0, the rows being tried in the table's order;
    combinations outside the policy rows, rates that are not numbers
    included, give [invalid]. *)
Theorem get_display_mode_rule_table :
  forall (in_mode : video_mode.type) (in_fps : float)
         (out_mode : video_mode.type) (out_fps : float),
    get_display_mode in_mode in_fps out_mode out_fps
    = rule_table (rates_halved in_fps out_fps) (scan_of in_mode)
                 (scan_of out_mode).
Proof.
  intros in_mode in_fps out_mode out_fps.
  unfold get_display_mode, rates_halved.
  rewrite !within_epsilon_near.
  destruct (near in_fps out_fps);
    [| destruct (near (PrimFloat.div in_fps 2) out_fps);
       [| destruct (near in_fps (PrimFloat.div out_fps 2)) ] ];
    destruct in_mode, out_mode; reflexivity.
Qed.

Example resolver_25i_to_50p :
  get_display_mode video_mode.upper 25 video_mode.progressive 50
  = display_mode.deinterlace_bob.
Proof. reflexivity. Qed.

Example resolver_50p_to_25i :
  get_display_mode video_mode.progressive 50 video_mode.lower 25
  = display_mode.interlace.
Proof. reflexivity. Qed.

Example resolver_film_to_pal :
  get_display_mode video_mode.progressive 24 video_mode.progressive 25
  = display_mode.simple.
Proof. reflexivity. Qed.

Example resolver_tolerance_is_strict :
  get_display_mode video_mode.progressive 27 video_mode.progressive 25
  = display_mode.invalid.
Proof. reflexivity. Qed.

Example resolver_60_to_25 :
  get_display_mode video_mode.progressive 60 video_mode.progressive 25
  = display_mode.invalid.
Proof. reflexivity. Qed.

Example resolver_nan :
  get_display_mode video_mode.progressive PrimFloat.nan video_mode.progressive 25
  = display_mode.invalid.
Proof. reflexivity. Qed.

Lemma display_mode_eqb_eq a b : display_mode.eqb a b = true <-> a = b.
Proof. destruct a, b; simpl; split; congruence. Qed.

Lemma video_mode_eqb_eq a b : video_mode.eqb a b = true <-> a = b.
Proof. destruct a, b; simpl; split; congruence. Qed.

Lemma video_mode_eqb_neq a b : video_mode.eqb a b = false <-> a <> b.
Proof. destruct a, b; simpl; split; congruence. Qed.

(** ** Relations kept by the member functions *)

Section Keeps.
Context (R : relation implementation).
Context (R_refl : Reflexive R) (R_trans : Transitive R).

Lemma keeps_ret {A} (a : A) : keeps R (ret a).
Proof. intros s. simpl. reflexivity. Qed.

Lemma keeps_get : keeps R get.
Proof. intros s. simpl. reflexivity. Qed.

Lemma keeps_throw {A} e : keeps R (@throw A e).
Proof. intros s. simpl. reflexivity. Qed.

Lemma keeps_undefined {A} : keeps R (@undefined A).
Proof. intros s. exact I. Qed.

Lemma keeps_bind {A B} (m : M A) (k : A -> M B) :
  keeps R m -> (forall a, keeps R (k a)) -> keeps R (bind m k).
Proof.
  intros Hm Hk s. unfold bind. specialize (Hm s).
  destruct (m s) as [a s1 | e s1 |]; [| exact Hm | exact I].
  specialize (Hk a s1).
  destruct (k a s1) as [b s2 | e s2 |]; [| | exact I]; etransitivity; eauto.
Qed.

Lemma keeps_modify f : (forall s, R s (f s)) -> keeps R (modify f).
Proof. intros Hf s. apply Hf. Qed.

Lemma keeps_when b m : keeps R m -> keeps R (when b m).
Proof. destruct b; simpl; [done | intros _; apply keeps_ret]. Qed.

Lemma keeps_for_each {A} (l : list A) body :
  (forall x, keeps R (body x)) -> keeps R (for_each l body).
Proof.
  intros Hb. induction l as [| x l IH]; simpl.
  - apply keeps_ret.
  - apply keeps_bind; [apply Hb | intros _; exact IH].
Qed.
End Keeps.

#[global] Instance same_policy_refl : Reflexive same_policy.
Proof. intros s. reflexivity. Qed.

#[global] Instance same_policy_trans : Transitive same_policy.
Proof. intros a b c H1 H2. unfold same_policy in *. congruence. Qed.

#[global] Instance same_depth_difference_refl : Reflexive same_depth_difference.
Proof. intros s. reflexivity. Qed.

#[global] Instance same_depth_difference_trans : Transitive same_depth_difference.
Proof. intros a b c H1 H2. unfold same_depth_difference in *. congruence. Qed.

Create HintDb keeps.

Ltac order_goal :=
  match goal with
  | |- Reflexive _ => solve [ apply _ ]
  | |- Transitive _ => solve [ apply _ ]
  end.

(** Splits a computation along its binds and branches; the remaining
    goals are about single steps. *)
Ltac keeps_step :=
  lazymatch goal with
  | |- Reflexive _ => solve [ apply _ ]
  | |- Transitive _ => solve [ apply _ ]
  | |- keeps _ (ret _) => apply keeps_ret
  | |- keeps _ get => apply keeps_get
  | |- keeps _ (throw _) => apply keeps_throw
  | |- keeps _ undefined => apply keeps_undefined
  | |- keeps _ (bind _ _) => apply keeps_bind; [ | | intros ? ]
  | |- keeps _ (when _ _) => apply keeps_when
  | |- keeps _ (for_each _ _) => apply keeps_for_each; [ | | intros ? ]
  | |- keeps _ (if ?b then _ else _) => destruct b
  | |- keeps _ (match ?x with _ => _ end) => destruct x
  | |- keeps _ _ => solve [ eauto with keeps ]
  end.

Ltac keeps_split := repeat keeps_step.

Section KeepsPrimitives.
Context (R : relation implementation).
Context (R_refl : Reflexive R) (R_trans : Transitive R).
Context (R_frames : forall h s, R s (set_frames_ h s)).
Context (R_buffer : forall b s, R s (set_frame_buffer_ b s)).
Context (R_log : forall l s, R s (set_log_ l s)).
Context (R_count_v : forall n s, R s (set_video_frame_count_ n s)).
Context (R_count_a : forall n s, R s (set_audio_sample_count_ n s)).
Context (R_filter : forall f s, R s (set_filter_ f s)).

Lemma keeps_front_video : keeps R front_video.
Proof. intros s. unfold front_video. destruct (video_streams_ s); [exact I | reflexivity]. Qed.

Lemma keeps_front_audio : keeps R front_audio.
Proof. intros s. unfold front_audio. destruct (audio_streams_ s); [exact I | reflexivity]. Qed.

Lemma keeps_new_frame f : keeps R (new_frame f).
Proof. intros s. apply R_frames. Qed.

Lemma keeps_read_frame a : keeps R (read_frame a).
Proof. intros s. unfold read_frame. destruct (frames_ s !! a); [reflexivity | exact I]. Qed.

Lemma keeps_write_frame_at a upd : keeps R (write_frame_at a upd).
Proof. intros s. unfold write_frame_at. destruct (frames_ s !! a); [apply R_frames | exact I]. Qed.

Lemma keeps_push_back_dest b : keeps R (push_back_dest b).
Proof. apply keeps_modify. intros s. apply R_buffer. Qed.

Lemma keeps_pop : keeps R pop.
Proof. intros s. unfold pop. destruct (frame_buffer_ s); [exact I | apply R_buffer]. Qed.

Lemma keeps_log e : keeps R (log e).
Proof. apply keeps_modify. intros s. apply R_log. Qed.

Lemma keeps_increment_video_frame_count : keeps R increment_video_frame_count.
Proof. apply keeps_modify. intros s. apply R_count_v. Qed.

Lemma keeps_filter_execute f : keeps R (filter_execute f).
Proof.
  unfold filter_execute.
  unfold filter_execute. keeps_split.
  apply keeps_modify. intros s'. apply R_filter.
Qed.
End KeepsPrimitives.

(** ** Basic facts *)

Lemma update_back_Some {A} (f : A -> A) (l l' : list A) :
  update_back f l = Some l' <->
  exists init x, l = init ++ [x] /\ l' = init ++ [f x].
Proof.
  unfold update_back. split.
  - destruct (reverse l) as [| x r] eqn:Hr; [done |].
    intros [= <-]. exists (reverse r), x.
    rewrite reverse_cons. split; [| done].
    rewrite <- (reverse_involutive l), Hr, reverse_cons. done.
  - intros (init & x & -> & ->).
    rewrite reverse_app. simpl. rewrite reverse_cons, reverse_involutive. done.
Qed.

Lemma update_back_None {A} (f : A -> A) (l : list A) :
  update_back f l = None <-> l = [].
Proof.
  unfold update_back. split.
  - destruct (reverse l) as [| x r] eqn:Hr; [| done].
    intros _. rewrite <- (reverse_involutive l), Hr. done.
  - intros ->. done.
Qed.

Lemma update_back_length {A} (f : A -> A) (l l' : list A) :
  update_back f l = Some l' -> length l' = length l.
Proof.
  intros (init & x & -> & ->)%update_back_Some. rewrite !length_app. done.
Qed.

Lemma truncate_eq s : truncate s = Ok tt (truncated s).
Proof.
  destruct s as [vs aus fb dm fps fd am ac vc fl h svc lg].
  unfold truncate, truncated, bind, get, front_video, front_audio, when, log,
    modify, ret; simpl.
  destruct vs as [| v [| v2 vs]]; simpl; try done;
    destruct aus as [| a [| a2 aus]]; simpl; try done.
  destruct v, a; simpl; done.
Qed.

(** ** The policy and the depth difference through the pump *)

Ltac relation_goal :=
  solve [ apply _
        | intros; cbv [same_policy same_depth_difference depth_difference];
          simpl; reflexivity
        | intros; by repeat split ].

Ltac keeps_leaf :=
  first
    [ apply keeps_front_video | apply keeps_front_audio
    | apply keeps_new_frame | apply keeps_read_frame
    | apply keeps_write_frame_at | apply keeps_push_back_dest
    | apply keeps_pop | apply keeps_log
    | apply keeps_increment_video_frame_count
    | apply keeps_filter_execute
    | apply keeps_modify ];
  relation_goal.

Ltac keeps_auto := repeat first [ keeps_step | keeps_leaf ].

(** Case analysis on an innermost scrutinee. *)
Ltac break_inner :=
  match goal with
  | |- context [match ?x with _ => _ end] =>
      lazymatch x with
      | context [match _ with _ => _ end] => fail
      | _ => destruct x eqn:?
      end
  end.

Lemma same_policy_pop_video : keeps same_policy pop_video.
Proof. intros s. unfold pop_video. repeat break_inner; done. Qed.

Lemma same_policy_pop_audio : keeps same_policy pop_audio.
Proof. intros s. unfold pop_audio. repeat break_inner; done. Qed.

Lemma same_policy_push_back_video a : keeps same_policy (push_back_video a).
Proof. intros s. unfold push_back_video. repeat break_inner; done. Qed.

Lemma same_policy_push_back_audio a : keeps same_policy (push_back_audio a).
Proof. intros s. unfold push_back_audio. repeat break_inner; done. Qed.

Lemma same_policy_truncate : keeps same_policy truncate.
Proof.
  intros s. rewrite truncate_eq. unfold truncated, same_policy.
  repeat break_inner; done.
Qed.

Lemma same_depth_pop_video : keeps same_depth_difference pop_video.
Proof.
  intros s. unfold pop_video.
  destruct (video_streams_ s) as [| [| a q] rest] eqn:Hv; try done.
  unfold same_depth_difference, depth_difference. simpl. rewrite Hv. done.
Qed.

Lemma same_depth_pop_audio : keeps same_depth_difference pop_audio.
Proof.
  intros s. unfold pop_audio.
  destruct (audio_streams_ s) as [| a rest] eqn:Ha; [done |].
  simpl. destruct (Nat.ltb _ _); [done |].
  unfold same_depth_difference, depth_difference. simpl. rewrite Ha. done.
Qed.

Lemma same_depth_push_back_video a :
  keeps same_depth_difference (push_back_video a).
Proof.
  intros s. unfold push_back_video.
  destruct (update_back _ _) as [v |] eqn:Hv; [| done].
  apply update_back_length in Hv.
  unfold same_depth_difference, depth_difference. simpl. rewrite Hv. done.
Qed.

Lemma same_depth_push_back_audio a :
  keeps same_depth_difference (push_back_audio a).
Proof.
  intros s. unfold push_back_audio.
  destruct (update_back _ _) as [v |] eqn:Hv; [| done].
  apply update_back_length in Hv.
  unfold same_depth_difference, depth_difference. simpl. rewrite Hv. done.
Qed.

Lemma same_depth_truncate : keeps same_depth_difference truncate.
Proof.
  intros s. rewrite truncate_eq.
  unfold truncated, same_depth_difference, depth_difference.
  destruct (video_streams_ s) as [| v [| v2 vs]] eqn:Hv; try (rewrite Hv; done);
    destruct (audio_streams_ s) as [| a [| a2 aus]] eqn:Ha;
    try (rewrite Hv, Ha; done).
  destruct (is_empty v || is_empty a); [| rewrite Hv, Ha; done].
  simpl. lia.
Qed.

#[global] Hint Resolve same_policy_pop_video same_policy_pop_audio
  same_policy_push_back_video same_policy_push_back_audio same_policy_truncate
  same_depth_pop_video same_depth_pop_audio same_depth_push_back_video
  same_depth_push_back_audio same_depth_truncate : keeps.

Lemma same_policy_put_frames : keeps same_policy put_frames.
Proof.
  unfold put_frames, combine, dispatch, simple, duplicate, half, interlace.
  keeps_auto.
Qed.

Lemma same_depth_put_frames : keeps same_depth_difference put_frames.
Proof.
  unfold put_frames, combine, dispatch, simple, duplicate, half, interlace.
  keeps_auto.
Qed.

#[global] Hint Resolve same_policy_put_frames same_depth_put_frames : keeps.

(** ** Calls of the public interface *)

Lemma same_depth_decide_display_mode f :
  keeps same_depth_difference (decide_display_mode f).
Proof. unfold decide_display_mode. keeps_auto. Qed.

Lemma same_depth_push_real f :
  keeps same_depth_difference
    (do s <- get;
     when (display_mode.eqb (display_mode_ s) display_mode.invalid)
          (decide_display_mode f);;
     do filtered <- filter_execute f;
     for_each filtered (fun av_frame =>
       do s <- get;
       do frame <- new_frame
                     (fix_field_order (video_format_desc.mode (format_desc_ s))
                                      (make_write_frame av_frame));
       push_back_video frame;;
       increment_video_frame_count;;
       put_frames)).
Proof.
  pose proof same_depth_decide_display_mode. keeps_auto.
Qed.

Lemma same_policy_feed f :
  keeps same_policy
    (do filtered <- filter_execute f;
     for_each filtered (fun av_frame =>
       do s <- get;
       do frame <- new_frame
                     (fix_field_order (video_format_desc.mode (format_desc_ s))
                                      (make_write_frame av_frame));
       push_back_video frame;;
       increment_video_frame_count;;
       put_frames)).
Proof. keeps_auto. Qed.

Lemma same_policy_placeholder :
  keeps same_policy
    (do frame <- new_frame write_frame.empty;
     push_back_video frame;; increment_video_frame_count;; put_frames).
Proof. keeps_auto. Qed.

Lemma same_depth_placeholder :
  keeps same_depth_difference
    (do frame <- new_frame write_frame.empty;
     push_back_video frame;; increment_video_frame_count;; put_frames).
Proof. keeps_auto. Qed.

Lemma same_policy_push_audio a : keeps same_policy (push_audio a).
Proof. destruct a; unfold push_audio; keeps_auto. Qed.

Lemma same_policy_push_video_other f :
  is_real_picture (call_push_video f) = false ->
  keeps same_policy (push_video f).
Proof.
  destruct f as [f |]; unfold is_real_picture, push_video.
  - destruct (AVFrame.data0 f) eqn:Hd; [done |]. intros _.
    apply same_policy_placeholder.
  - intros _. keeps_auto.
Qed.

(** The state after a call, related to the state before it. *)
Lemma keeps_state_after (R : relation implementation) {A} (m : M A) s s' :
  keeps R m -> state_after (m s) = Some s' -> R s s'.
Proof.
  intros Hk. specialize (Hk s). destruct (m s); simpl; intros [= <-]; done.
Qed.

Lemma exec_policy_other c s s' :
  is_real_picture c = false ->
  state_after (exec c s) = Some s' -> display_mode_ s' = display_mode_ s.
Proof.
  intros Hc. apply (keeps_state_after same_policy).
  destruct c as [f | a |]; simpl.
  - by apply same_policy_push_video_other.
  - apply same_policy_push_audio.
  - keeps_auto.
Qed.

Lemma exec_policy_decided c s s' :
  display_mode_ s <> display_mode.invalid ->
  state_after (exec c s) = Some s' -> display_mode_ s' = display_mode_ s.
Proof.
  intros Hdm. destruct (is_real_picture c) eqn:Hc;
    [| by apply exec_policy_other].
  destruct c as [[f |] | |]; simpl in Hc; try done.
  destruct (AVFrame.data0 f) eqn:Hd; [| done].
  simpl. unfold push_video. rewrite Hd.
  unfold bind at 1. simpl.
  destruct (display_mode.eqb (display_mode_ s) display_mode.invalid) eqn:He.
  { apply display_mode_eqb_eq in He. done. }
  unfold bind at 1. simpl.
  apply (keeps_state_after same_policy), same_policy_feed.
Qed.

Lemma exec_depth c s s' :
  state_after (exec c s) = Some s' ->
  depth_difference s'
  = (depth_difference s + (if is_reset_video c then 1 else 0)
     - (if is_reset_audio c then 1 else 0))%Z.
Proof.
  destruct c as [[f |] | [a |] |]; simpl.
  - intros H. apply (keeps_state_after same_depth_difference) in H.
    + rewrite H. lia.
    + destruct (AVFrame.data0 f);
        [apply same_depth_push_real | apply same_depth_placeholder].
  - intros [= <-]. unfold depth_difference. simpl. rewrite length_app. simpl. lia.
  - intros H. apply (keeps_state_after same_depth_difference) in H.
    + rewrite H. lia.
    + keeps_auto.
  - unfold bind, get. destruct (Nat.eqb (samples_per_frame s) 0); [done |].
    intros [= <-]. unfold depth_difference. simpl. rewrite length_app. simpl.
    lia.
  - intros H. apply (keeps_state_after same_depth_difference) in H.
    + rewrite H. lia.
    + keeps_auto.
Qed.

Lemma count_calls_cons p c calls :
  count_calls p (c :: calls)
  = ((if p c then 1 else 0) + count_calls p calls)%Z.
Proof.
  unfold count_calls. rewrite filter_cons.
  destruct (decide (p c = true)) as [Hp | Hp].
  - rewrite Hp. simpl. lia.
  - destruct (p c); [done | simpl; lia].
Qed.

Lemma run_depth calls : forall s s',
  run calls s = Some s' ->
  depth_difference s'
  = (depth_difference s + count_calls is_reset_video calls
     - count_calls is_reset_audio calls)%Z.
Proof.
  induction calls as [| c calls IH]; intros s s'; simpl.
  - intros [= <-]. unfold count_calls. simpl. lia.
  - destruct (state_after (exec c s)) as [s1 |] eqn:H1; [| done].
    intros H. apply IH in H. apply exec_depth in H1.
    rewrite !count_calls_cons. lia.
Qed.

(** ** The invariant *)

Lemma inv_same_store dead s s' : same_store s s' -> inv dead s -> inv dead s'.
Proof.
  intros (Hv & Ha & Hb & Hf & Hd) [].
  split; unfold queued, samples_per_frame in *; rewrite ?Hv, ?Ha, ?Hb, ?Hf, ?Hd; done.
Qed.

Lemma inv_weaken dead dead' s :
  (forall a, a ∈ dead' -> a ∈ dead) -> inv dead s -> inv dead' s.
Proof.
  intros Hsub []. split; try done.
  - intros b Hb. destruct (inv_buffer0 b Hb) as [Hl Ha]. split; [done |].
    intros a Hin. destruct (Ha a Hin) as (? & ? & Hnd).
    split; [done |]. split; [done |]. intros Hd. apply Hnd, Hsub, Hd.
  - intros a Hd. apply inv_dead0, Hsub, Hd.
Qed.

Lemma inv_new in_fps fd am svc : inv [] (implementation_new in_fps fd am svc).
Proof.
  split; simpl; try done.
  - unfold queued. simpl. constructor.
  - unfold queued. simpl. intros a Ha. by apply elem_of_nil in Ha.
  - intros b Hb. by apply elem_of_nil in Hb.
  - intros a Ha. by apply elem_of_nil in Ha.
Qed.

Lemma frame_audio_ext h h' b :
  (forall a, a ∈ frame_addrs b -> h' !! a = h !! a) ->
  frame_audio h' b = frame_audio h b.
Proof.
  intros H. destruct b as [a | a1 a2 m]; simpl in *; unfold frame_at.
  - rewrite H; [done | apply list_elem_of_singleton; done].
  - rewrite !H; [done | rewrite !elem_of_cons; auto..].
Qed.

(** A combiner step: frames leave the segments, samples leave the oldest
    audio segment, the store changes only at frames that left or are new,
    and [out] is appended to the output queue. *)
Lemma inv_emit dead s s' out :
  inv dead s ->
  video_streams_ s' <> [] ->
  audio_streams_ s' <> [] ->
  sublist (queued s') (queued s) ->
  format_desc_ s' = format_desc_ s ->
  frame_buffer_ s' = frame_buffer_ s ++ out ->
  length (frames_ s) <= length (frames_ s') ->
  (forall a, a < length (frames_ s) -> (a ∉ queued s) \/ a ∈ queued s' ->
             frames_ s' !! a = frames_ s !! a) ->
  (forall b, b ∈ out ->
     length (frame_audio (frames_ s') b) = samples_per_frame s
     /\ forall a, a ∈ frame_addrs b ->
          a < length (frames_ s') /\ (a ∉ queued s')
          /\ (a ∈ queued s \/ length (frames_ s) <= a)) ->
  inv dead s'.
Proof.
  intros [] Hv Ha Hsub Hfd Hfb Hlen Hsame Hout.
  assert (Hin : forall a, a ∈ queued s' -> a ∈ queued s).
  { intros a Ha'. by eapply elem_of_sublist. }
  split; try done.
  - by eapply sublist_NoDup.
  - intros a Hq. destruct (inv_queued0 a (Hin a Hq)) as (f & Hf & Hau).
    exists f. split; [| done]. rewrite Hsame; [done | | by right].
    by eapply lookup_lt_Some.
  - assert (Hspf : samples_per_frame s' = samples_per_frame s).
    { unfold samples_per_frame. by rewrite Hfd. }
    intros b. rewrite Hfb, elem_of_app, Hspf.
    intros [Hb | Hb].
    + destruct (inv_buffer0 b Hb) as [Hl Haddr]. split.
      * rewrite <- Hl. f_equal. apply frame_audio_ext. intros a Hab.
        destruct (Haddr a Hab) as (? & ? & ?). apply Hsame; [done | by left].
      * intros a Hab. destruct (Haddr a Hab) as (? & ? & ?).
        split; [lia |]. split; [| done]. intros Hq. by apply Hin in Hq.
    + destruct (Hout b Hb) as [Hl Haddr]. split; [done |].
      intros a Hab. destruct (Haddr a Hab) as (? & ? & Hor).
      split; [done |]. split; [done |]. intros Hd.
      destruct (inv_dead0 a Hd) as [? ?]. destruct Hor; [done | lia].
  - intros a Hd. destruct (inv_dead0 a Hd) as [? ?]. split; [lia |].
    intros Hq. by apply Hin in Hq.
Qed.

Lemma queued_cons s v rest :
  video_streams_ s = v :: rest -> queued s = v ++ concat rest.
Proof. unfold queued. intros ->. done. Qed.

Lemma simple_preserves dead : preserves (inv dead) simple.
Proof.
  intros s Hinv.
  destruct s as [vs aus fb dm fps fd am ac vc fl h svc lg].
  pose proof (inv_video _ _ Hinv) as Hv. pose proof (inv_audio _ _ Hinv) as Ha.
  simpl in Hv, Ha.
  destruct vs as [| v vrest]; [done |]. destruct aus as [| a arest]; [done |].
  unfold simple, bind, front_video, front_audio, get, pop_video, pop_audio,
    write_frame_at, push_back_dest, modify, ret, samples_per_frame; simpl.
  destruct v as [| f q]; simpl; [exact Hinv |].
  destruct (Nat.ltb (length a) _) eqn:Hlt; simpl; [exact Hinv |].
  rewrite Hlt; simpl.
  apply Nat.ltb_ge in Hlt.
  pose proof (inv_nodup _ _ Hinv) as Hnd. unfold queued in Hnd. simpl in Hnd.
  apply NoDup_cons in Hnd as [Hf Hnd].
  destruct (inv_queued _ _ Hinv f) as (w & Hw & Hwa).
  { unfold queued. simpl. apply elem_of_cons. by left. }
  simpl in Hw. rewrite Hw. simpl.
  eapply (inv_emit _ _ _ [frame_ref f] Hinv); simpl; try done.
  - unfold queued. simpl. by apply sublist_cons.
  - rewrite length_insert. done.
  - intros x Hx Hor. apply list_lookup_insert_ne. intros ->.
    unfold queued in Hor. simpl in Hor. destruct Hor as [Hor | Hor]; [| done].
    apply Hor, elem_of_cons. by left.
  - intros b ->%list_elem_of_singleton. simpl. unfold frame_at.
    rewrite list_lookup_insert_eq by (by eapply lookup_lt_Some). simpl.
    unfold samples_per_frame. simpl. split; [rewrite length_take; lia |].
    intros x ->%list_elem_of_singleton. rewrite length_insert.
    split; [by eapply lookup_lt_Some |]. unfold queued. simpl.
    split; [done |]. left. apply elem_of_cons. by left.
Qed.

Lemma frame_at_lookup (h : list write_frame.t) a w :
  h !! a = Some w -> frame_at h a = w.
Proof. unfold frame_at. by intros ->. Qed.

Lemma frame_at_insert_eq (h : list write_frame.t) a w :
  a < length h -> frame_at (<[a := w]> h) a = w.
Proof. intros H. apply frame_at_lookup. by apply list_lookup_insert_eq. Qed.

Lemma frame_at_insert_ne (h : list write_frame.t) a b w :
  a <> b -> frame_at (<[a := w]> h) b = frame_at h b.
Proof. intros H. unfold frame_at. by rewrite list_lookup_insert_ne. Qed.

Lemma half_preserves dead : preserves (inv dead) half.
Proof.
  intros s Hinv.
  destruct s as [vs aus fb dm fps fd am ac vc fl h svc lg].
  pose proof (inv_video _ _ Hinv) as Hv. pose proof (inv_audio _ _ Hinv) as Ha.
  simpl in Hv, Ha.
  destruct vs as [| v vrest]; [done |]. destruct aus as [| a arest]; [done |].
  unfold half, bind, front_video, front_audio, get, pop_video, pop_audio,
    write_frame_at, push_back_dest, modify, ret, samples_per_frame; simpl.
  destruct v as [| f [| f2 q]]; simpl; try exact Hinv.
  destruct (Nat.ltb (length a) _) eqn:Hlt; simpl; [exact Hinv |].
  rewrite Hlt; simpl.
  apply Nat.ltb_ge in Hlt.
  pose proof (inv_nodup _ _ Hinv) as Hnd. unfold queued in Hnd. simpl in Hnd.
  apply NoDup_cons in Hnd as [Hf Hnd].
  destruct (inv_queued _ _ Hinv f) as (w & Hw & Hwa).
  { unfold queued. simpl. apply elem_of_cons. by left. }
  simpl in Hw. rewrite Hw. simpl.
  eapply (inv_emit _ _ _ [frame_ref f] Hinv); simpl; try done.
  - unfold queued. simpl. by apply sublist_cons, sublist_cons.
  - rewrite length_insert. done.
  - intros x Hx Hor. apply list_lookup_insert_ne. intros ->.
    unfold queued in Hor. simpl in Hor. destruct Hor as [Hor | Hor].
    + apply Hor, elem_of_cons. by left.
    + apply Hf, elem_of_cons. by right.
  - intros b ->%list_elem_of_singleton. simpl. unfold frame_at.
    rewrite list_lookup_insert_eq by (by eapply lookup_lt_Some). simpl.
    unfold samples_per_frame. simpl. split; [rewrite length_take; lia |].
    intros x ->%list_elem_of_singleton. rewrite length_insert.
    split; [by eapply lookup_lt_Some |]. unfold queued. simpl.
    split; [| left; apply elem_of_cons; by left].
    intros Hq. apply Hf, elem_of_cons. by right.
Qed.

Lemma interlace_preserves dead : preserves (inv dead) interlace.
Proof.
  intros s Hinv.
  destruct s as [vs aus fb dm fps fd am ac vc fl h svc lg].
  pose proof (inv_video _ _ Hinv) as Hv. pose proof (inv_audio _ _ Hinv) as Ha.
  simpl in Hv, Ha.
  destruct vs as [| v vrest]; [done |]. destruct aus as [| a arest]; [done |].
  unfold interlace, bind, front_video, front_audio, get, pop_video, pop_audio,
    write_frame_at, push_back_dest, modify, ret, samples_per_frame,
    basic_frame_interlace; simpl.
  destruct v as [| f [| f2 q]]; simpl; try exact Hinv.
  destruct (Nat.ltb (length a) _) eqn:Hlt; simpl; [exact Hinv |].
  rewrite Hlt; simpl.
  apply Nat.ltb_ge in Hlt.
  pose proof (inv_nodup _ _ Hinv) as Hnd. unfold queued in Hnd. simpl in Hnd.
  apply NoDup_cons in Hnd as [Hf Hnd].
  apply NoDup_cons in Hnd as [Hf2 Hnd].
  destruct (inv_queued _ _ Hinv f) as (w & Hw & Hwa).
  { unfold queued. simpl. apply elem_of_cons. by left. }
  destruct (inv_queued _ _ Hinv f2) as (w2 & Hw2 & Hwa2).
  { unfold queued. simpl. rewrite !elem_of_cons. auto. }
  simpl in Hw, Hw2. rewrite Hw. simpl.
  assert (Hne : f <> f2).
  { intros ->. apply Hf, elem_of_cons. by left. }
  eapply (inv_emit _ _ _ [frame_interlaced f f2 _] Hinv); simpl; try done.
  - unfold queued. simpl. by apply sublist_cons, sublist_cons.
  - rewrite length_insert. done.
  - intros x Hx Hor. apply list_lookup_insert_ne. intros ->.
    unfold queued in Hor. simpl in Hor. destruct Hor as [Hor | Hor].
    + apply Hor, elem_of_cons. by left.
    + apply Hf, elem_of_cons. by right.
  - intros b ->%list_elem_of_singleton. simpl.
    rewrite frame_at_insert_eq by (by eapply lookup_lt_Some).
    rewrite frame_at_insert_ne by done.
    rewrite (frame_at_lookup _ _ _ Hw2). simpl.
    rewrite Hwa2, app_nil_r.
    unfold samples_per_frame. simpl. split; [rewrite length_take; lia |].
    intros x. rewrite !elem_of_cons, elem_of_nil, length_insert.
    unfold queued. simpl.
    intros [-> | [-> | []]].
    + split; [by eapply lookup_lt_Some |].
      split; [| left; apply elem_of_cons; by left].
      intros Hq. apply Hf, elem_of_cons. by right.
    + split; [by eapply lookup_lt_Some |].
      split; [done |]. left. rewrite !elem_of_cons. auto.
Qed.

#[local] Arguments Nat.div : simpl never.

Lemma duplicate_preserves dead : preserves (inv dead) duplicate.
Proof.
  intros s Hinv.
  destruct s as [vs aus fb dm fps [fm ffps fh n] am ac vc fl h svc lg].
  pose proof (inv_video _ _ Hinv) as Hv. pose proof (inv_audio _ _ Hinv) as Ha.
  simpl in Hv, Ha.
  destruct vs as [| v vrest]; [done |]. destruct aus as [| a arest]; [done |].
  unfold duplicate, bind, front_video, front_audio, get, pop_video, pop_audio,
    read_frame, new_frame, write_frame_at, push_back_dest, modify, ret,
    samples_per_frame; simpl.
  destruct v as [| f q]; simpl; [exact Hinv |].
  destruct (Nat.ltb (length a `div` 2) n) eqn:Hlt; simpl; [exact Hinv |].
  apply Nat.ltb_ge in Hlt.
  assert (Hlen : 2 * n <= length a).
  { pose proof (Nat.Div0.mul_div_le (length a) 2). lia. }
  pose proof (inv_nodup _ _ Hinv) as Hnd. unfold queued in Hnd. simpl in Hnd.
  apply NoDup_cons in Hnd as [Hf Hnd].
  destruct (inv_queued _ _ Hinv f) as (w & Hw & Hwa).
  { unfold queued. simpl. apply elem_of_cons. by left. }
  simpl in Hw. rewrite Hw. simpl.
  assert (Hf_lt : f < length h) by (by eapply lookup_lt_Some).
  replace (Nat.ltb (length a) n) with false by (symmetry; apply Nat.ltb_ge; lia).
  simpl. rewrite list_lookup_middle by done. simpl.
  replace (Nat.ltb (length (drop n a)) n) with false
    by (symmetry; apply Nat.ltb_ge; rewrite length_drop; lia).
  simpl.
  rewrite list_lookup_insert_ne by lia.
  rewrite lookup_app_l by done. rewrite Hw. simpl.
  eapply (inv_emit _ _ _ [frame_ref (length h); frame_ref f] Hinv); simpl;
    try done.
  - unfold queued. simpl. by apply sublist_cons.
  - by rewrite <- app_assoc.
  - rewrite !length_insert, length_app. lia.
  - intros x Hx Hor.
    rewrite list_lookup_insert_ne.
    + rewrite list_lookup_insert_ne by lia. by apply lookup_app_l.
    + intros ->. unfold queued in Hor. simpl in Hor.
      destruct Hor as [Hor | Hor]; [| done]. apply Hor, elem_of_cons. by left.
  - intros b. rewrite !elem_of_cons, elem_of_nil. unfold samples_per_frame.
    simpl.
    intros [-> | [-> | []]]; simpl.
    + rewrite frame_at_insert_ne by lia.
      rewrite frame_at_insert_eq by (rewrite length_app; simpl; lia).
      simpl. split; [rewrite length_take; lia |].
      intros x ->%list_elem_of_singleton.
      rewrite !length_insert, length_app. simpl. split; [lia |].
      split; [| right; lia]. unfold queued. simpl. intros Hq.
      destruct (inv_queued _ _ Hinv (length h)) as (w' & Hw' & _).
      { unfold queued. simpl. apply elem_of_cons. by right. }
      simpl in Hw'. apply lookup_lt_Some in Hw'. lia.
    + rewrite frame_at_insert_eq
        by (rewrite length_insert, length_app; simpl; lia).
      simpl. split; [rewrite length_take, length_drop; lia |].
      intros x ->%list_elem_of_singleton.
      rewrite !length_insert, length_app. simpl. split; [lia |].
      unfold queued. simpl. split; [done |]. left. apply elem_of_cons. by left.
Qed.

(** ** Truncation *)

Lemma truncated_drop s v v2 vs a a2 aus :
  video_streams_ s = v :: v2 :: vs ->
  audio_streams_ s = a :: a2 :: aus ->
  v = [] \/ a = [] ->
  video_streams_ (truncated s) = v2 :: vs
  /\ audio_streams_ (truncated s) = a2 :: aus
  /\ same_store (set_audio_streams_ (a2 :: aus) (set_video_streams_ (v2 :: vs) s))
                (truncated s)
  /\ same_config s (truncated s)
  /\ same_policy s (truncated s)
  /\ video_frame_count_ (truncated s) = video_frame_count_ s
  /\ audio_sample_count_ (truncated s) = audio_sample_count_ s
  /\ log_ (truncated s)
     = if is_empty v && is_empty a then log_ s
       else log_ s ++ [log_truncating (length v) (length a)].
Proof.
  intros Hv Ha Hor. unfold truncated. rewrite Hv, Ha.
  assert (He : is_empty v || is_empty a = true).
  { destruct Hor as [-> | ->]; simpl; [done | by destruct v]. }
  rewrite He.
  destruct v, a; simpl in *; try done;
    repeat split; done.
Qed.

Lemma truncated_keep s :
  (forall v v2 vs a a2 aus,
     video_streams_ s = v :: v2 :: vs -> audio_streams_ s = a :: a2 :: aus ->
     v <> [] /\ a <> []) ->
  truncated s = s.
Proof.
  intros H. unfold truncated.
  destruct (video_streams_ s) as [| v [| v2 vs]]; try done.
  destruct (audio_streams_ s) as [| a [| a2 aus]]; try done.
  destruct (H v v2 vs a a2 aus eq_refl eq_refl) as [Hv Ha].
  destruct v, a; done.
Qed.

Lemma inv_truncated_drop dead s v v2 vs a a2 aus :
  video_streams_ s = v :: v2 :: vs ->
  audio_streams_ s = a :: a2 :: aus ->
  v = [] \/ a = [] ->
  inv dead s -> inv (v ++ dead) (truncated s).
Proof.
  intros Hv Ha Hor Hinv.
  destruct (truncated_drop s v v2 vs a a2 aus Hv Ha Hor)
    as (Hv' & Ha' & (_ & _ & Hfb & Hfr & Hfd) & _).
  simpl in Hfb, Hfr, Hfd.
  pose proof (inv_nodup _ _ Hinv) as Hnd.
  rewrite (queued_cons s v (v2 :: vs) Hv) in Hnd.
  apply NoDup_app in Hnd as (Hnd1 & Hdisj & Hnd2).
  assert (Hq' : queued (truncated s) = concat (v2 :: vs)).
  { unfold queued. by rewrite Hv'. }
  assert (Hq : forall x, x ∈ queued s <-> x ∈ v \/ x ∈ concat (v2 :: vs)).
  { intros x. rewrite (queued_cons s v (v2 :: vs) Hv). apply elem_of_app. }
  split.
  - by rewrite Hv'.
  - by rewrite Ha'.
  - by rewrite Hq'.
  - intros x. rewrite Hq', Hfr. intros Hx. apply (inv_queued _ _ Hinv).
    apply Hq. by right.
  - intros b. rewrite Hfb, Hfr. unfold samples_per_frame. rewrite Hfd.
    intros Hb. destruct (inv_buffer _ _ Hinv b Hb) as [Hl Haddr].
    split; [done |]. intros x Hx. destruct (Haddr x Hx) as (H1 & H2 & H3).
    split; [done |]. rewrite Hq', elem_of_app. split.
    + intros Hc. apply H2, Hq. by right.
    + intros [Hc | Hc]; [| done]. apply H2, Hq. by left.
  - intros x. rewrite elem_of_app, Hq', Hfr. intros [Hx | Hx].
    + split; [| by apply Hdisj].
      destruct (inv_queued _ _ Hinv x) as (w & Hw & _); [apply Hq; by left |].
      by eapply lookup_lt_Some.
    + destruct (inv_dead _ _ Hinv x Hx) as [H1 H2]. split; [done |].
      intros Hc. apply H2, Hq. by right.
Qed.

Lemma inv_truncated dead s : inv dead s -> inv dead (truncated s).
Proof.
  intros Hinv.
  destruct (video_streams_ s) as [| v [| v2 vs]] eqn:Hv;
    try (unfold truncated; rewrite Hv; done).
  destruct (audio_streams_ s) as [| a [| a2 aus]] eqn:Ha;
    try (unfold truncated; rewrite Hv, Ha; done).
  destruct (is_empty v || is_empty a) eqn:He.
  - apply (inv_weaken (v ++ dead)); [intros x Hx; apply elem_of_app; by right |].
    eapply inv_truncated_drop; [done.. | | done].
    destruct v; [by left |]. destruct a; [by right | done].
  - unfold truncated. rewrite Hv, Ha, He. done.
Qed.

(** ** Preservation of the invariant *)

Section Preserves.
Context (I : implementation -> Prop).

Lemma preserves_ret {A} (a : A) : preserves I (ret a).
Proof. intros s Hs. exact Hs. Qed.

Lemma preserves_get : preserves I get.
Proof. intros s Hs. exact Hs. Qed.

Lemma preserves_throw {A} e : preserves I (@throw A e).
Proof. intros s Hs. exact Hs. Qed.

Lemma preserves_bind {A B} (m : M A) (k : A -> M B) :
  preserves I m -> (forall a, preserves I (k a)) -> preserves I (bind m k).
Proof.
  intros Hm Hk s Hs. unfold bind. specialize (Hm s Hs).
  destruct (m s) as [a s1 | e s1 |]; [| exact Hm | exact Hm].
  apply Hk, Hm.
Qed.

Lemma preserves_modify f : (forall s, I s -> I (f s)) -> preserves I (modify f).
Proof. intros Hf s Hs. apply Hf, Hs. Qed.

Lemma preserves_when b m : preserves I m -> preserves I (when b m).
Proof. destruct b; simpl; [done | intros _; apply preserves_ret]. Qed.

Lemma preserves_for_each {A} (l : list A) body :
  (forall x, preserves I (body x)) -> preserves I (for_each l body).
Proof.
  intros Hb. induction l as [| x l IH]; simpl.
  - apply preserves_ret.
  - apply preserves_bind; [apply Hb | intros _; exact IH].
Qed.
End Preserves.

Ltac preserves_step :=
  lazymatch goal with
  | |- preserves _ (ret _) => apply preserves_ret
  | |- preserves _ get => apply preserves_get
  | |- preserves _ (throw _) => apply preserves_throw
  | |- preserves _ (bind _ _) => apply preserves_bind; [ | intros ? ]
  | |- preserves _ (when _ _) => apply preserves_when
  | |- preserves _ (for_each _ _) => apply preserves_for_each; intros ?
  | |- preserves _ (log _) =>
      apply preserves_modify; intros ?; apply inv_same_store; by repeat split
  | |- preserves _ (modify _) =>
      apply preserves_modify; intros ?; apply inv_same_store; by repeat split
  | |- preserves _ (if ?b then _ else _) => destruct b
  | |- preserves _ (match ?x with _ => _ end) => destruct x
  | |- preserves _ _ => solve [ eauto with preserves ]
  end.

Ltac preserves_auto := repeat preserves_step.

Lemma truncate_preserves dead : preserves (inv dead) truncate.
Proof. intros s Hs. rewrite truncate_eq. by apply inv_truncated. Qed.

Lemma front_video_preserves dead : preserves (inv dead) front_video.
Proof.
  intros s Hs. unfold front_video. pose proof (inv_video _ _ Hs).
  destruct (video_streams_ s); done.
Qed.

Lemma front_audio_preserves dead : preserves (inv dead) front_audio.
Proof.
  intros s Hs. unfold front_audio. pose proof (inv_audio _ _ Hs).
  destruct (audio_streams_ s); done.
Qed.

Create HintDb preserves.
#[global] Hint Resolve truncate_preserves front_video_preserves
  front_audio_preserves simple_preserves duplicate_preserves half_preserves
  interlace_preserves : preserves.

Lemma dispatch_preserves dead : preserves (inv dead) dispatch.
Proof. unfold dispatch. preserves_auto. Qed.

Lemma combine_preserves dead : preserves (inv dead) combine.
Proof.
  pose proof (dispatch_preserves dead). unfold combine. preserves_auto.
Qed.

Lemma put_frames_eq s : put_frames s = combine (truncated s).
Proof. unfold put_frames, bind. by rewrite truncate_eq. Qed.

Lemma put_frames_preserves dead : preserves (inv dead) put_frames.
Proof.
  intros s Hs. rewrite put_frames_eq. by apply combine_preserves, inv_truncated.
Qed.

#[global] Hint Resolve put_frames_preserves : preserves.

(** A new frame without samples joins the newest video segment. *)
Lemma enqueue_preserves dead w (k : M unit) :
  write_frame.audio_data w = [] ->
  preserves (inv dead) k ->
  preserves (inv dead) (do frame <- new_frame w; push_back_video frame;; k).
Proof.
  intros Hw Hk s Hs. unfold bind at 1 2, new_frame, push_back_video. simpl.
  destruct (update_back _ (video_streams_ s)) as [vs' |] eqn:Hu.
  2: { apply update_back_None in Hu. by destruct (inv_video _ _ Hs). }
  apply update_back_Some in Hu as (init & q & Hvs & ->).
  apply Hk. clear Hk k.
  set (n := length (frames_ s)).
  assert (Hq : queued s = concat init ++ q).
  { unfold queued. rewrite Hvs, concat_app. simpl. by rewrite app_nil_r. }
  assert (Hlt : forall a, a ∈ queued s -> a < n).
  { intros a Ha. destruct (inv_queued _ _ Hs a Ha) as (f & Hf & _).
    by eapply lookup_lt_Some. }
  assert (Hq' : concat (init ++ [q ++ [n]]) = queued s ++ [n]).
  { rewrite concat_app. simpl. by rewrite app_nil_r, Hq, !app_assoc. }
  split; simpl; unfold queued; simpl; rewrite ?Hq'.
  - by destruct init.
  - apply (inv_audio _ _ Hs).
  - apply NoDup_app. split; [apply (inv_nodup _ _ Hs) |].
    split; [| apply NoDup_singleton].
    intros a Ha ->%list_elem_of_singleton. apply Hlt in Ha. lia.
  - intros a [Ha | ->%list_elem_of_singleton]%elem_of_app.
    + destruct (inv_queued _ _ Hs a Ha) as (f & Hf & Hfa).
      exists f. split; [| done]. rewrite lookup_app_l; [done |].
      by eapply lookup_lt_Some.
    + exists w. split; [| done]. by apply list_lookup_middle.
  - intros b Hb. destruct (inv_buffer _ _ Hs b Hb) as [Hl Haddr]. split.
    + unfold samples_per_frame in *. simpl.
      rewrite <- Hl. f_equal. apply frame_audio_ext. intros a Ha.
      destruct (Haddr a Ha) as (? & ? & ?). by apply lookup_app_l.
    + intros a Ha. destruct (Haddr a Ha) as (? & ? & ?).
      rewrite length_app. split; [lia |]. split; [| done].
      intros [Hc | ->%list_elem_of_singleton]%elem_of_app; [done |].
      fold n in H. lia.
  - intros a Ha. destruct (inv_dead _ _ Hs a Ha) as [? ?].
    rewrite length_app. split; [lia |].
    intros [Hc | ->%list_elem_of_singleton]%elem_of_app; [done |].
    fold n in H. lia.
Qed.

Lemma fix_field_order_audio m w :
  write_frame.audio_data (fix_field_order m w) = write_frame.audio_data w.
Proof. unfold fix_field_order. destruct (write_frame.get_type w), m; done. Qed.

Lemma increment_preserves dead :
  preserves (inv dead) increment_video_frame_count.
Proof. unfold increment_video_frame_count. preserves_auto. Qed.

Lemma decide_display_mode_preserves dead f :
  preserves (inv dead) (decide_display_mode f).
Proof. unfold decide_display_mode. preserves_auto. Qed.

Lemma filter_execute_preserves dead f : preserves (inv dead) (filter_execute f).
Proof. unfold filter_execute. preserves_auto. Qed.

#[global] Hint Resolve increment_preserves decide_display_mode_preserves
  filter_execute_preserves : preserves.

Lemma push_video_preserves dead f : preserves (inv dead) (push_video f).
Proof.
  destruct f as [f |]; unfold push_video.
  - destruct (AVFrame.data0 f).
    + apply preserves_bind; [apply preserves_get | intros s0].
      apply preserves_bind; [preserves_auto | intros _].
      apply preserves_bind; [preserves_auto | intros filtered].
      apply preserves_for_each. intros av_frame.
      apply preserves_bind; [apply preserves_get | intros s1].
      apply enqueue_preserves; [by rewrite fix_field_order_audio |].
      preserves_auto.
    + apply enqueue_preserves; [done |]. preserves_auto.
  - preserves_auto.
    apply preserves_modify. intros s Hs.
    destruct Hs. split; simpl; unfold queued in *; simpl;
      rewrite ?concat_app, ?app_nil_r; simpl; rewrite ?app_nil_r; try done.
    by destruct (video_streams_ s).
Qed.

Lemma push_back_audio_preserves dead samples :
  preserves (inv dead) (push_back_audio samples).
Proof.
  intros s Hs. unfold push_back_audio.
  destruct (update_back _ (audio_streams_ s)) as [aus' |] eqn:Hu.
  2: { apply update_back_None in Hu. by destruct (inv_audio _ _ Hs). }
  apply update_back_Some in Hu as (init & q & Haus & ->).
  destruct Hs. split; simpl; try done. by destruct init.
Qed.

#[global] Hint Resolve push_back_audio_preserves : preserves.

(** An audio reset marker divides by the samples per frame for its log
    line. *)
Lemma push_audio_reset s :
  push_audio None s
  = if Nat.eqb (samples_per_frame s) 0 then Undefined
    else Ok tt (set_audio_sample_count_ 0%Z
                  (set_audio_streams_ (audio_streams_ s ++ [[]])
                     (set_log_
                        (log_ s ++
                         [log_audio_chunk_count
                            (audio_sample_count_ s
                             / Z.of_nat (samples_per_frame s))%Z])
                        s))).
Proof. unfold push_audio, bind, get. by destruct (Nat.eqb _ _). Qed.

Lemma push_samples_preserves dead samples :
  preserves (inv dead) (push_audio (Some samples)).
Proof. unfold push_audio. preserves_auto. Qed.

(** A push of audio keeps the invariant; the one push without a defined
    result is the reset marker with zero samples per frame. *)
Lemma push_audio_preserves dead a s :
  inv dead s ->
  match push_audio a s with
  | Ok _ s' | Throw _ s' => inv dead s'
  | Undefined => a = None /\ samples_per_frame s = 0
  end.
Proof.
  intros Hs. destruct a as [samples |].
  - pose proof (push_samples_preserves dead samples s Hs) as H.
    by destruct (push_audio (Some samples) s).
  - rewrite push_audio_reset.
    destruct (Nat.eqb_spec (samples_per_frame s) 0); [done |].
    destruct Hs. split; simpl; try done. by destruct (audio_streams_ s).
Qed.

(** [pop] is defined when the output queue holds a frame. *)
Lemma pop_inv dead s b s' : inv dead s -> pop s = Ok b s' -> inv dead s'.
Proof.
  unfold pop. destruct (frame_buffer_ s) as [| b0 rest] eqn:Hfb; [done |].
  intros Hs [= <- <-]. destruct Hs. split; simpl; try done.
  intros b1 Hb1. apply inv_buffer0. rewrite Hfb. apply elem_of_cons. by right.
Qed.

Lemma exec_inv dead c s s' :
  inv dead s -> state_after (exec c s) = Some s' -> inv dead s'.
Proof.
  intros Hs. destruct c as [f | a |]; simpl.
  - pose proof (push_video_preserves dead f s Hs) as H.
    destruct (push_video f s); simpl; [| | done]; by intros [= <-].
  - pose proof (push_audio_preserves dead a s Hs) as H.
    destruct (push_audio a s); simpl; [| | done]; by intros [= <-].
  - unfold bind. destruct (pop s) as [b s1 | e s1 |] eqn:Hp; simpl.
    + intros [= <-]. by eapply pop_inv.
    + unfold pop in Hp. by destruct (frame_buffer_ s).
    + done.
Qed.

Lemma run_inv dead calls : forall s s',
  inv dead s -> run calls s = Some s' -> inv dead s'.
Proof.
  induction calls as [| c calls IH]; intros s s' Hs; simpl.
  - by intros [= <-].
  - destruct (state_after (exec c s)) as [s1 |] eqn:H1; [| done].
    apply IH. by eapply exec_inv.
Qed.

(** ** The configuration *)

#[global] Instance same_config_refl : Reflexive same_config.
Proof. intros s. by repeat split. Qed.

#[global] Instance same_config_trans : Transitive same_config.
Proof.
  intros a b c (? & ? & ? & ?) (? & ? & ? & ?). repeat split; congruence.
Qed.

Lemma same_config_pop_video : keeps same_config pop_video.
Proof. intros s. unfold pop_video. repeat break_inner; by repeat split. Qed.

Lemma same_config_pop_audio : keeps same_config pop_audio.
Proof. intros s. unfold pop_audio. repeat break_inner; by repeat split. Qed.

Lemma same_config_push_back_video a : keeps same_config (push_back_video a).
Proof. intros s. unfold push_back_video. repeat break_inner; by repeat split. Qed.

Lemma same_config_push_back_audio a : keeps same_config (push_back_audio a).
Proof. intros s. unfold push_back_audio. repeat break_inner; by repeat split. Qed.

Lemma same_config_truncate : keeps same_config truncate.
Proof.
  intros s. rewrite truncate_eq. unfold truncated.
  repeat break_inner; by repeat split.
Qed.

#[global] Hint Resolve same_config_pop_video same_config_pop_audio
  same_config_push_back_video same_config_push_back_audio
  same_config_truncate : keeps.

Lemma same_config_put_frames : keeps same_config put_frames.
Proof.
  unfold put_frames, combine, dispatch, simple, duplicate, half, interlace.
  keeps_auto.
Qed.

#[global] Hint Resolve same_config_put_frames : keeps.

Lemma same_config_exec c : keeps same_config (exec c).
Proof.
  destruct c as [[f |] | [a |] |]; simpl;
    unfold push_video, push_audio, decide_display_mode; keeps_auto.
Qed.

Lemma run_same_config calls : forall s s',
  run calls s = Some s' -> same_config s s'.
Proof.
  induction calls as [| c calls IH]; intros s s'; simpl.
  - by intros [= <-].
  - destruct (state_after (exec c s)) as [s1 |] eqn:H1; [| done].
    intros H. etransitivity; [| by apply IH].
    eapply keeps_state_after; [apply same_config_exec | done].
Qed.

(** ** Readiness *)

Lemma last_is_Some {A} (l : list A) : l <> [] -> exists x, last l = Some x.
Proof.
  intros H. destruct (last l) as [x |] eqn:Hl; [by exists x |].
  by apply last_None in Hl.
Qed.

Lemma ready_threshold n len :
  0 < n -> Nat.ltb 1 (len / n) = Nat.leb (2 * n) len.
Proof.
  intros Hn. destruct (Nat.leb (2 * n) len) eqn:Hle.
  - apply Nat.leb_le in Hle. apply Nat.ltb_lt.
    apply (Nat.div_le_lower_bound len n 2); lia.
  - apply Nat.leb_gt in Hle. apply Nat.ltb_ge.
    assert (len / n < 2); [| lia].
    apply Nat.Div0.div_lt_upper_bound. lia.
Qed.

(** ** The emitted frames *)

(** C2: in every state the muxer reaches, under whatever policy, each
    frame in the output queue carries exactly
    [audio_samples_per_frame] samples of the target format; so does the
    frame a [pop] returns. *)
Theorem emitted_audio_length :
  forall in_fps fd am svc calls s,
    run calls (implementation_new in_fps fd am svc) = Some s ->
    (forall b, b ∈ frame_buffer_ s ->
       length (frame_audio (frames_ s) b)
       = video_format_desc.audio_samples_per_frame fd)
    /\ (forall b s', pop s = Ok b s' ->
          length (frame_audio (frames_ s') b)
          = video_format_desc.audio_samples_per_frame fd).
Proof.
  intros in_fps fd am svc calls s Hrun.
  pose proof (run_inv [] calls _ _ (inv_new in_fps fd am svc) Hrun) as Hinv.
  destruct (run_same_config _ _ _ Hrun) as (_ & Hfd & _). simpl in Hfd.
  assert (Hall : forall b, b ∈ frame_buffer_ s ->
            length (frame_audio (frames_ s) b)
            = video_format_desc.audio_samples_per_frame fd).
  { intros b Hb. destruct (inv_buffer _ _ Hinv b Hb) as [Hl _].
    rewrite Hl. unfold samples_per_frame. by rewrite Hfd. }
  split; [exact Hall |].
  intros b s'. unfold pop.
  destruct (frame_buffer_ s) as [| b0 rest] eqn:Hfb; [done |].
  intros [= <- <-]. simpl. apply Hall. apply elem_of_cons. by left.
Qed.

Lemma emitted_audio_length_witness :
  exists s,
    run [call_push_video (Some picture_progressive);
         call_push_audio (Some [1; 2; 3; 4; 5; 6; 7; 8]%Z)]
        (implementation_new 25 format_50p true identity_service) = Some s
    /\ length (frame_audio (frames_ s) (frame_ref 1)) = 4.
Proof.
  eexists. split; [vm_compute; reflexivity |].
  refine (proj1 (emitted_audio_length 25 format_50p true identity_service
                   [call_push_video (Some picture_progressive);
                    call_push_audio (Some [1; 2; 3; 4; 5; 6; 7; 8]%Z)] _ _)
                (frame_ref 1) _).
  - vm_compute. reflexivity.
  - simpl. apply elem_of_cons. by left.
Defined.

(** C10: in every state the muxer reaches both segment lists hold at
    least one segment, and so the element accesses of both pushes, of the
    pump and of [video_ready] and [audio_ready] are on non-empty lists: a
    push of a picture or of samples, the pump and [video_ready] have a
    defined result.  The two operations that divide by the samples per frame, the
    push of an audio reset marker and [audio_ready], have one when that
    number is positive; the reset marker has none exactly when it is
    zero. *)
Theorem segment_lists_never_empty :
  forall in_fps fd am svc calls s,
    run calls (implementation_new in_fps fd am svc) = Some s ->
    video_streams_ s <> [] /\ audio_streams_ s <> []
    /\ (forall f, push_video f s <> Undefined)
    /\ (forall samples, push_audio (Some samples) s <> Undefined)
    /\ (push_audio None s = Undefined <-> samples_per_frame s = 0)
    /\ put_frames s <> Undefined
    /\ video_ready s <> None
    /\ (0 < samples_per_frame s -> audio_ready s <> None).
Proof.
  intros in_fps fd am svc calls s Hrun.
  pose proof (run_inv [] calls _ _ (inv_new in_fps fd am svc) Hrun) as Hinv.
  pose proof (inv_video _ _ Hinv) as Hv. pose proof (inv_audio _ _ Hinv) as Ha.
  split; [done |]. split; [done |].
  split; [| split; [| split; [| split; [| split]]]].
  - intros f Hf. pose proof (push_video_preserves [] f s Hinv) as H.
    by rewrite Hf in H.
  - intros samples Hf.
    pose proof (push_samples_preserves [] samples s Hinv) as H.
    by rewrite Hf in H.
  - rewrite push_audio_reset.
    by destruct (Nat.eqb_spec (samples_per_frame s) 0).
  - intros Hf. pose proof (put_frames_preserves [] s Hinv) as H.
    by rewrite Hf in H.
  - unfold video_ready, video_frames.
    destruct (last_is_Some _ Hv) as [v ->]. done.
  - intros Hn. unfold audio_ready, audio_chunks.
    destruct (last_is_Some _ Ha) as [a ->].
    destruct (Nat.eqb_spec (samples_per_frame s) 0); [lia | done].
Qed.

Lemma segment_lists_never_empty_witness :
  exists s,
    run [call_push_video (Some placeholder); call_push_video None;
         call_push_audio None; call_push_audio (Some [])]
        (implementation_new 25 format_25p true identity_service) = Some s
    /\ video_streams_ s <> [] /\ audio_streams_ s <> [].
Proof.
  eexists. split; [vm_compute; reflexivity |].
  pose proof (segment_lists_never_empty 25 format_25p true identity_service
    [call_push_video (Some placeholder); call_push_video None;
     call_push_audio None; call_push_audio (Some [])] _
    ltac:(vm_compute; reflexivity)) as (Hv & Ha & _).
  split; [exact Hv | exact Ha].
Defined.

(** C9: when, after alignment, the oldest video segment holds a picture
    and the oldest audio segment holds at least one frame's worth of
    samples while the policy is [invalid], the pump throws
    [invalid_operation]; the output queue is as it was. *)
Theorem put_frames_invalid_throws :
  forall s v vs a aus,
    display_mode_ s = display_mode.invalid ->
    video_streams_ (truncated s) = v :: vs -> v <> [] ->
    audio_streams_ (truncated s) = a :: aus ->
    samples_per_frame s <= length a ->
    put_frames s = Throw invalid_operation (truncated s)
    /\ frame_buffer_ (truncated s) = frame_buffer_ s.
Proof.
  intros s v vs a aus Hdm Hv Hne Ha Hlen.
  assert (Hsame : frame_buffer_ (truncated s) = frame_buffer_ s
                  /\ display_mode_ (truncated s) = display_mode_ s
                  /\ format_desc_ (truncated s) = format_desc_ s).
  { unfold truncated. repeat break_inner; done. }
  destruct Hsame as (Hfb & Hdm' & Hfd). split; [| done].
  rewrite put_frames_eq.
  unfold combine, bind, front_video, front_audio, get, dispatch.
  rewrite Hv. destruct v as [| f q]; [done |]. simpl. rewrite Ha.
  unfold samples_per_frame in *. rewrite Hfd.
  replace (Nat.ltb (length a) _) with false by (symmetry; by apply Nat.ltb_ge).
  unfold bind, get. rewrite Hdm', Hdm. done.
Qed.

Lemma put_frames_invalid_throws_witness :
  exists s s',
    run [call_push_video (Some placeholder)]
        (implementation_new 25 format_25p true identity_service) = Some s
    /\ push_audio (Some [1; 2; 3; 4]%Z) s = Throw invalid_operation s'
    /\ put_frames s' = Throw invalid_operation (truncated s')
    /\ frame_buffer_ (truncated s') = frame_buffer_ s'.
Proof.
  eexists. eexists. split; [vm_compute; reflexivity |].
  split; [vm_compute; reflexivity |].
  apply (put_frames_invalid_throws _ [0] [] [1; 2; 3; 4]%Z []).
  - reflexivity.
  - reflexivity.
  - discriminate.
  - reflexivity.
  - vm_compute. lia.
Defined.

(** C6, as the specification words it, fails: with five samples in the
    current segment and four samples per frame the segment holds more than
    one frame's worth of samples, and [audio_ready] answers false. *)
Lemma audio_ready_counterexample :
  exists s,
    run [call_push_audio (Some [1; 2; 3; 4; 5]%Z)]
        (implementation_new 25 format_25p true identity_service) = Some s
    /\ audio_ready_as_specified s = true
    /\ audio_ready s = Some false.
Proof. eexists. split; [vm_compute; reflexivity |]. split; reflexivity. Qed.

(** C6, amended: [video_ready] is true exactly when the newest video
    segment holds more than one picture and there are at least as many
    video segments as audio segments; [audio_ready] is true exactly when
    the newest audio segment holds at least two whole frames' worth of
    samples (its sample count divided by the samples per frame, rounded
    down, exceeds one) and there are at least as many audio segments as
    video segments. *)
Theorem readiness :
  forall s v a,
    last (video_streams_ s) = Some v ->
    last (audio_streams_ s) = Some a ->
    0 < samples_per_frame s ->
    video_ready s = Some (video_ready_as_specified s)
    /\ video_ready_as_specified s
       = Nat.ltb 1 (length v)
         && Nat.leb (length (audio_streams_ s)) (length (video_streams_ s))
    /\ audio_ready s
       = Some (Nat.leb (2 * samples_per_frame s) (length a)
               && Nat.leb (length (video_streams_ s)) (length (audio_streams_ s))).
Proof.
  intros s v a Hv Ha Hn.
  unfold video_ready, video_frames, video_ready_as_specified, audio_ready,
    audio_chunks.
  rewrite Hv, Ha. simpl.
  split; [done |]. split; [done |].
  destruct (Nat.eqb_spec (samples_per_frame s) 0); [lia |].
  by rewrite ready_threshold.
Qed.

Lemma readiness_witness :
  exists s,
    run [call_push_audio (Some [1; 2; 3; 4; 5; 6; 7; 8]%Z)]
        (implementation_new 25 format_25p true identity_service) = Some s
    /\ video_ready s = Some false /\ audio_ready s = Some true.
Proof.
  eexists. split; [vm_compute; reflexivity |].
  destruct (readiness
              (set_audio_sample_count_ 8%Z
                 (set_audio_streams_ [[1; 2; 3; 4; 5; 6; 7; 8]%Z]
                    (implementation_new 25 format_25p true identity_service)))
              [] [1; 2; 3; 4; 5; 6; 7; 8]%Z eq_refl eq_refl
              ltac:(vm_compute; lia)) as (H1 & H2 & H3).
  split; [exact H1 | exact H3].
Defined.

(** ** The decision on a real picture *)

Lemma decide_display_mode_eq f s :
  exists s1,
    decide_display_mode f s = Ok tt s1
    /\ display_mode_ s1 = decided_mode s f
    /\ same_config s s1.
Proof.
  unfold decide_display_mode, decided_mode, bind, get, when, modify, log, ret.
  destruct (auto_mode_ s) eqn:Ham; simpl.
  - destruct (display_mode.eqb _ display_mode.simple && _ && _ && _) eqn:Hov;
      simpl.
    + eexists. split; [reflexivity |]. by repeat split.
    + destruct (display_mode.eqb _ display_mode.deinterlace) eqn:Hd; simpl.
      * eexists. split; [reflexivity |]. by repeat split.
      * destruct (_ || _); simpl; eexists; (split; [reflexivity |]);
          by repeat split.
  - eexists. split; [reflexivity |]. by repeat split.
Qed.

Lemma run_no_real_picture calls : forall s s',
  no_real_picture calls = true ->
  run calls s = Some s' -> display_mode_ s' = display_mode_ s.
Proof.
  induction calls as [| c calls IH]; intros s s'; simpl.
  - by intros _ [= <-].
  - intros [Hc Hcs]%andb_prop.
    destruct (state_after (exec c s)) as [s1 |] eqn:H1; [| done].
    intros H. rewrite (IH _ _ Hcs H).
    apply (exec_policy_other c); [| done]. by destruct (is_real_picture c).
Qed.

Lemma run_policy_decided calls : forall s s',
  display_mode_ s <> display_mode.invalid ->
  run calls s = Some s' -> display_mode_ s' = display_mode_ s.
Proof.
  induction calls as [| c calls IH]; intros s s' Hdm; simpl.
  - by intros [= <-].
  - destruct (state_after (exec c s)) as [s1 |] eqn:H1; [| done].
    intros H. pose proof (exec_policy_decided c s s1 Hdm H1) as H2.
    rewrite (IH s1 s'); [done | by rewrite H2 | done].
Qed.

(** A real picture that arrives while no policy is set sets the policy
    [decided_mode]. *)
Lemma push_real_undecided f s pixels :
  AVFrame.data0 f = Some pixels ->
  display_mode_ s = display_mode.invalid ->
  forall s', state_after (push_video (Some f) s) = Some s' ->
             display_mode_ s' = decided_mode s f.
Proof.
  intros Hd Hdm s'. unfold push_video. rewrite Hd.
  unfold bind at 1. simpl. rewrite Hdm. simpl.
  unfold bind at 1.
  destruct (decide_display_mode_eq f s) as (s1 & -> & Hs1 & _).
  intros H. apply (keeps_state_after same_policy) in H;
    [| apply same_policy_feed].
  unfold same_policy in H. congruence.
Qed.

(** C8: on a muxer with automatic detection, when the first real picture
    is non-progressive, the target mode is non-progressive, the resolver
    answers [simple] and the picture's height differs from the target
    height, the push of that picture leaves the policy
    [deinterlace_bob_reinterlace]. *)
Theorem rescale_override :
  forall in_fps fd svc before s f pixels,
    run before (implementation_new in_fps fd true svc) = Some s ->
    no_real_picture before = true ->
    AVFrame.data0 f = Some pixels ->
    get_display_mode (get_mode f) in_fps (video_format_desc.mode fd)
                     (video_format_desc.fps fd) = display_mode.simple ->
    get_mode f <> video_mode.progressive ->
    video_format_desc.mode fd <> video_mode.progressive ->
    AVFrame.height f <> static_cast_int (video_format_desc.height fd) ->
    exists s',
      state_after (push_video (Some f) s) = Some s'
      /\ display_mode_ s' = display_mode.deinterlace_bob_reinterlace.
Proof.
  intros in_fps fd svc before s f pixels Hrun Hnone Hd Hres Hin Hout Hh.
  pose proof (run_inv [] before _ _ (inv_new in_fps fd true svc) Hrun) as Hinv.
  pose proof (run_no_real_picture _ _ _ Hnone Hrun) as Hdm. simpl in Hdm.
  destruct (run_same_config _ _ _ Hrun) as (Hfps & Hfd & Ham & _).
  simpl in Hfps, Hfd, Ham.
  pose proof (push_video_preserves [] (Some f) s Hinv) as Hdef.
  destruct (state_after (push_video (Some f) s)) as [s' |] eqn:Hs'.
  2: { destruct (push_video (Some f) s); done. }
  exists s'. split; [done |].
  rewrite (push_real_undecided f s pixels Hd Hdm s' Hs').
  unfold decided_mode. rewrite Ham, Hfps, Hfd, Hres. simpl.
  apply video_mode_eqb_neq in Hin, Hout. rewrite Hin, Hout. simpl.
  apply Z.eqb_neq in Hh. by rewrite Hh.
Qed.

Lemma rescale_override_witness :
  exists s',
    state_after
      (push_video (Some picture_upper_small)
         (implementation_new 25 format_25i true bob_service)) = Some s'
    /\ display_mode_ s' = display_mode.deinterlace_bob_reinterlace.
Proof.
  apply (rescale_override 25 format_25i bob_service [] _ picture_upper_small
           [16; 128; 235]%Z).
  - reflexivity.
  - reflexivity.
  - reflexivity.
  - vm_compute. reflexivity.
  - discriminate.
  - discriminate.
  - vm_compute. discriminate.
Defined.

(** C3, as stated, fails: the first real picture (upper field first, at
    twice the target rate) is resolved to [invalid], and the next real
    picture (progressive) changes the policy to [half]. *)
Lemma policy_reassigned_counterexample :
  exists s1 s2,
    run [call_push_video (Some picture_upper)]
        (implementation_new 50 format_25p true identity_service) = Some s1
    /\ run [call_push_video (Some picture_progressive)] s1 = Some s2
    /\ log_ s1 = [log_frame_muxer "invalid"]
    /\ display_mode_ s1 = display_mode.invalid
    /\ display_mode_ s2 = display_mode.half
    /\ display_mode_ s2 <> display_mode_ s1.
Proof.
  eexists. eexists. split; [vm_compute; reflexivity |].
  split; [vm_compute; reflexivity |]. by repeat split.
Qed.

(** C3, amended: calls that are not real pictures never change the
    policy, and once the policy is not [invalid] no call changes it. *)
Theorem policy_fixed_once_valid :
  forall calls s s',
    run calls s = Some s' ->
    (display_mode_ s <> display_mode.invalid ->
     display_mode_ s' = display_mode_ s)
    /\ (no_real_picture calls = true -> display_mode_ s' = display_mode_ s).
Proof.
  intros calls s s' Hrun. split; intros H.
  - by apply (run_policy_decided calls).
  - by apply (run_no_real_picture calls).
Qed.

Lemma policy_fixed_once_valid_witness :
  exists s s',
    run [call_push_video (Some picture_progressive)]
        (implementation_new 50 format_25p true identity_service) = Some s
    /\ run [call_push_video (Some picture_upper); call_push_video None;
            call_push_video (Some picture_upper_small)] s = Some s'
    /\ display_mode_ s = display_mode.half
    /\ display_mode_ s' = display_mode_ s.
Proof.
  eexists. eexists. split; [vm_compute; reflexivity |].
  split; [vm_compute; reflexivity |]. split; [reflexivity |].
  refine (proj1 (policy_fixed_once_valid
                   [call_push_video (Some picture_upper); call_push_video None;
                    call_push_video (Some picture_upper_small)] _ _ _) _).
  - vm_compute. reflexivity.
  - vm_compute. discriminate.
Defined.

(** C4, as stated, fails: two video reset markers in a row leave three
    video segments against one audio segment. *)
Lemma depth_difference_counterexample :
  exists s,
    run [call_push_video None; call_push_video None]
        (implementation_new 25 format_25p true identity_service) = Some s
    /\ length (video_streams_ s) = 3 /\ length (audio_streams_ s) = 1
    /\ (1 < Z.abs (depth_difference s))%Z.
Proof.
  eexists. split; [vm_compute; reflexivity |]. repeat split.
Qed.

(** C4, amended: the video segment count minus the audio segment count
    always equals the number of video reset markers pushed minus the number
    of audio reset markers pushed; the pump removes segments from both
    sides together.  So the difference stays within 1 as long as the
    numbers of reset markers pushed on the two sides differ by at most 1. *)
Theorem depth_difference_counts_resets :
  forall in_fps fd am svc calls s,
    run calls (implementation_new in_fps fd am svc) = Some s ->
    depth_difference s
    = (count_calls is_reset_video calls - count_calls is_reset_audio calls)%Z
    /\ ((Z.abs (count_calls is_reset_video calls
                - count_calls is_reset_audio calls) <= 1)%Z ->
        (Z.abs (depth_difference s) <= 1)%Z).
Proof.
  intros in_fps fd am svc calls s Hrun.
  apply run_depth in Hrun. unfold depth_difference at 2 in Hrun.
  simpl in Hrun. split; lia.
Qed.

Lemma depth_difference_counts_resets_witness :
  exists s,
    run [call_push_video (Some placeholder); call_push_video None;
         call_push_audio None; call_push_audio (Some [])]
        (implementation_new 25 format_25p true identity_service) = Some s
    /\ depth_difference s = 0%Z.
Proof.
  eexists. split; [vm_compute; reflexivity |].
  refine (proj1 (depth_difference_counts_resets 25 format_25p true
                   identity_service
                   [call_push_video (Some placeholder); call_push_video None;
                    call_push_audio None; call_push_audio (Some [])] _ _)).
  vm_compute. reflexivity.
Defined.

(** ** Truncation at a reset boundary *)

Lemma push_video_reset s :
  push_video None s
  = Ok tt (set_video_streams_ (video_streams_ s ++ [[]])
             (set_video_frame_count_ 0%Z
                (set_log_ (log_ s ++ [log_video_frame_count (video_frame_count_ s)])
                          s))).
Proof. reflexivity. Qed.

Lemma run_buffer_avoids dead calls s s' :
  inv dead s -> run calls s = Some s' ->
  forall b x, b ∈ frame_buffer_ s' -> x ∈ frame_addrs b -> x ∉ dead.
Proof.
  intros Hs Hrun b x Hb Hx.
  pose proof (run_inv dead calls s s' Hs Hrun) as Hs'.
  destruct (inv_buffer _ _ Hs' b Hb) as [_ Haddr].
  by destruct (Haddr x Hx) as (_ & _ & ?).
Qed.

(** C5, as stated, fails: one placeholder picture is left in the oldest
    video segment, the oldest audio segment is empty, both sides got a
    reset marker; the pump drops the pair and records the warning, though
    only one side had leftover data. *)
Lemma truncation_warning_counterexample :
  exists s,
    run [call_push_video (Some placeholder); call_push_video None;
         call_push_audio None]
        (implementation_new 25 format_25p true identity_service) = Some s
    /\ video_streams_ s = [[0]; []]
    /\ audio_streams_ s = [[]; []]
    /\ truncate s = Ok tt (truncated s)
    /\ video_streams_ (truncated s) = [[]]
    /\ audio_streams_ (truncated s) = [[]]
    /\ log_ (truncated s) = log_ s ++ [log_truncating 1 0].
Proof.
  eexists. split; [vm_compute; reflexivity |]. by repeat split.
Qed.

(** C5, amended: when the pump finds more than one segment on both sides
    and an empty oldest segment on at least one of them, it drops the
    oldest segment of both sides.  The segments that were next are then
    the oldest; the output queue and the two counters are as before; no
    frame of the dropped video segment is in the output queue then or
    after any later calls, and the dropped samples are gone from the
    state.  The warning is recorded exactly when one of the two dropped
    segments still held data, the other being empty.  A segment is opened
    empty by a reset marker, which sets the counter of its side to
    zero. *)
Theorem truncation_drops_oldest_pair :
  forall in_fps fd am svc before s v v2 vs a a2 aus,
    run before (implementation_new in_fps fd am svc) = Some s ->
    video_streams_ s = v :: v2 :: vs ->
    audio_streams_ s = a :: a2 :: aus ->
    truncate s = Ok tt (truncated s)
    /\ (v = [] \/ a = [] ->
        video_streams_ (truncated s) = v2 :: vs
        /\ audio_streams_ (truncated s) = a2 :: aus
        /\ frame_buffer_ (truncated s) = frame_buffer_ s
        /\ video_frame_count_ (truncated s) = video_frame_count_ s
        /\ audio_sample_count_ (truncated s) = audio_sample_count_ s
        /\ log_ (truncated s)
           = (if is_empty v && is_empty a then log_ s
              else log_ s ++ [log_truncating (length v) (length a)])
        /\ (forall s1 later s2 b x,
              state_after (put_frames s) = Some s1 ->
              run later s1 = Some s2 ->
              b ∈ frame_buffer_ s2 -> x ∈ frame_addrs b -> x ∉ v))
    /\ (forall s0 s1, push_video None s0 = Ok tt s1 ->
          video_streams_ s1 = video_streams_ s0 ++ [[]]
          /\ video_frame_count_ s1 = 0%Z)
    /\ (forall s0 s1, push_audio None s0 = Ok tt s1 ->
          audio_streams_ s1 = audio_streams_ s0 ++ [[]]
          /\ audio_sample_count_ s1 = 0%Z).
Proof.
  intros in_fps fd am svc before s v v2 vs a a2 aus Hrun Hv Ha.
  pose proof (run_inv [] before _ _ (inv_new in_fps fd am svc) Hrun) as Hinv.
  split; [apply truncate_eq |].
  split; [| split].
  - intros Hor.
    destruct (truncated_drop s v v2 vs a a2 aus Hv Ha Hor)
      as (Hv' & Ha' & (_ & _ & Hfb & _) & _ & _ & Hvc & Hac & Hlog).
    simpl in Hfb.
    do 6 (split; [done |]).
    intros s1 later s2 b x Hs1 Hs2 Hb Hx Hxv.
    pose proof (inv_truncated_drop [] s v v2 vs a a2 aus Hv Ha Hor Hinv) as Ht.
    rewrite put_frames_eq in Hs1.
    pose proof (combine_preserves _ _ Ht) as Hc.
    assert (Hinv1 : inv (v ++ []) s1).
    { destruct (combine (truncated s)); simpl in Hs1; [| | done];
        by injection Hs1 as <-. }
    apply (run_buffer_avoids _ _ _ _ Hinv1 Hs2 b x Hb Hx).
    apply elem_of_app. by left.
  - intros s0 s1. rewrite push_video_reset. by intros [= <-].
  - intros s0 s1. rewrite push_audio_reset.
    destruct (Nat.eqb _ _); [done |]. by intros [= <-].
Qed.

Lemma truncation_drops_oldest_pair_witness :
  exists s,
    run [call_push_video (Some placeholder); call_push_video None;
         call_push_audio None]
        (implementation_new 25 format_25p true identity_service) = Some s
    /\ video_streams_ (truncated s) = [[]]
    /\ audio_streams_ (truncated s) = [[]]
    /\ log_ (truncated s) = log_ s ++ [log_truncating 1 0].
Proof.
  eexists. split; [vm_compute; reflexivity |].
  pose proof (truncation_drops_oldest_pair 25 format_25p true identity_service
    [call_push_video (Some placeholder); call_push_video None;
     call_push_audio None] _ [0] [] [] [] [] []
    ltac:(vm_compute; reflexivity) eq_refl eq_refl) as (_ & Hdrop & _).
  destruct (Hdrop (or_intror eq_refl)) as (Hv & Ha & _ & _ & _ & Hlog & _).
  split; [exact Hv |]. split; [exact Ha | exact Hlog].
Defined.

(** ** The duplicate law *)

Lemma fix_field_order_image m w :
  write_frame.image_data (fix_field_order m w) = write_frame.image_data w.
Proof. unfold fix_field_order. destruct (write_frame.get_type w), m; done. Qed.

#[local] Arguments Nat.ltb : simpl never.

Ltac unfold_members :=
  unfold push_audio, filter_execute, for_each, new_frame, push_back_video,
    push_back_audio, increment_video_frame_count, put_frames, truncate,
    combine, front_video, front_audio, dispatch, duplicate, pop_video,
    pop_audio, read_frame, write_frame_at, push_back_dest, when, log, modify,
    bind, get, ret, samples_per_frame.

Lemma bind_ret_tt (m : M unit) s : (m;; ret tt) s = m s.
Proof. unfold bind, ret. by destruct (m s) as [[] ? | |]. Qed.

Lemma first_picture_undecided f pixels s :
  AVFrame.data0 f = Some pixels ->
  display_mode_ s = display_mode.invalid ->
  auto_mode_ s = true ->
  get_display_mode (get_mode f) (in_fps_ s)
                   (video_format_desc.mode (format_desc_ s))
                   (video_format_desc.fps (format_desc_ s))
  = display_mode.duplicate ->
  filter_ s = ffmpeg_filter.pass_through ->
  push_video (Some f) s
  = (do frame <- new_frame
                   (fix_field_order (video_format_desc.mode (format_desc_ s))
                                    (make_write_frame f));
     push_back_video frame;; increment_video_frame_count;; put_frames)
      (set_log_ (log_ s ++ [log_frame_muxer "duplicate"])
                (set_display_mode_ display_mode.duplicate s)).
Proof.
  intros Hd Hdm Ham Hres Hfl.
  unfold push_video. rewrite Hd.
  unfold bind at 1. simpl. rewrite Hdm. simpl.
  unfold bind at 1. unfold decide_display_mode.
  unfold bind at 1. simpl. rewrite Ham.
  unfold bind at 1. unfold bind at 1. simpl. rewrite Hres. simpl.
  unfold bind at 1. unfold filter_execute. unfold bind at 1. simpl.
  rewrite Hfl. simpl. rewrite bind_ret_tt.
  unfold bind at 1. simpl. reflexivity.
Qed.


Lemma first_picture_waits in_fps m ffps h n svc f pixels :
  let fd := video_format_desc.make m ffps h (S n) in
  AVFrame.data0 f = Some pixels ->
  get_display_mode (get_mode f) in_fps m ffps = display_mode.duplicate ->
  push_video (Some f) (implementation_new in_fps fd true svc)
  = Ok tt (waiting in_fps fd svc (fix_field_order m (make_write_frame f))).
Proof.
  intros fd Hd Hres.
  rewrite (first_picture_undecided f pixels); try done.
Qed.

Lemma samples_complete in_fps m ffps h n svc w samples :
  let fd := video_format_desc.make m ffps h (S n) in
  length samples = 2 * S n ->
  push_audio (Some samples) (waiting in_fps fd svc w)
  = Ok tt (make_implementation [[]] [[]] [frame_ref 1; frame_ref 0]
             display_mode.duplicate in_fps fd true
             (size_t_add 0 (Z.of_nat (length samples))) 1%Z
             ffmpeg_filter.pass_through
             [write_frame.set_audio_data (drop (S n) samples) w;
              write_frame.set_audio_data (take (S n) samples) w]
             svc [log_frame_muxer "duplicate"]).
Proof.
  intros fd Hlen.
  assert (H1 : Nat.ltb (length samples) (S n) = false)
    by (apply Nat.ltb_ge; lia).
  assert (H2 : Nat.ltb (length samples / 2) (S n) = false).
  { apply Nat.ltb_ge. replace (length samples) with (S n * 2) by lia.
    rewrite Nat.div_mul; lia. }
  assert (H3 : Nat.ltb (length (drop (S n) samples)) (S n) = false)
    by (apply Nat.ltb_ge; rewrite length_drop; lia).
  assert (Hdrop : take (S n) (drop (S n) samples) = drop (S n) samples).
  { apply take_ge. rewrite length_drop. lia. }
  assert (Hnil : drop (S n) (drop (S n) samples) = []).
  { apply drop_ge. rewrite length_drop. lia. }
  unfold_members. simpl. rewrite H1. simpl. rewrite H2. simpl.
  rewrite H1. simpl. rewrite H3. simpl. rewrite Hdrop, Hnil. reflexivity.
Qed.

Lemma first_picture_emits in_fps m ffps h svc f pixels :
  let fd := video_format_desc.make m ffps h 0 in
  let w := fix_field_order m (make_write_frame f) in
  AVFrame.data0 f = Some pixels ->
  get_display_mode (get_mode f) in_fps m ffps = display_mode.duplicate ->
  push_video (Some f) (implementation_new in_fps fd true svc)
  = Ok tt (make_implementation [[]] [[]] [frame_ref 1; frame_ref 0]
             display_mode.duplicate in_fps fd true 0%Z 1%Z
             ffmpeg_filter.pass_through
             [write_frame.set_audio_data [] w; write_frame.set_audio_data [] w]
             svc [log_frame_muxer "duplicate"]).
Proof.
  intros fd w Hd Hres.
  rewrite (first_picture_undecided f pixels); try done.
Qed.

Lemma no_samples_complete in_fps fd svc w1 w2 :
  let s := make_implementation [[]] [[]] [frame_ref 1; frame_ref 0]
             display_mode.duplicate in_fps fd true 0%Z 1%Z
             ffmpeg_filter.pass_through [w1; w2] svc
             [log_frame_muxer "duplicate"] in
  push_audio (Some []) s = Ok tt s.
Proof. reflexivity. Qed.

(** C7: on a fresh muxer with automatic detection whose resolver answers
    [duplicate], pushing one real picture and then twice the samples per
    frame returns normally both times and leaves exactly two frames in the
    output queue.  The first is a new frame, a copy of the second, at an
    address of its own; both hold the picture's pixels.  The first frame
    carries the first half of the pushed samples, the second frame the
    second half. *)
Theorem duplicate_law :
  forall in_fps fd svc f pixels samples,
    AVFrame.data0 f = Some pixels ->
    get_display_mode (get_mode f) in_fps (video_format_desc.mode fd)
                     (video_format_desc.fps fd) = display_mode.duplicate ->
    length samples = 2 * video_format_desc.audio_samples_per_frame fd ->
    exists s1 s2 copy original,
      push_video (Some f) (implementation_new in_fps fd true svc) = Ok tt s1
      /\ push_audio (Some samples) s1 = Ok tt s2
      /\ display_mode_ s2 = display_mode.duplicate
      /\ frame_buffer_ s2 = [frame_ref 1; frame_ref 0]
      /\ frames_ s2 !! 1 = Some copy /\ frames_ s2 !! 0 = Some original
      /\ write_frame.image_data copy = pixels
      /\ write_frame.image_data original = pixels
      /\ write_frame.set_audio_data [] copy = write_frame.set_audio_data [] original
      /\ write_frame.audio_data copy
         = take (video_format_desc.audio_samples_per_frame fd) samples
      /\ write_frame.audio_data original
         = drop (video_format_desc.audio_samples_per_frame fd) samples
      /\ samples = write_frame.audio_data copy ++ write_frame.audio_data original.
Proof.
  intros in_fps [m ffps h n] svc f pixels samples Hd Hres Hlen. simpl in *.
  set (w := fix_field_order m (make_write_frame f)).
  assert (Himg : write_frame.image_data w = pixels).
  { unfold w. rewrite fix_field_order_image. unfold make_write_frame. simpl.
    by rewrite Hd. }
  destruct n as [| n].
  - destruct samples; [| done].
    eexists. eexists. exists (write_frame.set_audio_data [] w).
    exists (write_frame.set_audio_data [] w).
    split; [by apply (first_picture_emits in_fps m ffps h svc f pixels) |].
    split; [apply no_samples_complete |].
    by repeat split.
  - eexists. eexists.
    exists (write_frame.set_audio_data (take (S n) samples) w).
    exists (write_frame.set_audio_data (drop (S n) samples) w).
    split; [by apply (first_picture_waits in_fps m ffps h n svc f pixels) |].
    split; [by apply samples_complete |].
    repeat split; try done. simpl. symmetry. apply take_drop.
Qed.

Lemma duplicate_law_witness :
  exists s,
    run [call_push_video (Some picture_progressive);
         call_push_audio (Some [1; 2; 3; 4; 5; 6; 7; 8]%Z)]
        (implementation_new 25 format_50p true identity_service) = Some s
    /\ frame_buffer_ s = [frame_ref 1; frame_ref 0]
    /\ write_frame.audio_data (frame_at (frames_ s) 1) = [1; 2; 3; 4]%Z
    /\ write_frame.audio_data (frame_at (frames_ s) 0) = [5; 6; 7; 8]%Z.
Proof.
  destruct (duplicate_law 25 format_50p identity_service picture_progressive
              [16; 128; 235]%Z [1; 2; 3; 4; 5; 6; 7; 8]%Z eq_refl
              ltac:(vm_compute; reflexivity) eq_refl)
    as (s1 & s2 & copy & original & Hv & Ha & _ & Hfb & Hc & Ho & _ & _ & _
        & Hca & Hoa & _).
  exists s2. split.
  - cbv [run exec]. rewrite Hv. cbv [state_after]. rewrite Ha. reflexivity.
  - split; [exact Hfb |]. unfold frame_at. rewrite Hc, Ho.
    split; [exact Hca | exact Hoa].
Defined.

(** ** Further runs *)

(** Interlaced material of another height on an interlaced target: the
    bob filter yields two pictures, which leave as one composite frame. *)
Example reinterlace_run :
  exists s,
    run [call_push_video (Some picture_upper_small);
         call_push_audio (Some [1; 2; 3; 4]%Z)]
        (implementation_new 25 format_25i true bob_service) = Some s
    /\ display_mode_ s = display_mode.deinterlace_bob_reinterlace
    /\ filter_ s = ffmpeg_filter.graph "YADIF=1:-1" [picture_upper_small]
    /\ frame_buffer_ s = [frame_interlaced 0 1 video_mode.upper]
    /\ frame_audio (frames_ s) (frame_interlaced 0 1 video_mode.upper)
       = [1; 2; 3; 4]%Z
    /\ video_streams_ s = [[]] /\ audio_streams_ s = [[]].
Proof. eexists. split; [vm_compute; reflexivity |]. by repeat split. Qed.

(** Half the pictures are thrown away when the source runs at twice the
    target rate. *)
Example half_run :
  exists s,
    run [call_push_video (Some picture_progressive);
         call_push_video (Some picture_progressive);
         call_push_audio (Some [1; 2; 3; 4; 5]%Z)]
        (implementation_new 50 format_25p true identity_service) = Some s
    /\ display_mode_ s = display_mode.half
    /\ frame_buffer_ s = [frame_ref 0]
    /\ video_streams_ s = [[]] /\ audio_streams_ s = [[5%Z]].
Proof. eexists. split; [vm_compute; reflexivity |]. by repeat split. Qed.

(** Without automatic detection the policy is [simple], whatever the
    rates. *)
Example manual_run :
  exists s,
    run [call_push_video (Some picture_upper_small);
         call_push_audio (Some [1; 2; 3; 4]%Z)]
        (implementation_new 60 format_25i false bob_service) = Some s
    /\ display_mode_ s = display_mode.simple
    /\ frame_buffer_ s = [frame_ref 0].
Proof. eexists. split; [vm_compute; reflexivity |]. by repeat split. Qed.

(** * Further properties *)

(** ** Names of the policies *)

(** X1: [print] gives the seven policies that have a combiner seven
    different names; [count] and [invalid] are both printed as
    "invalid", a name none of the seven has. *)
Theorem print_distinguishes_policies :
  forall a b,
    named_policy a = true ->
    display_mode.print a = display_mode.print b -> a = b.
Proof.
  intros a b Ha. destruct a; try discriminate Ha; destruct b; simpl;
    intros H; try reflexivity; discriminate H.
Qed.

Lemma print_distinguishes_policies_witness :
  display_mode.print display_mode.half <> display_mode.print display_mode.count.
Proof.
  intros H.
  discriminate (print_distinguishes_policies display_mode.half
                  display_mode.count eq_refl H).
Defined.

(** ** The policy, the filter and the target *)

#[global] Instance same_policy_and_filter_refl : Reflexive same_policy_and_filter.
Proof. intros s. by split. Qed.

#[global] Instance same_policy_and_filter_trans :
  Transitive same_policy_and_filter.
Proof. intros a b c [? ?] [? ?]. split; congruence. Qed.

Lemma policy_filter_pop_video : keeps same_policy_and_filter pop_video.
Proof. intros s. unfold pop_video. repeat break_inner; by split. Qed.

Lemma policy_filter_pop_audio : keeps same_policy_and_filter pop_audio.
Proof. intros s. unfold pop_audio. repeat break_inner; by split. Qed.

Lemma policy_filter_push_back_video a :
  keeps same_policy_and_filter (push_back_video a).
Proof. intros s. unfold push_back_video. repeat break_inner; by split. Qed.

Lemma policy_filter_push_back_audio a :
  keeps same_policy_and_filter (push_back_audio a).
Proof. intros s. unfold push_back_audio. repeat break_inner; by split. Qed.

Lemma policy_filter_truncate : keeps same_policy_and_filter truncate.
Proof.
  intros s. rewrite truncate_eq. unfold truncated.
  repeat break_inner; by split.
Qed.

Lemma policy_filter_filter_execute f :
  keeps same_policy_and_filter (filter_execute f).
Proof.
  intros s. unfold filter_execute, bind, get, modify, ret.
  destruct (filter_ s) eqn:Hf; simpl; split; simpl; by rewrite ?Hf.
Qed.

#[global] Hint Resolve policy_filter_pop_video policy_filter_pop_audio
  policy_filter_push_back_video policy_filter_push_back_audio
  policy_filter_truncate policy_filter_filter_execute : keeps.

Lemma policy_filter_put_frames : keeps same_policy_and_filter put_frames.
Proof.
  unfold put_frames, combine, dispatch, simple, duplicate, half, interlace.
  keeps_auto.
Qed.

#[global] Hint Resolve policy_filter_put_frames : keeps.

Lemma policy_filter_feed f :
  keeps same_policy_and_filter
    (do filtered <- filter_execute f;
     for_each filtered (fun av_frame =>
       do s <- get;
       do frame <- new_frame
                     (fix_field_order (video_format_desc.mode (format_desc_ s))
                                      (make_write_frame av_frame));
       push_back_video frame;;
       increment_video_frame_count;;
       put_frames)).
Proof. keeps_auto. Qed.

(** What the decision leaves in the state. *)
Lemma decide_display_mode_filter f s :
  exists s1,
    decide_display_mode f s = Ok tt s1
    /\ display_mode_ s1 = decided_mode s f
    /\ filter_description (filter_ s1)
       = match policy_filter (decided_mode s f) with
         | Some d => Some d
         | None => filter_description (filter_ s)
         end
    /\ same_config s s1.
Proof.
  unfold decide_display_mode, decided_mode, bind, get, when, modify, log, ret.
  destruct (auto_mode_ s) eqn:Ham; simpl.
  - destruct (display_mode.eqb _ display_mode.simple && _ && _ && _) eqn:Hov;
      simpl.
    + eexists. split; [reflexivity |]. by repeat split.
    + destruct (get_display_mode _ _ _ _); simpl; eexists;
        (split; [reflexivity |]); by repeat split.
  - eexists. split; [reflexivity |]. by repeat split.
Qed.

(** A call leaves the policy and the kind of filter alone, unless it is a
    real picture that finds no policy set. *)
Lemma exec_policy_filter c s s' :
  state_after (exec c s) = Some s' ->
  same_policy_and_filter s s'
  \/ exists f,
       c = call_push_video (Some f)
       /\ display_mode_ s = display_mode.invalid
       /\ display_mode_ s' = decided_mode s f
       /\ filter_description (filter_ s')
          = match policy_filter (decided_mode s f) with
            | Some d => Some d
            | None => filter_description (filter_ s)
            end.
Proof.
  destruct c as [[f |] | a |]; unfold exec.
  - unfold push_video. destruct (AVFrame.data0 f) eqn:Hd.
    + unfold bind at 1. simpl.
      destruct (display_mode.eqb (display_mode_ s) display_mode.invalid) eqn:He;
        simpl.
      * apply display_mode_eqb_eq in He. unfold bind at 1.
        destruct (decide_display_mode_filter f s) as (s1 & -> & Hm & Hf & _).
        intros H. right. exists f.
        apply (keeps_state_after same_policy_and_filter) in H;
          [| apply policy_filter_feed].
        destruct H as [H1 H2]. repeat split; congruence.
      * unfold bind at 1. simpl. intros H. left.
        apply (keeps_state_after same_policy_and_filter) in H;
          [done | apply policy_filter_feed].
    + intros H. left.
      apply (keeps_state_after same_policy_and_filter) in H; [done |].
      keeps_auto.
  - intros H. left.
    apply (keeps_state_after same_policy_and_filter) in H; [done |].
    unfold push_video. keeps_auto.
  - intros H. left.
    apply (keeps_state_after same_policy_and_filter) in H; [done |].
    destruct a; unfold push_audio; keeps_auto.
  - intros H. left.
    apply (keeps_state_after same_policy_and_filter) in H; [done |].
    keeps_auto.
Qed.

Lemma decided_mode_fits s f :
  policy_fits_target (decided_mode s f)
                     (video_format_desc.mode (format_desc_ s)).
Proof.
  unfold decided_mode. destruct (auto_mode_ s); [| exact I].
  unfold get_display_mode.
  destruct (within_epsilon (in_fps_ s) _);
    [| destruct (within_epsilon (PrimFloat.div (in_fps_ s) 2) _);
       [| destruct (within_epsilon (in_fps_ s) _) ] ];
    destruct (get_mode f), (video_format_desc.mode (format_desc_ s)); simpl;
    try done;
    destruct (Z.eqb _ _); simpl; done.
Qed.

Lemma decided_mode_manual s f :
  auto_mode_ s = false -> decided_mode s f = display_mode.simple.
Proof. unfold decided_mode. by intros ->. Qed.

(** The state of the policy in every reachable state. *)
Lemma run_policy_state calls : forall s s',
  run calls s = Some s' ->
  (filter_description (filter_ s) = policy_filter (display_mode_ s) ->
   filter_description (filter_ s') = policy_filter (display_mode_ s'))
  /\ (policy_fits_target (display_mode_ s)
                         (video_format_desc.mode (format_desc_ s)) ->
      policy_fits_target (display_mode_ s')
                         (video_format_desc.mode (format_desc_ s')))
  /\ (auto_mode_ s = false ->
      display_mode_ s = display_mode.invalid
      \/ display_mode_ s = display_mode.simple ->
      display_mode_ s' = display_mode.invalid
      \/ display_mode_ s' = display_mode.simple).
Proof.
  induction calls as [| c calls IH]; intros s s'; simpl.
  - by intros [= <-].
  - destruct (state_after (exec c s)) as [s1 |] eqn:H1; [| done].
    intros H. destruct (IH _ _ H) as (IH1 & IH2 & IH3).
    pose proof (keeps_state_after same_config _ _ _ (same_config_exec c) H1)
      as (_ & Hfd & Ham & _).
    destruct (exec_policy_filter c s s1 H1)
      as [[Hm Hf] | (f & -> & Hinv & Hm & Hf)].
    + split; [| split].
      * intros H0. apply IH1. by rewrite Hm, Hf.
      * intros H0. apply IH2. by rewrite Hm, Hfd.
      * intros Ha H0. apply IH3; [congruence | by rewrite Hm].
    + split; [| split].
      * intros H0. apply IH1. rewrite Hf, Hm, H0, Hinv.
        by destruct (policy_filter (decided_mode s f)).
      * intros _. apply IH2. rewrite Hm, Hfd. apply decided_mode_fits.
      * intros Ha _. apply IH3; [congruence |].
        right. by rewrite Hm, decided_mode_manual.
Qed.

(** X2: in every state the muxer reaches the filter is the one that
    belongs to the policy: the graph "YADIF=0:-1" under [deinterlace],
    the graph "YADIF=1:-1" under [deinterlace_bob] and
    [deinterlace_bob_reinterlace], the pass-through filter otherwise. *)
Theorem filter_follows_policy :
  forall in_fps fd am svc calls s,
    run calls (implementation_new in_fps fd am svc) = Some s ->
    filter_description (filter_ s) = policy_filter (display_mode_ s).
Proof.
  intros in_fps fd am svc calls s Hrun.
  by apply (run_policy_state calls _ _ Hrun).
Qed.

Lemma filter_follows_policy_witness :
  exists s,
    run [call_push_video (Some picture_upper_small);
         call_push_audio (Some [1; 2; 3; 4]%Z)]
        (implementation_new 25 format_25i true bob_service) = Some s
    /\ filter_description (filter_ s) = Some "YADIF=1:-1".
Proof.
  eexists. split; [vm_compute; reflexivity |].
  apply (filter_follows_policy 25 format_25i true bob_service
           [call_push_video (Some picture_upper_small);
            call_push_audio (Some [1; 2; 3; 4]%Z)]).
  vm_compute. reflexivity.
Defined.

(** X3: in every state the muxer reaches the policy fits the target
    format: [interlace] and [deinterlace_bob_reinterlace] occur only with
    a non-progressive target, [half], [duplicate], [deinterlace] and
    [deinterlace_bob] only with a progressive target, and the policy is
    never [count]. *)
Theorem policy_fits_the_target :
  forall in_fps fd am svc calls s,
    run calls (implementation_new in_fps fd am svc) = Some s ->
    policy_fits_target (display_mode_ s) (video_format_desc.mode fd).
Proof.
  intros in_fps fd am svc calls s Hrun.
  destruct (run_same_config _ _ _ Hrun) as (_ & Hfd & _). simpl in Hfd.
  rewrite <- Hfd. by apply (run_policy_state calls _ _ Hrun).
Qed.

Lemma policy_fits_the_target_witness :
  exists s,
    run [call_push_video (Some picture_progressive)]
        (implementation_new 50 format_25i true identity_service) = Some s
    /\ display_mode_ s = display_mode.interlace
    /\ policy_fits_target (display_mode_ s) video_mode.upper.
Proof.
  eexists. split; [vm_compute; reflexivity |]. split; [reflexivity |].
  apply (policy_fits_the_target 50 format_25i true identity_service
           [call_push_video (Some picture_progressive)]).
  vm_compute. reflexivity.
Defined.

Lemma run_manual_decides calls : forall s s',
  auto_mode_ s = false ->
  display_mode_ s = display_mode.invalid ->
  run calls s = Some s' ->
  no_real_picture calls = false ->
  display_mode_ s' = display_mode.simple.
Proof.
  induction calls as [| c calls IH]; intros s s' Ham Hdm; simpl; [done |].
  destruct (state_after (exec c s)) as [s1 |] eqn:H1; [| done].
  intros Hrun Hreal.
  destruct (is_real_picture c) eqn:Hc; simpl in Hreal.
  - destruct c as [[f |] | |]; simpl in Hc; try done.
    destruct (AVFrame.data0 f) as [pixels |] eqn:Hd; [| done].
    pose proof (push_real_undecided f s pixels Hd Hdm s1 H1) as Hs1.
    rewrite decided_mode_manual in Hs1 by done.
    rewrite (run_policy_decided calls s1 s'); [done | by rewrite Hs1 | done].
  - apply (IH s1 s'); try done.
    + by destruct (keeps_state_after same_config _ _ _ (same_config_exec c) H1)
        as (_ & _ & -> & _).
    + rewrite (exec_policy_other c s s1); done.
Qed.

(** X4: without automatic detection the resolver is never consulted: in
    every reachable state the policy is [invalid] while no real picture
    has been pushed and [simple] from the first real picture on, whatever
    the rates and scan modes, and the filter is the pass-through filter. *)
Theorem manual_mode_is_simple :
  forall in_fps fd svc calls s,
    run calls (implementation_new in_fps fd false svc) = Some s ->
    display_mode_ s
    = (if no_real_picture calls then display_mode.invalid
       else display_mode.simple)
    /\ filter_ s = ffmpeg_filter.pass_through.
Proof.
  intros in_fps fd svc calls s Hrun.
  assert (Hm : display_mode_ s
               = if no_real_picture calls then display_mode.invalid
                 else display_mode.simple).
  { destruct (no_real_picture calls) eqn:Hn.
    - by rewrite (run_no_real_picture calls _ _ Hn Hrun).
    - by apply (run_manual_decides calls
                  (implementation_new in_fps fd false svc) s). }
  split; [done |].
  assert (Hf : filter_description (filter_ s)
               = policy_filter (display_mode_ s))
    by (by apply (run_policy_state calls _ _ Hrun)).
  rewrite Hm in Hf. destruct (filter_ s); [done |].
  by destruct (no_real_picture calls).
Qed.

Lemma manual_mode_is_simple_witness :
  exists s,
    run [call_push_video (Some placeholder);
         call_push_video (Some picture_upper_small)]
        (implementation_new 60 format_25i false bob_service) = Some s
    /\ display_mode_ s = display_mode.simple
    /\ filter_ s = ffmpeg_filter.pass_through.
Proof.
  eexists. split; [vm_compute; reflexivity |].
  apply (manual_mode_is_simple 60 format_25i bob_service
           [call_push_video (Some placeholder);
            call_push_video (Some picture_upper_small)]).
  vm_compute. reflexivity.
Defined.

(** ** Exceptions *)

Lemma quiet_ret {A} (a : A) : quiet (ret a).
Proof. intros s _. exact I. Qed.

Lemma quiet_get : quiet get.
Proof. intros s _. exact I. Qed.

Lemma quiet_modify f : quiet (modify f).
Proof. intros s _. exact I. Qed.

Lemma quiet_undefined {A} : quiet (@undefined A).
Proof. intros s _. exact I. Qed.

Lemma quiet_bind {A B} (m : M A) (k : A -> M B) :
  keeps same_policy m -> quiet m -> (forall a, quiet (k a)) -> quiet (bind m k).
Proof.
  intros Hk Hm Hq s Hs. unfold bind. specialize (Hk s). specialize (Hm s Hs).
  destruct (m s) as [a s1 | e s1 |]; [| done | done].
  apply Hq. unfold same_policy in Hk. by rewrite Hk.
Qed.

Lemma quiet_for_each {A} (l : list A) body :
  (forall x, keeps same_policy (body x)) -> (forall x, quiet (body x)) ->
  quiet (for_each l body).
Proof.
  intros Hk Hq. induction l as [| x l IH]; simpl.
  - apply quiet_ret.
  - apply quiet_bind; [apply Hk | apply Hq | intros _; exact IH].
Qed.

(** A computation that never throws at all. *)
Ltac quiet_prim :=
  let s := fresh "s" in
  intros s _; repeat break_inner; done.

Lemma quiet_front_video : quiet front_video.
Proof. unfold front_video. quiet_prim. Qed.

Lemma quiet_front_audio : quiet front_audio.
Proof. unfold front_audio. quiet_prim. Qed.

Lemma quiet_pop_video : quiet pop_video.
Proof. unfold pop_video. quiet_prim. Qed.

Lemma quiet_pop_audio : quiet pop_audio.
Proof. unfold pop_audio. quiet_prim. Qed.

Lemma quiet_read_frame a : quiet (read_frame a).
Proof. unfold read_frame. quiet_prim. Qed.

Lemma quiet_new_frame w : quiet (new_frame w).
Proof. intros s _. exact I. Qed.

Lemma quiet_write_frame_at a upd : quiet (write_frame_at a upd).
Proof. unfold write_frame_at. quiet_prim. Qed.

Lemma quiet_push_back_video a : quiet (push_back_video a).
Proof. unfold push_back_video. quiet_prim. Qed.

Lemma quiet_push_back_audio a : quiet (push_back_audio a).
Proof. unfold push_back_audio. quiet_prim. Qed.

Lemma quiet_truncate : quiet truncate.
Proof. intros s _. by rewrite truncate_eq. Qed.

Lemma quiet_filter_execute f : quiet (filter_execute f).
Proof.
  intros s _. unfold filter_execute, bind, get, modify, ret.
  by destruct (filter_ s).
Qed.

Create HintDb quiet.
#[global] Hint Resolve quiet_front_video quiet_front_audio quiet_pop_video
  quiet_pop_audio quiet_read_frame quiet_new_frame quiet_write_frame_at
  quiet_push_back_video quiet_push_back_audio quiet_truncate
  quiet_filter_execute : quiet.

Ltac quiet_step :=
  lazymatch goal with
  | |- quiet (ret _) => apply quiet_ret
  | |- quiet get => apply quiet_get
  | |- quiet (modify _) => apply quiet_modify
  | |- quiet undefined => apply quiet_undefined
  | |- quiet (log _) => apply quiet_modify
  | |- quiet (push_back_dest _) => apply quiet_modify
  | |- quiet increment_video_frame_count => apply quiet_modify
  | |- quiet (bind _ _) => apply quiet_bind; [ keeps_auto | | intros ? ]
  | |- quiet (for_each _ _) =>
      apply quiet_for_each; [ intros ?; keeps_auto | intros ? ]
  | |- quiet (if ?b then _ else _) => destruct b
  | |- quiet _ => solve [ eauto with quiet ]
  end.

Ltac quiet_auto := repeat quiet_step.

Lemma quiet_simple : quiet simple.
Proof. unfold simple. quiet_auto. Qed.

Lemma quiet_duplicate : quiet duplicate.
Proof. unfold duplicate. quiet_auto. Qed.

Lemma quiet_half : quiet half.
Proof. unfold half. quiet_auto. Qed.

Lemma quiet_interlace : quiet interlace.
Proof. unfold interlace. quiet_auto. Qed.

Lemma quiet_dispatch : quiet dispatch.
Proof.
  intros s Hs. unfold dispatch, bind, get.
  destruct (display_mode_ s) eqn:Hm; try discriminate Hs;
    first [ apply quiet_simple | apply quiet_duplicate | apply quiet_half
          | apply quiet_interlace ];
    by rewrite Hm.
Qed.

#[global] Hint Resolve quiet_dispatch : quiet.

Lemma quiet_put_frames : quiet put_frames.
Proof. unfold put_frames, combine. quiet_auto. Qed.

#[global] Hint Resolve quiet_put_frames : quiet.

Lemma quiet_feed f :
  quiet
    (do filtered <- filter_execute f;
     for_each filtered (fun av_frame =>
       do s <- get;
       do frame <- new_frame
                     (fix_field_order (video_format_desc.mode (format_desc_ s))
                                      (make_write_frame av_frame));
       push_back_video frame;;
       increment_video_frame_count;;
       put_frames)).
Proof. quiet_auto. Qed.

(** A computation that throws leaves the policy as it found it. *)
Lemma throw_keeps_policy {A} (m : M A) s e s' :
  keeps same_policy m -> m s = Throw e s' ->
  display_mode_ s' = display_mode_ s.
Proof. intros Hk Hm. specialize (Hk s). by rewrite Hm in Hk. Qed.

Lemma quiet_or_unnamed {A} (m : M A) s e s' :
  keeps same_policy m -> quiet m -> m s = Throw e s' ->
  named_policy (display_mode_ s') = false.
Proof.
  intros Hk Hq Hm. rewrite (throw_keeps_policy m s e s' Hk Hm).
  destruct (named_policy (display_mode_ s)) eqn:Hn; [| done].
  specialize (Hq s Hn). by rewrite Hm in Hq.
Qed.

Lemma exec_throw_unnamed c s e s' :
  exec c s = Throw e s' -> named_policy (display_mode_ s') = false.
Proof.
  destruct c as [[f |] | a |]; unfold exec.
  - unfold push_video. destruct (AVFrame.data0 f) eqn:Hd.
    + unfold bind at 1. simpl.
      destruct (display_mode.eqb (display_mode_ s) display_mode.invalid) eqn:He;
        simpl.
      * unfold bind at 1.
        destruct (decide_display_mode_eq f s) as (s1 & -> & _ & _).
        apply quiet_or_unnamed; [apply same_policy_feed | apply quiet_feed].
      * unfold bind at 1. simpl.
        apply quiet_or_unnamed; [apply same_policy_feed | apply quiet_feed].
    + apply quiet_or_unnamed; [apply same_policy_placeholder | quiet_auto].
  - done.
  - apply quiet_or_unnamed; [apply same_policy_push_audio |].
    destruct a; unfold push_audio; quiet_auto.
  - unfold bind, pop. by destruct (frame_buffer_ s).
Qed.

(** X5: the pump's exception is raised only for want of a policy.
    Whenever a call on a reachable state ends in the [invalid_operation]
    that [put_frames] throws for a policy without a combiner, the policy is
    [invalid] before and after the call; so that exception is not raised
    once a real picture has set one of the seven combiners' policies.
    What the filter, the frame factory or a container may throw is not
    part of the model. *)
Theorem throws_only_without_policy :
  forall in_fps fd am svc calls s c s',
    run calls (implementation_new in_fps fd am svc) = Some s ->
    exec c s = Throw invalid_operation s' ->
    display_mode_ s = display_mode.invalid
    /\ display_mode_ s' = display_mode.invalid.
Proof.
  intros in_fps fd am svc calls s c s' Hrun Hthrow.
  assert (Hrun' : run (calls ++ [c]) (implementation_new in_fps fd am svc)
                  = Some s').
  { clear -Hrun Hthrow. revert Hrun.
    generalize (implementation_new in_fps fd am svc).
    induction calls as [| c0 calls IH]; intros s0; simpl.
    - intros [= ->]. by rewrite Hthrow.
    - destruct (state_after (exec c0 s0)); [apply IH | done]. }
  assert (Hs' : display_mode_ s' = display_mode.invalid).
  { pose proof (exec_throw_unnamed c s _ s' Hthrow) as Hn.
    destruct (run_policy_state _ _ _ Hrun') as (_ & Hfit & _).
    specialize (Hfit I).
    destruct (display_mode_ s'); try discriminate Hn; done. }
  split; [| done].
  destruct (display_mode.eqb (display_mode_ s) display_mode.invalid) eqn:He.
  { by apply display_mode_eqb_eq. }
  assert (Hne : display_mode_ s <> display_mode.invalid).
  { intros Heq. apply display_mode_eqb_eq in Heq. congruence. }
  rewrite <- (exec_policy_decided c s s' Hne); [done |]. by rewrite Hthrow.
Qed.

Lemma throws_only_without_policy_witness :
  exists s s',
    run [call_push_video (Some placeholder)]
        (implementation_new 25 format_25p true identity_service) = Some s
    /\ exec (call_push_audio (Some [1; 2; 3; 4]%Z)) s
       = Throw invalid_operation s'
    /\ display_mode_ s' = display_mode.invalid.
Proof.
  eexists. eexists. split; [vm_compute; reflexivity |].
  split; [vm_compute; reflexivity |].
  refine (proj2 (throws_only_without_policy 25 format_25p true
                   identity_service
                   [call_push_video (Some placeholder)] _
                   (call_push_audio (Some [1; 2; 3; 4]%Z)) _ _ _)).
  - vm_compute. reflexivity.
  - vm_compute. reflexivity.
Defined.

(** ** The cadence laws *)

(** The admission of a real picture that the pass-through filter hands
    on. *)
Lemma push_real_decided f pixels s :
  AVFrame.data0 f = Some pixels ->
  display_mode_ s <> display_mode.invalid ->
  filter_ s = ffmpeg_filter.pass_through ->
  push_video (Some f) s
  = (do frame <- new_frame (admitted_frame (format_desc_ s) f);
     push_back_video frame;; increment_video_frame_count;; put_frames) s.
Proof.
  intros Hd Hdm Hfl.
  unfold push_video. rewrite Hd.
  unfold bind at 1. simpl.
  destruct (display_mode.eqb (display_mode_ s) display_mode.invalid) eqn:He.
  { by apply display_mode_eqb_eq in He. }
  simpl. unfold bind at 1. simpl.
  unfold bind at 1. unfold filter_execute. unfold bind at 1. simpl.
  rewrite Hfl. simpl. rewrite bind_ret_tt.
  unfold bind at 1. simpl. reflexivity.
Qed.

Lemma first_picture_plain f pixels s m :
  AVFrame.data0 f = Some pixels ->
  display_mode_ s = display_mode.invalid ->
  filter_ s = ffmpeg_filter.pass_through ->
  decided_mode s f = m ->
  policy_filter m = None ->
  push_video (Some f) s
  = (do frame <- new_frame (admitted_frame (format_desc_ s) f);
     push_back_video frame;; increment_video_frame_count;; put_frames)
      (set_log_ (log_ s ++ [log_frame_muxer (display_mode.print m)])
                (set_display_mode_ m s)).
Proof.
  intros Hd Hdm Hfl Hm Hpf.
  unfold push_video. rewrite Hd.
  unfold bind at 1. simpl. rewrite Hdm. simpl.
  unfold bind at 1.
  unfold decided_mode in Hm.
  unfold decide_display_mode, bind at 1, get. simpl.
  destruct (auto_mode_ s) eqn:Ham.
  - unfold bind at 1 2 3, modify, when. simpl.
    destruct (display_mode.eqb _ display_mode.simple && _ && _ && _) eqn:Hov;
      simpl; subst m; [done |].
    destruct (get_display_mode _ _ _ _) eqn:Hres; try done; simpl;
      unfold bind at 1 2 3; simpl;
      unfold bind at 1; unfold filter_execute; unfold bind at 1; simpl;
      rewrite Hfl; simpl; rewrite bind_ret_tt;
      unfold bind at 1; simpl; reflexivity.
  - subst m. unfold bind at 1 2, modify. simpl.
    unfold bind at 1. unfold filter_execute. unfold bind at 1. simpl.
    rewrite Hfl. simpl. rewrite bind_ret_tt.
    unfold bind at 1. simpl. reflexivity.
Qed.

Ltac unfold_combiners :=
  unfold push_back_video, push_back_audio, new_frame,
    increment_video_frame_count, put_frames, truncate, combine, front_video,
    front_audio, dispatch, simple, duplicate, half, interlace, pop_video,
    pop_audio, read_frame, write_frame_at, push_back_dest,
    basic_frame_interlace, when, log, modify, bind, get, ret,
    samples_per_frame.

Lemma decided_mode_resolved s f m :
  auto_mode_ s = true ->
  get_display_mode (get_mode f) (in_fps_ s)
                   (video_format_desc.mode (format_desc_ s))
                   (video_format_desc.fps (format_desc_ s)) = m ->
  m <> display_mode.simple ->
  decided_mode s f = m.
Proof.
  intros Ham Hres Hm. unfold decided_mode. rewrite Ham, Hres.
  by destruct m.
Qed.

(** The first of two pictures under a policy that combines pictures in
    pairs. *)
Lemma pair_first_picture m in_fps fd svc f pixels :
  m = display_mode.half \/ m = display_mode.interlace ->
  AVFrame.data0 f = Some pixels ->
  get_display_mode (get_mode f) in_fps (video_format_desc.mode fd)
                   (video_format_desc.fps fd) = m ->
  push_video (Some f) (implementation_new in_fps fd true svc)
  = Ok tt (muxing m in_fps fd true svc [[0]] [[]] [] [admitted_frame fd f]
             1%Z 0%Z).
Proof.
  intros Hm Hd Hres.
  rewrite (first_picture_plain f pixels _ m); try done.
  - destruct fd as [om ffps h [| n]];
      destruct Hm as [-> | ->]; reflexivity.
  - apply decided_mode_resolved; try done. by destruct Hm as [-> | ->].
  - by destruct Hm as [-> | ->].
Qed.

(** The second picture, when a frame's worth of samples is not there yet. *)
Lemma pair_second_picture m in_fps om ffps h n svc w1 f pixels :
  let fd := video_format_desc.make om ffps h (S n) in
  m = display_mode.half \/ m = display_mode.interlace ->
  AVFrame.data0 f = Some pixels ->
  push_video (Some f) (muxing m in_fps fd true svc [[0]] [[]] [] [w1] 1%Z 0%Z)
  = Ok tt (muxing m in_fps fd true svc [[0; 1]] [[]] [] [w1; admitted_frame fd f]
             2%Z 0%Z).
Proof.
  intros fd Hm Hd.
  rewrite (push_real_decided f pixels); try done.
  by destruct Hm as [-> | ->].
Qed.

(** The output of a pairing policy for the pictures at 0 and 1. *)
Lemma half_samples_arrive in_fps om ffps h n svc w1 w2 samples :
  let fd := video_format_desc.make om ffps h (S n) in
  length samples = S n ->
  push_audio (Some samples)
    (muxing display_mode.half in_fps fd true svc [[0; 1]] [[]] [] [w1; w2]
            2%Z 0%Z)
  = Ok tt (muxing display_mode.half in_fps fd true svc [[]] [[]] [frame_ref 0]
             [write_frame.set_audio_data samples w1; w2] 2%Z
             (size_t_add 0 (Z.of_nat (length samples)))).
Proof.
  intros fd Hlen.
  assert (H1 : Nat.ltb (length samples) (S n) = false)
    by (apply Nat.ltb_ge; lia).
  assert (Htake : take (S n) samples = samples) by (apply take_ge; lia).
  assert (Hdrop : drop (S n) samples = []) by (apply drop_ge; lia).
  unfold push_audio. unfold_combiners. simpl. rewrite H1. simpl.
  rewrite H1. simpl. rewrite H1. simpl. rewrite Htake, Hdrop. reflexivity.
Qed.

Lemma interlace_samples_arrive in_fps om ffps h n svc w1 w2 samples :
  let fd := video_format_desc.make om ffps h (S n) in
  length samples = S n ->
  push_audio (Some samples)
    (muxing display_mode.interlace in_fps fd true svc [[0; 1]] [[]] []
            [w1; w2] 2%Z 0%Z)
  = Ok tt (muxing display_mode.interlace in_fps fd true svc [[]] [[]]
             [frame_interlaced 0 1 om]
             [write_frame.set_audio_data samples w1; w2] 2%Z
             (size_t_add 0 (Z.of_nat (length samples)))).
Proof.
  intros fd Hlen.
  assert (H1 : Nat.ltb (length samples) (S n) = false)
    by (apply Nat.ltb_ge; lia).
  assert (Htake : take (S n) samples = samples) by (apply take_ge; lia).
  assert (Hdrop : drop (S n) samples = []) by (apply drop_ge; lia).
  unfold push_audio. unfold_combiners. simpl. rewrite H1. simpl.
  rewrite H1. simpl. rewrite H1. simpl. rewrite Htake, Hdrop. reflexivity.
Qed.

Lemma admitted_frame_image fd f pixels :
  AVFrame.data0 f = Some pixels ->
  write_frame.image_data (admitted_frame fd f) = pixels.
Proof.
  intros Hd. unfold admitted_frame. rewrite fix_field_order_image.
  unfold make_write_frame. simpl. by rewrite Hd.
Qed.

Lemma admitted_frame_audio fd f :
  write_frame.audio_data (admitted_frame fd f) = [].
Proof. unfold admitted_frame. by rewrite fix_field_order_audio. Qed.

Lemma half_second_picture_emits in_fps om ffps h svc w1 f pixels :
  let fd := video_format_desc.make om ffps h 0 in
  AVFrame.data0 f = Some pixels ->
  push_video (Some f)
    (muxing display_mode.half in_fps fd true svc [[0]] [[]] [] [w1] 1%Z 0%Z)
  = Ok tt (muxing display_mode.half in_fps fd true svc [[]] [[]] [frame_ref 0]
             [write_frame.set_audio_data [] w1; admitted_frame fd f] 2%Z 0%Z).
Proof.
  intros fd Hd. rewrite (push_real_decided f pixels) by done.
  change (format_desc_ (muxing display_mode.half in_fps fd true svc [[0]]
                               [[]] [] [w1] 1 0)) with fd.
  generalize (admitted_frame fd f). intros w2. reflexivity.
Qed.

Lemma interlace_second_picture_emits in_fps om ffps h svc w1 f pixels :
  let fd := video_format_desc.make om ffps h 0 in
  AVFrame.data0 f = Some pixels ->
  push_video (Some f)
    (muxing display_mode.interlace in_fps fd true svc [[0]] [[]] [] [w1]
            1%Z 0%Z)
  = Ok tt (muxing display_mode.interlace in_fps fd true svc [[]] [[]]
             [frame_interlaced 0 1 om]
             [write_frame.set_audio_data [] w1; admitted_frame fd f] 2%Z 0%Z).
Proof.
  intros fd Hd. rewrite (push_real_decided f pixels) by done.
  change (format_desc_ (muxing display_mode.interlace in_fps fd true svc [[0]]
                               [[]] [] [w1] 1 0)) with fd.
  generalize (admitted_frame fd f). intros w2. reflexivity.
Qed.

Lemma no_samples_arrive m in_fps om ffps h svc out store vc :
  let fd := video_format_desc.make om ffps h 0 in
  let s := muxing m in_fps fd true svc [[]] [[]] out store vc 0%Z in
  push_audio (Some []) s = Ok tt s.
Proof. reflexivity. Qed.

(** X6: the half law.  On a fresh muxer with automatic detection whose
    resolver answers [half], pushing two real pictures and then one
    frame's worth of samples returns normally each time and leaves exactly
    one frame in the output queue: the first picture, carrying the pushed
    samples.  The second picture has left its segment and is in no output
    frame. *)
Theorem half_law :
  forall in_fps fd svc f1 f2 pixels1 pixels2 samples,
    AVFrame.data0 f1 = Some pixels1 ->
    AVFrame.data0 f2 = Some pixels2 ->
    get_display_mode (get_mode f1) in_fps (video_format_desc.mode fd)
                     (video_format_desc.fps fd) = display_mode.half ->
    length samples = video_format_desc.audio_samples_per_frame fd ->
    exists s1 s2 s3 first,
      push_video (Some f1) (implementation_new in_fps fd true svc) = Ok tt s1
      /\ push_video (Some f2) s1 = Ok tt s2
      /\ push_audio (Some samples) s2 = Ok tt s3
      /\ frame_buffer_ s3 = [frame_ref 0]
      /\ video_streams_ s3 = [[]]
      /\ audio_streams_ s3 = [[]]
      /\ frames_ s3 !! 0 = Some first
      /\ write_frame.image_data first = pixels1
      /\ write_frame.audio_data first = samples.
Proof.
  intros in_fps fd svc f1 f2 pixels1 pixels2 samples Hd1 Hd2 Hres Hlen.
  pose proof (pair_first_picture display_mode.half in_fps fd svc f1 pixels1
                (or_introl eq_refl) Hd1 Hres) as H1.
  pose proof (admitted_frame_image fd f1 pixels1 Hd1) as Himg.
  destruct fd as [om ffps h [| n]]; simpl in Hlen.
  - destruct samples; [| done].
    set (fd := video_format_desc.make om ffps h 0) in *.
    eexists. eexists. eexists.
    exists (write_frame.set_audio_data [] (admitted_frame fd f1)).
    split; [exact H1 |].
    split; [by apply (half_second_picture_emits _ _ _ _ _ _ f2 pixels2) |].
    split; [apply no_samples_arrive |]. by repeat split.
  - set (fd := video_format_desc.make om ffps h (S n)) in *.
    eexists. eexists. eexists.
    exists (write_frame.set_audio_data samples (admitted_frame fd f1)).
    split; [exact H1 |].
    split; [by apply (pair_second_picture display_mode.half _ _ _ _ _ _ _ f2
                        pixels2 (or_introl eq_refl)) |].
    split; [by apply half_samples_arrive |]. by repeat split.
Qed.

Lemma half_law_witness :
  exists s,
    run [call_push_video (Some picture_progressive);
         call_push_video (Some picture_upper);
         call_push_audio (Some [1; 2; 3; 4]%Z)]
        (implementation_new 50 format_25p true identity_service) = Some s
    /\ frame_buffer_ s = [frame_ref 0]
    /\ write_frame.audio_data (frame_at (frames_ s) 0) = [1; 2; 3; 4]%Z.
Proof.
  destruct (half_law 50 format_25p identity_service picture_progressive
              picture_upper [16; 128; 235]%Z [16; 128; 235]%Z
              [1; 2; 3; 4]%Z eq_refl eq_refl ltac:(vm_compute; reflexivity)
              eq_refl)
    as (s1 & s2 & s3 & first & H1 & H2 & H3 & Hfb & _ & _ & Hf & _ & Ha).
  exists s3. split.
  - cbv [run exec]. rewrite H1. cbv [state_after]. rewrite H2, H3.
    reflexivity.
  - split; [exact Hfb |]. unfold frame_at. rewrite Hf. exact Ha.
Defined.

(** X7: the interlace law.  On a fresh muxer with automatic detection
    whose resolver answers [interlace], pushing two real pictures and then
    one frame's worth of samples returns normally each time and leaves
    exactly one frame in the output queue: the composite of the two
    pictures, in the order they were pushed, with the target's field
    order; the pushed samples are attached to the first picture and none
    to the second. *)
Theorem interlace_law :
  forall in_fps fd svc f1 f2 pixels1 pixels2 samples,
    AVFrame.data0 f1 = Some pixels1 ->
    AVFrame.data0 f2 = Some pixels2 ->
    get_display_mode (get_mode f1) in_fps (video_format_desc.mode fd)
                     (video_format_desc.fps fd) = display_mode.interlace ->
    length samples = video_format_desc.audio_samples_per_frame fd ->
    exists s1 s2 s3 first second,
      push_video (Some f1) (implementation_new in_fps fd true svc) = Ok tt s1
      /\ push_video (Some f2) s1 = Ok tt s2
      /\ push_audio (Some samples) s2 = Ok tt s3
      /\ frame_buffer_ s3
         = [frame_interlaced 0 1 (video_format_desc.mode fd)]
      /\ video_format_desc.mode fd <> video_mode.progressive
      /\ video_streams_ s3 = [[]]
      /\ audio_streams_ s3 = [[]]
      /\ frames_ s3 !! 0 = Some first /\ frames_ s3 !! 1 = Some second
      /\ write_frame.image_data first = pixels1
      /\ write_frame.image_data second = pixels2
      /\ write_frame.audio_data first = samples
      /\ write_frame.audio_data second = [].
Proof.
  intros in_fps fd svc f1 f2 pixels1 pixels2 samples Hd1 Hd2 Hres Hlen.
  pose proof (pair_first_picture display_mode.interlace in_fps fd svc f1
                pixels1 (or_intror eq_refl) Hd1 Hres) as H1.
  pose proof (admitted_frame_image fd f1 pixels1 Hd1) as Himg1.
  pose proof (admitted_frame_image fd f2 pixels2 Hd2) as Himg2.
  pose proof (admitted_frame_audio fd f2) as Haud2.
  assert (Hom : video_format_desc.mode fd <> video_mode.progressive).
  { intros Hp. revert Hres. unfold get_display_mode. rewrite Hp.
    repeat break_inner; done. }
  destruct fd as [om ffps h [| n]]; simpl in Hlen.
  - destruct samples; [| done].
    set (fd := video_format_desc.make om ffps h 0) in *.
    eexists. eexists. eexists.
    exists (write_frame.set_audio_data [] (admitted_frame fd f1)).
    exists (admitted_frame fd f2).
    split; [exact H1 |].
    split; [by apply (interlace_second_picture_emits _ _ _ _ _ _ f2 pixels2) |].
    split; [apply no_samples_arrive |]. by repeat split.
  - set (fd := video_format_desc.make om ffps h (S n)) in *.
    eexists. eexists. eexists.
    exists (write_frame.set_audio_data samples (admitted_frame fd f1)).
    exists (admitted_frame fd f2).
    split; [exact H1 |].
    split; [by apply (pair_second_picture display_mode.interlace _ _ _ _ _ _ _
                        f2 pixels2 (or_intror eq_refl)) |].
    split; [by apply interlace_samples_arrive |]. by repeat split.
Qed.

Lemma interlace_law_witness :
  exists s,
    run [call_push_video (Some picture_progressive);
         call_push_video (Some picture_progressive);
         call_push_audio (Some [1; 2; 3; 4]%Z)]
        (implementation_new 50 format_25i true identity_service) = Some s
    /\ frame_buffer_ s = [frame_interlaced 0 1 video_mode.upper]
    /\ frame_audio (frames_ s) (frame_interlaced 0 1 video_mode.upper)
       = [1; 2; 3; 4]%Z.
Proof.
  destruct (interlace_law 50 format_25i identity_service picture_progressive
              picture_progressive [16; 128; 235]%Z [16; 128; 235]%Z
              [1; 2; 3; 4]%Z eq_refl eq_refl ltac:(vm_compute; reflexivity)
              eq_refl)
    as (s1 & s2 & s3 & first & second & H1 & H2 & H3 & Hfb & _ & _ & _ & Hf
        & Hs & _ & _ & Ha & Hb).
  exists s3. split.
  - cbv [run exec]. rewrite H1. cbv [state_after]. rewrite H2, H3.
    reflexivity.
  - split; [exact Hfb |]. unfold frame_audio, frame_at. rewrite Hf, Hs.
    simpl. rewrite Ha, Hb. reflexivity.
Defined.

(** ** The output queue *)

(** As [keeps_auto], with [tac] for the facts about single assignments. *)
Ltac keeps_leaf_with tac :=
  first
    [ apply keeps_front_video | apply keeps_front_audio
    | apply keeps_new_frame | apply keeps_read_frame
    | apply keeps_write_frame_at | apply keeps_push_back_dest
    | apply keeps_pop | apply keeps_log
    | apply keeps_increment_video_frame_count
    | apply keeps_filter_execute
    | apply keeps_modify ];
  solve [ apply _ | intros; tac ].

Ltac keeps_auto_with tac := repeat first [ keeps_step | keeps_leaf_with tac ].

Ltac appends_goal := by unfold appends.

#[global] Instance appends_refl : Reflexive appends.
Proof. intros s. unfold appends. reflexivity. Qed.

#[global] Instance appends_trans : Transitive appends.
Proof. intros a b c. unfold appends. apply transitivity. Qed.

Lemma appends_pop_video : keeps appends pop_video.
Proof. intros s. unfold pop_video. repeat break_inner; by unfold appends. Qed.

Lemma appends_pop_audio : keeps appends pop_audio.
Proof. intros s. unfold pop_audio. repeat break_inner; by unfold appends. Qed.

Lemma appends_push_back_video a : keeps appends (push_back_video a).
Proof. intros s. unfold push_back_video. repeat break_inner; by unfold appends. Qed.

Lemma appends_push_back_audio a : keeps appends (push_back_audio a).
Proof. intros s. unfold push_back_audio. repeat break_inner; by unfold appends. Qed.

Lemma appends_truncate : keeps appends truncate.
Proof.
  intros s. rewrite truncate_eq. unfold truncated.
  repeat break_inner; by unfold appends.
Qed.

Lemma appends_push_back_dest b : keeps appends (push_back_dest b).
Proof. intros s. unfold appends. simpl. by apply prefix_app_r. Qed.

#[global] Hint Resolve appends_pop_video appends_pop_audio
  appends_push_back_video appends_push_back_audio appends_truncate
  appends_push_back_dest : keeps.

Lemma appends_put_frames : keeps appends put_frames.
Proof.
  unfold put_frames, combine, dispatch, simple, duplicate, half, interlace.
  keeps_auto_with appends_goal.
Qed.

#[global] Hint Resolve appends_put_frames : keeps.

Lemma appends_push_video f : keeps appends (push_video f).
Proof.
  destruct f as [f |]; unfold push_video, decide_display_mode;
    keeps_auto_with appends_goal.
Qed.

Lemma appends_push_audio a : keeps appends (push_audio a).
Proof. destruct a; unfold push_audio; keeps_auto_with appends_goal. Qed.

(** X8: the output queue is first in, first out.  A push never removes
    or reorders frames of the output queue, it only appends to it, also
    when it throws; [pop] returns the frame at the head and leaves the
    rest, and has no defined result on an empty queue. *)
Theorem output_queue_fifo :
  forall c s s',
    state_after (exec c s) = Some s' ->
    if is_pop c
    then exists b, pop s = Ok b s'
                   /\ frame_buffer_ s = b :: frame_buffer_ s'
                   /\ size s = S (size s') /\ empty s = false
    else exists out, frame_buffer_ s' = frame_buffer_ s ++ out.
Proof.
  intros c s s'. destruct c as [f | a |]; simpl.
  - intros H. apply (keeps_state_after appends) in H;
      [exact H | apply appends_push_video].
  - intros H. apply (keeps_state_after appends) in H;
      [exact H | apply appends_push_audio].
  - unfold bind. destruct (pop s) as [b s1 | e s1 |] eqn:Hp; simpl; try done.
    2: { unfold pop in Hp. by destruct (frame_buffer_ s). }
    intros [= <-]. exists b. split; [done |].
    unfold pop in Hp. unfold empty, size.
    destruct (frame_buffer_ s) as [| b0 rest] eqn:Hfb; [done |].
    by injection Hp as <- <-.
Qed.

Lemma output_queue_fifo_witness :
  exists s s' b,
    run [call_push_video (Some picture_progressive);
         call_push_audio (Some [1; 2; 3; 4; 5; 6; 7; 8]%Z)]
        (implementation_new 25 format_50p true identity_service) = Some s
    /\ pop s = Ok b s'
    /\ frame_buffer_ s = b :: frame_buffer_ s'.
Proof.
  eexists. eexists. eexists. split; [vm_compute; reflexivity |].
  split; [vm_compute; reflexivity |].
  match goal with
  | |- frame_buffer_ ?s = _ :: frame_buffer_ ?s' =>
      destruct (output_queue_fifo call_pop s s' eq_refl)
        as (b' & Hpop & Hfb & _)
  end.
  vm_compute in Hpop. injection Hpop as <-. exact Hfb.
Defined.

(** ** What the combiners do to the store and to the samples *)

#[global] Instance untouched_refl : Reflexive untouched.
Proof. intros s. split; [done |]. split; [by left | done]. Qed.

#[global] Instance untouched_trans : Transitive untouched.
Proof.
  intros s1 s2 s3 (Hl1 & Hq1 & Hf1) (Hl2 & Hq2 & Hf2).
  split; [lia |]. split.
  - intros a Ha. destruct (Hq2 a Ha) as [Hin | Hge]; [| right; lia].
    by apply Hq1.
  - intros a Ha Hnq. rewrite Hf2; [by apply Hf1 | lia |].
    intros Hin. destruct (Hq1 a Hin) as [? | ?]; [done | lia].
Qed.

Lemma combined_refl s : combined s s.
Proof.
  split; [reflexivity |]. split; [done |]. split; [done |].
  exists []. split; [by rewrite app_nil_r | done].
Qed.

Lemma combined_intro s s' out moved rest arest :
  length (frames_ s) <= length (frames_ s') ->
  (forall a, a ∈ queued s' -> a ∈ queued s) ->
  (forall a, a < length (frames_ s) -> a ∉ queued s ->
             frames_ s' !! a = frames_ s !! a) ->
  format_desc_ s' = format_desc_ s ->
  audio_streams_ s = (moved ++ rest) :: arest ->
  audio_streams_ s' = rest :: arest ->
  frame_buffer_ s' = frame_buffer_ s ++ out ->
  attached_samples (frames_ s') out = moved ->
  combined s s'.
Proof.
  intros Hl Hq Hf Hfd Ha Ha' Hfb Hm.
  split; [split; [done |]; split; [intros a Hin; left; by apply Hq | done] |].
  split; [done |]. split; [by rewrite Ha, Ha' |].
  exists out. split; [done |]. rewrite Ha, Ha', Hm. simpl. by rewrite app_assoc.
Qed.

Lemma simple_combined dead s :
  inv dead s -> exists s', simple s = Ok tt s' /\ combined s s'.
Proof.
  intros Hinv.
  destruct s as [vs aus fb dm fps [om ffps hh n] am ac vc fl h svc lg].
  pose proof (inv_video _ _ Hinv) as Hv. pose proof (inv_audio _ _ Hinv) as Ha.
  simpl in Hv, Ha.
  destruct vs as [| v vrest]; [done |]. destruct aus as [| a arest]; [done |].
  unfold simple, bind, front_video, front_audio, get, pop_video, pop_audio,
    write_frame_at, push_back_dest, modify, ret, samples_per_frame; simpl.
  destruct v as [| f q]; simpl; [eexists; split; [done | apply combined_refl] |].
  destruct (Nat.ltb (length a) n) eqn:Hlt; simpl;
    [eexists; split; [done | apply combined_refl] |].
  rewrite Hlt; simpl. apply Nat.ltb_ge in Hlt.
  destruct (inv_queued _ _ Hinv f) as (w & Hw & Hwa).
  { unfold queued. simpl. apply elem_of_cons. by left. }
  simpl in Hw. rewrite Hw. simpl.
  eexists. split; [reflexivity |].
  apply (combined_intro _ _ [frame_ref f] (take n a) (drop n a) arest);
    simpl; try done.
  - by rewrite length_insert.
  - unfold queued. simpl. intros x Hx. apply elem_of_cons. by right.
  - intros x Hx Hnq. apply list_lookup_insert_ne. intros ->.
    apply Hnq. unfold queued. simpl. apply elem_of_cons. by left.
  - by rewrite take_drop.
  - unfold attached_samples. simpl.
    rewrite frame_at_insert_eq by (by eapply lookup_lt_Some).
    simpl. by rewrite app_nil_r.
Qed.

Lemma half_combined dead s :
  inv dead s -> exists s', half s = Ok tt s' /\ combined s s'.
Proof.
  intros Hinv.
  destruct s as [vs aus fb dm fps [om ffps hh n] am ac vc fl h svc lg].
  pose proof (inv_video _ _ Hinv) as Hv. pose proof (inv_audio _ _ Hinv) as Ha.
  simpl in Hv, Ha.
  destruct vs as [| v vrest]; [done |]. destruct aus as [| a arest]; [done |].
  unfold half, bind, front_video, front_audio, get, pop_video, pop_audio,
    write_frame_at, push_back_dest, modify, ret, samples_per_frame; simpl.
  destruct v as [| f [| f2 q]]; simpl;
    try (eexists; split; [done | apply combined_refl]).
  destruct (Nat.ltb (length a) n) eqn:Hlt; simpl;
    [eexists; split; [done | apply combined_refl] |].
  rewrite Hlt; simpl. apply Nat.ltb_ge in Hlt.
  destruct (inv_queued _ _ Hinv f) as (w & Hw & Hwa).
  { unfold queued. simpl. apply elem_of_cons. by left. }
  simpl in Hw. rewrite Hw. simpl.
  eexists. split; [reflexivity |].
  apply (combined_intro _ _ [frame_ref f] (take n a) (drop n a) arest);
    simpl; try done.
  - by rewrite length_insert.
  - unfold queued. simpl. intros x Hx. rewrite !elem_of_cons. auto.
  - intros x Hx Hnq. apply list_lookup_insert_ne. intros ->.
    apply Hnq. unfold queued. simpl. apply elem_of_cons. by left.
  - by rewrite take_drop.
  - unfold attached_samples. simpl.
    rewrite frame_at_insert_eq by (by eapply lookup_lt_Some).
    simpl. by rewrite app_nil_r.
Qed.

Lemma interlace_combined dead s :
  inv dead s -> exists s', interlace s = Ok tt s' /\ combined s s'.
Proof.
  intros Hinv.
  destruct s as [vs aus fb dm fps [om ffps hh n] am ac vc fl h svc lg].
  pose proof (inv_video _ _ Hinv) as Hv. pose proof (inv_audio _ _ Hinv) as Ha.
  simpl in Hv, Ha.
  destruct vs as [| v vrest]; [done |]. destruct aus as [| a arest]; [done |].
  unfold interlace, bind, front_video, front_audio, get, pop_video, pop_audio,
    write_frame_at, push_back_dest, modify, ret, samples_per_frame,
    basic_frame_interlace; simpl.
  destruct v as [| f [| f2 q]]; simpl;
    try (eexists; split; [done | apply combined_refl]).
  destruct (Nat.ltb (length a) n) eqn:Hlt; simpl;
    [eexists; split; [done | apply combined_refl] |].
  rewrite Hlt; simpl. apply Nat.ltb_ge in Hlt.
  pose proof (inv_nodup _ _ Hinv) as Hnd. unfold queued in Hnd. simpl in Hnd.
  apply NoDup_cons in Hnd as [Hf Hnd].
  destruct (inv_queued _ _ Hinv f) as (w & Hw & Hwa).
  { unfold queued. simpl. apply elem_of_cons. by left. }
  destruct (inv_queued _ _ Hinv f2) as (w2 & Hw2 & Hwa2).
  { unfold queued. simpl. rewrite !elem_of_cons. auto. }
  simpl in Hw, Hw2. rewrite Hw. simpl.
  assert (Hne : f <> f2).
  { intros ->. apply Hf, elem_of_cons. by left. }
  eexists. split; [reflexivity |].
  apply (combined_intro _ _ [frame_interlaced f f2 om] (take n a) (drop n a)
           arest); simpl; try done.
  - by rewrite length_insert.
  - unfold queued. simpl. intros x Hx. rewrite !elem_of_cons. auto.
  - intros x Hx Hnq. apply list_lookup_insert_ne. intros ->.
    apply Hnq. unfold queued. simpl. apply elem_of_cons. by left.
  - by rewrite take_drop.
  - unfold attached_samples. simpl.
    rewrite frame_at_insert_eq by (by eapply lookup_lt_Some).
    rewrite frame_at_insert_ne by done.
    rewrite (frame_at_lookup _ _ _ Hw2). simpl.
    by rewrite Hwa2, !app_nil_r.
Qed.

Lemma duplicate_combined dead s :
  inv dead s -> exists s', duplicate s = Ok tt s' /\ combined s s'.
Proof.
  intros Hinv.
  destruct s as [vs aus fb dm fps [fm ffps fh n] am ac vc fl h svc lg].
  pose proof (inv_video _ _ Hinv) as Hv. pose proof (inv_audio _ _ Hinv) as Ha.
  simpl in Hv, Ha.
  destruct vs as [| v vrest]; [done |]. destruct aus as [| a arest]; [done |].
  unfold duplicate, bind, front_video, front_audio, get, pop_video, pop_audio,
    read_frame, new_frame, write_frame_at, push_back_dest, modify, ret,
    samples_per_frame; simpl.
  destruct v as [| f q]; simpl; [eexists; split; [done | apply combined_refl] |].
  destruct (Nat.ltb (length a `div` 2) n) eqn:Hlt; simpl;
    [eexists; split; [done | apply combined_refl] |].
  apply Nat.ltb_ge in Hlt.
  assert (Hlen : 2 * n <= length a).
  { pose proof (Nat.Div0.mul_div_le (length a) 2). lia. }
  destruct (inv_queued _ _ Hinv f) as (w & Hw & Hwa).
  { unfold queued. simpl. apply elem_of_cons. by left. }
  simpl in Hw. rewrite Hw. simpl.
  assert (Hf_lt : f < length h) by (by eapply lookup_lt_Some).
  replace (Nat.ltb (length a) n) with false by (symmetry; apply Nat.ltb_ge; lia).
  simpl. rewrite list_lookup_middle by done. simpl.
  replace (Nat.ltb (length (drop n a)) n) with false
    by (symmetry; apply Nat.ltb_ge; rewrite length_drop; lia).
  simpl.
  rewrite list_lookup_insert_ne by lia.
  rewrite lookup_app_l by done. rewrite Hw. simpl.
  eexists. split; [reflexivity |].
  apply (combined_intro _ _ [frame_ref (length h); frame_ref f]
           (take n a ++ take n (drop n a)) (drop n (drop n a)) arest);
    simpl; try done.
  - rewrite !length_insert, length_app. lia.
  - unfold queued. simpl. intros x Hx. apply elem_of_cons. by right.
  - intros x Hx Hnq. rewrite list_lookup_insert_ne.
    + rewrite list_lookup_insert_ne by lia. by apply lookup_app_l.
    + intros ->. apply Hnq. unfold queued. simpl. apply elem_of_cons. by left.
  - by rewrite <- app_assoc, !take_drop.
  - by rewrite <- app_assoc.
  - unfold attached_samples. simpl.
    rewrite frame_at_insert_ne by lia.
    rewrite frame_at_insert_eq by (rewrite length_app; simpl; lia).
    rewrite frame_at_insert_eq
      by (rewrite length_insert, length_app; simpl; lia).
    simpl. by rewrite app_nil_r.
Qed.

(** ** Frames that were emitted *)

Section Advances.
Context (dead : list addr) (R : relation implementation).
Context (R_refl : Reflexive R) (R_trans : Transitive R).

Lemma advances_intro {A} (m : M A) :
  preserves (inv dead) m -> keeps R m -> advances dead R m.
Proof.
  intros Hp Hk s Hs. specialize (Hp s Hs). specialize (Hk s).
  destruct (m s); done.
Qed.

Lemma advances_ret {A} (a : A) : advances dead R (ret a).
Proof. intros s Hs. simpl. split; [done | reflexivity]. Qed.

Lemma advances_bind {A B} (m : M A) (k : A -> M B) :
  advances dead R m -> (forall a, advances dead R (k a)) ->
  advances dead R (bind m k).
Proof.
  intros Hm Hk s Hs. unfold bind. specialize (Hm s Hs).
  destruct (m s) as [a s1 | e s1 |]; [| exact Hm | exact Hm].
  destruct Hm as [Hs1 HR1]. specialize (Hk a s1 Hs1).
  destruct (k a s1) as [b s2 | e s2 |]; [| | exact Hk];
    (split; [apply Hk | etransitivity; [exact HR1 | apply Hk]]).
Qed.

Lemma advances_for_each {A} (l : list A) body :
  (forall x, advances dead R (body x)) -> advances dead R (for_each l body).
Proof.
  intros Hb. induction l as [| x l IH]; simpl.
  - apply advances_ret.
  - apply advances_bind; [apply Hb | intros _; exact IH].
Qed.
End Advances.

Lemma untouched_same s s' :
  frames_ s' = frames_ s -> video_streams_ s' = video_streams_ s ->
  untouched s s'.
Proof.
  intros Hf Hv. unfold untouched, queued. rewrite Hf, Hv.
  split; [done |]. split; [by left | done].
Qed.

Ltac untouched_goal := by apply untouched_same.

Lemma untouched_pop_video : keeps untouched pop_video.
Proof.
  intros s. unfold pop_video.
  destruct (video_streams_ s) as [| [| f q] rest] eqn:Hv; try done.
  unfold untouched, queued. simpl. rewrite Hv. simpl.
  split; [done |]. split; [| done].
  intros a Ha. left. apply elem_of_cons. by right.
Qed.

Lemma untouched_pop_audio : keeps untouched pop_audio.
Proof.
  intros s. unfold pop_audio. repeat break_inner; try done.
  by apply untouched_same.
Qed.

Lemma untouched_push_back_audio a : keeps untouched (push_back_audio a).
Proof.
  intros s. unfold push_back_audio. repeat break_inner; try done.
  by apply untouched_same.
Qed.

Lemma untouched_truncate : keeps untouched truncate.
Proof.
  intros s. rewrite truncate_eq. unfold truncated.
  destruct (video_streams_ s) as [| v [| v2 vs]] eqn:Hv; try reflexivity.
  destruct (audio_streams_ s) as [| a [| a2 aus]] eqn:Ha; try reflexivity.
  destruct (is_empty v || is_empty a); [| reflexivity].
  unfold untouched, queued.
  destruct (negb (is_empty v) || negb (is_empty a)); simpl; rewrite Hv;
    (split; [done |]; split; [| done]);
    intros x Hx; left; simpl; apply elem_of_app; by right.
Qed.

Lemma untouched_new_frame w : keeps untouched (new_frame w).
Proof.
  intros s. unfold new_frame, untouched, queued. simpl.
  rewrite length_app. split; [lia |]. split; [by left |].
  intros a Ha _. by apply lookup_app_l.
Qed.

#[global] Hint Resolve untouched_pop_video untouched_pop_audio
  untouched_push_back_audio untouched_truncate untouched_new_frame : keeps.

Lemma combiner_advances dead (m : M unit) :
  preserves (inv dead) m ->
  (forall s, inv dead s -> exists s', m s = Ok tt s' /\ combined s s') ->
  advances dead untouched m.
Proof.
  intros Hp Hc s Hs. specialize (Hp s Hs).
  destruct (Hc s Hs) as (s' & Heq & Hu & _). rewrite Heq in *. done.
Qed.

Lemma dispatch_advances dead : advances dead untouched dispatch.
Proof.
  intros s Hs. unfold dispatch, bind, get.
  destruct (display_mode_ s);
    first [ by apply (combiner_advances dead simple);
              [apply simple_preserves | apply simple_combined |]
          | by apply (combiner_advances dead duplicate);
              [apply duplicate_preserves | apply duplicate_combined |]
          | by apply (combiner_advances dead half);
              [apply half_preserves | apply half_combined |]
          | by apply (combiner_advances dead interlace);
              [apply interlace_preserves | apply interlace_combined |]
          | (split; [done | reflexivity]) ].
Qed.

Ltac advances_leaf :=
  apply advances_intro; [ preserves_auto | keeps_auto_with untouched_goal ].

Lemma put_frames_advances dead : advances dead untouched put_frames.
Proof.
  pose proof (dispatch_advances dead) as Hd.
  unfold put_frames, combine.
  apply advances_bind; [apply _ | advances_leaf |]. intros _.
  apply advances_bind; [apply _ | advances_leaf |]. intros v.
  destruct (is_empty v); [apply advances_ret; apply _ |].
  apply advances_bind; [apply _ | advances_leaf |]. intros a.
  apply advances_bind; [apply _ | advances_leaf |]. intros s.
  destruct (Nat.ltb _ _); [apply advances_ret; apply _ | exact Hd].
Qed.

Lemma enqueue_advances dead w (k : M unit) :
  write_frame.audio_data w = [] ->
  advances dead untouched k ->
  advances dead untouched (do frame <- new_frame w; push_back_video frame;; k).
Proof.
  intros Hw Hk s Hs.
  pose proof (enqueue_preserves dead w (ret tt) Hw
                (preserves_ret (inv dead) tt) s Hs) as Hinv1.
  revert Hinv1. unfold bind at 1 2 3 4, new_frame, push_back_video. simpl.
  destruct (update_back _ (video_streams_ s)) as [vs' |] eqn:Hu; [| done].
  simpl. intros Hinv1. specialize (Hk _ Hinv1).
  assert (Hun : untouched s
                  (set_video_streams_ vs' (set_frames_ (frames_ s ++ [w]) s))).
  { apply update_back_Some in Hu as (init & q & Hvs & ->).
    unfold untouched, queued. simpl. rewrite length_app.
    split; [lia |]. split.
    - intros a. rewrite Hvs, !concat_app. simpl. rewrite !app_nil_r.
      rewrite !elem_of_app, list_elem_of_singleton.
      intros [Ha | [Ha | ->]]; auto.
    - intros a Ha _. by apply lookup_app_l. }
  destruct (k _) as [[] s2 | e s2 |]; [| | done];
    (split; [apply Hk | etransitivity; [exact Hun | apply Hk]]).
Qed.

Lemma push_video_advances dead f : advances dead untouched (push_video f).
Proof.
  pose proof (put_frames_advances dead) as Hp.
  destruct f as [f |]; unfold push_video.
  - destruct (AVFrame.data0 f).
    + apply advances_bind; [apply _ | advances_leaf |]. intros s0.
      apply advances_bind; [apply _ | |].
      { unfold decide_display_mode. advances_leaf. }
      intros _.
      apply advances_bind; [apply _ | |].
      { unfold filter_execute. advances_leaf. }
      intros filtered.
      apply advances_for_each; [apply _ | apply _ |]. intros av_frame.
      apply advances_bind; [apply _ | advances_leaf |]. intros s1.
      apply enqueue_advances; [by rewrite fix_field_order_audio |].
      apply advances_bind; [apply _ | advances_leaf |]. intros _. exact Hp.
    + apply enqueue_advances; [done |].
      apply advances_bind; [apply _ | advances_leaf |]. intros _. exact Hp.
  - apply advances_intro; [apply (push_video_preserves dead None) |].
    unfold push_video. keeps_auto_with untouched_goal.
    apply keeps_modify. intros s. unfold untouched, queued. simpl.
    rewrite concat_app. simpl. rewrite app_nil_r.
    split; [done |]. split; [by left | done].
Qed.

Lemma push_samples_advances dead samples :
  advances dead untouched (push_audio (Some samples)).
Proof.
  pose proof (put_frames_advances dead) as Hp.
  unfold push_audio.
  apply advances_bind; [apply _ | advances_leaf |]. intros _.
  apply advances_bind; [apply _ | advances_leaf |]. intros _. exact Hp.
Qed.

Lemma push_audio_untouched dead a s s' :
  inv dead s -> state_after (push_audio a s) = Some s' -> untouched s s'.
Proof.
  intros Hs. destruct a as [samples |].
  - pose proof (push_samples_advances dead samples s Hs) as H.
    destruct (push_audio (Some samples) s); simpl; [| | done];
      intros [= <-]; apply H.
  - apply (keeps_state_after untouched).
    unfold push_audio. keeps_auto_with untouched_goal.
Qed.

Lemma exec_untouched dead c s s' :
  inv dead s -> state_after (exec c s) = Some s' -> untouched s s'.
Proof.
  intros Hs. destruct c as [f | a |]; unfold exec.
  - pose proof (push_video_advances dead f s Hs) as H.
    destruct (push_video f s); simpl; [| | done]; intros [= <-]; apply H.
  - by apply (push_audio_untouched dead).
  - unfold bind, pop. destruct (frame_buffer_ s); simpl; [done |].
    intros [= <-]. by apply untouched_same.
Qed.

Lemma run_untouched dead calls : forall s s',
  inv dead s -> run calls s = Some s' -> untouched s s'.
Proof.
  induction calls as [| c calls IH]; intros s s' Hs; simpl.
  - intros [= <-]. reflexivity.
  - destruct (state_after (exec c s)) as [s1 |] eqn:H1; [| done].
    intros H. etransitivity; [by eapply exec_untouched |].
    apply IH; [by eapply exec_inv | done].
Qed.

Lemma untouched_frame_audio dead s s' b :
  inv dead s -> untouched s s' -> b ∈ frame_buffer_ s ->
  (forall a, a ∈ frame_addrs b -> frames_ s' !! a = frames_ s !! a)
  /\ frame_audio (frames_ s') b = frame_audio (frames_ s) b.
Proof.
  intros Hs (_ & _ & Hsame) Hb.
  destruct (inv_buffer _ _ Hs b Hb) as [_ Haddr].
  assert (H : forall a, a ∈ frame_addrs b -> frames_ s' !! a = frames_ s !! a).
  { intros a Ha. destruct (Haddr a Ha) as (? & ? & _). by apply Hsame. }
  split; [exact H | by apply frame_audio_ext].
Qed.

(** X9: a frame in the output queue is final.  Whatever calls follow,
    pushes or pops, normal or throwing, the frames it refers to are stored
    unchanged (picture, samples, field type and transform); in particular
    the samples attached to it stay the same. *)
Theorem emitted_frames_are_final :
  forall in_fps fd am svc before s calls s' b,
    run before (implementation_new in_fps fd am svc) = Some s ->
    run calls s = Some s' ->
    b ∈ frame_buffer_ s ->
    (forall a, a ∈ frame_addrs b -> frames_ s' !! a = frames_ s !! a)
    /\ frame_audio (frames_ s') b = frame_audio (frames_ s) b.
Proof.
  intros in_fps fd am svc before s calls s' b Hbefore Hrun Hb.
  pose proof (run_inv [] before _ _ (inv_new in_fps fd am svc) Hbefore) as Hs.
  apply (untouched_frame_audio [] s s' b Hs); [| done].
  by apply (run_untouched [] calls).
Qed.

Lemma emitted_frames_are_final_witness :
  exists s s',
    run [call_push_video (Some picture_progressive);
         call_push_audio (Some [1; 2; 3; 4; 5; 6; 7; 8]%Z)]
        (implementation_new 25 format_50p true identity_service) = Some s
    /\ run [call_pop; call_push_video (Some picture_progressive);
            call_push_audio (Some [9; 10; 11; 12; 13; 14; 15; 16]%Z)] s
       = Some s'
    /\ frame_audio (frames_ s') (frame_ref 0)
       = frame_audio (frames_ s) (frame_ref 0).
Proof.
  eexists. eexists. split; [vm_compute; reflexivity |].
  split; [vm_compute; reflexivity |].
  match goal with
  | |- frame_audio (frames_ ?s') _ = frame_audio (frames_ ?s) _ =>
      refine (proj2 (emitted_frames_are_final 25 format_50p true
                       identity_service
                       [call_push_video (Some picture_progressive);
                        call_push_audio (Some [1; 2; 3; 4; 5; 6; 7; 8]%Z)]
                       s
                       [call_pop; call_push_video (Some picture_progressive);
                        call_push_audio
                          (Some [9; 10; 11; 12; 13; 14; 15; 16]%Z)]
                       s' (frame_ref 0) _ _ _))
  end.
  - vm_compute. reflexivity.
  - vm_compute. reflexivity.
  - simpl. rewrite !elem_of_cons. auto.
Defined.

(** ** The samples *)

#[global] Instance same_store_refl : Reflexive same_store.
Proof. intros s. by repeat split. Qed.

#[global] Instance same_store_trans : Transitive same_store.
Proof.
  intros a b c (? & ? & ? & ? & ?) (? & ? & ? & ? & ?).
  repeat split; congruence.
Qed.

Ltac same_store_goal := by repeat split.

Lemma holds_same_store P s s' :
  same_store s s' -> holds_samples P s -> holds_samples P s'.
Proof.
  intros Hss (Hinv & Hlen & Hheld).
  split; [by eapply inv_same_store |].
  destruct Hss as (Hv & Ha & Hb & Hf & Hd).
  unfold held_samples. rewrite Ha, Hb, Hf. done.
Qed.

Lemma holds_leaf_rule P {A} (m : M A) :
  preserves (inv []) m -> keeps same_store m -> preserves (holds_samples P) m.
Proof.
  intros Hp Hk s Hs. specialize (Hp s (proj1 Hs)). specialize (Hk s).
  destruct (m s); [| | done]; by eapply holds_same_store.
Qed.

Ltac holds_leaf :=
  apply holds_leaf_rule; [ preserves_auto | keeps_auto_with same_store_goal ].

Lemma attached_untouched dead s s' :
  inv dead s -> untouched s s' ->
  attached_samples (frames_ s') (frame_buffer_ s)
  = attached_samples (frames_ s) (frame_buffer_ s).
Proof.
  intros Hs Hu. unfold attached_samples. f_equal.
  apply map_ext_in. intros b Hb. apply list_elem_of_In in Hb.
  by apply (untouched_frame_audio dead s s' b Hs Hu).
Qed.

Lemma holds_combined P s s' :
  holds_samples P s -> inv [] s' -> combined s s' -> holds_samples P s'.
Proof.
  intros (Hinv & Hlen & Hheld) Hinv' (Hu & _ & Hlen' & out & Hfb & Hflow).
  split; [done |]. split; [congruence |].
  rewrite <- Hheld. unfold held_samples. rewrite Hfb.
  unfold attached_samples at 1.
  rewrite map_app, concat_app.
  fold (attached_samples (frames_ s') (frame_buffer_ s)).
  fold (attached_samples (frames_ s') out).
  rewrite (attached_untouched [] s s' Hinv Hu), Hflow.
  by rewrite app_assoc.
Qed.

Lemma combiner_holds P (m : M unit) :
  preserves (inv []) m ->
  (forall s, inv [] s -> exists s', m s = Ok tt s' /\ combined s s') ->
  preserves (holds_samples P) m.
Proof.
  intros Hp Hc s Hs. specialize (Hp s (proj1 Hs)).
  destruct (Hc s (proj1 Hs)) as (s' & Heq & Hcomb). rewrite Heq in *.
  by eapply holds_combined.
Qed.

Lemma dispatch_holds P : preserves (holds_samples P) dispatch.
Proof.
  intros s Hs. unfold dispatch, bind, get.
  destruct (display_mode_ s);
    first [ by apply (combiner_holds P simple);
              [apply simple_preserves | apply simple_combined |]
          | by apply (combiner_holds P duplicate);
              [apply duplicate_preserves | apply duplicate_combined |]
          | by apply (combiner_holds P half);
              [apply half_preserves | apply half_combined |]
          | by apply (combiner_holds P interlace);
              [apply interlace_preserves | apply interlace_combined |]
          | exact Hs ].
Qed.

Lemma truncate_holds P : preserves (holds_samples P) truncate.
Proof.
  intros s Hs. rewrite truncate_eq.
  rewrite truncated_keep; [done |].
  intros v v2 vs a a2 aus _ Ha. destruct Hs as (_ & Hlen & _).
  by rewrite Ha in Hlen.
Qed.

Lemma put_frames_holds P : preserves (holds_samples P) put_frames.
Proof.
  pose proof (dispatch_holds P) as Hd.
  unfold put_frames, combine.
  apply preserves_bind; [apply truncate_holds |]. intros _.
  apply preserves_bind; [holds_leaf |]. intros v.
  destruct (is_empty v); [apply preserves_ret |].
  apply preserves_bind; [holds_leaf |]. intros a.
  apply preserves_bind; [apply preserves_get |]. intros s.
  destruct (Nat.ltb _ _); [apply preserves_ret | exact Hd].
Qed.

Lemma enqueue_holds P w (k : M unit) :
  write_frame.audio_data w = [] ->
  preserves (holds_samples P) k ->
  preserves (holds_samples P)
    (do frame <- new_frame w; push_back_video frame;; k).
Proof.
  intros Hw Hk s Hs.
  pose proof (enqueue_advances [] w (ret tt) Hw
                (advances_ret [] untouched _ tt) s (proj1 Hs)) as Hadv.
  revert Hadv. unfold bind at 1 2 3 4, new_frame, push_back_video. simpl.
  destruct (update_back _ (video_streams_ s)) as [vs' |] eqn:Hu; [| done].
  simpl. intros [Hinv1 Hun]. apply Hk.
  destruct Hs as (Hinv & Hlen & Hheld).
  split; [done |]. split; [done |].
  rewrite <- Hheld. unfold held_samples. simpl. f_equal.
  apply (attached_untouched [] s _ Hinv Hun).
Qed.

Lemma push_video_holds P f : preserves (holds_samples P) (push_video f).
Proof.
  pose proof (put_frames_holds P) as Hp.
  destruct f as [f |]; unfold push_video.
  - destruct (AVFrame.data0 f).
    + apply preserves_bind; [apply preserves_get |]. intros s0.
      apply preserves_bind.
      { unfold decide_display_mode. apply preserves_when. holds_leaf. }
      intros _.
      apply preserves_bind; [unfold filter_execute; holds_leaf |].
      intros filtered.
      apply preserves_for_each. intros av_frame.
      apply preserves_bind; [apply preserves_get |]. intros s1.
      apply enqueue_holds; [by rewrite fix_field_order_audio |].
      apply preserves_bind; [holds_leaf | intros _; exact Hp].
    + apply enqueue_holds; [done |].
      apply preserves_bind; [holds_leaf | intros _; exact Hp].
  - intros s (Hinv & Hlen & Hheld).
    pose proof (push_video_preserves [] None s Hinv) as Hinv'.
    rewrite push_video_reset in *. done.
Qed.

Lemma push_samples_holds P samples s :
  holds_samples P s ->
  match push_audio (Some samples) s with
  | Ok _ s' | Throw _ s' => holds_samples (P ++ samples) s'
  | Undefined => False
  end.
Proof.
  intros (Hinv & Hlen & Hheld). unfold push_audio.
  unfold bind at 1. simpl. unfold bind at 1.
  assert (Hs0 : holds_samples P
            (set_audio_sample_count_
               (size_t_add (audio_sample_count_ s) (Z.of_nat (length samples)))
               s)).
  { apply (holds_same_store P s); [by repeat split | done]. }
  destruct Hs0 as (Hinv0 & _ & _).
  pose proof (push_back_audio_preserves [] samples _ Hinv0) as Hinv1.
  revert Hinv1. unfold push_back_audio. simpl.
  destruct (update_back _ (audio_streams_ s)) as [aus' |] eqn:Hu; [| done].
  intros Hinv1. apply put_frames_holds.
  apply update_back_Some in Hu as (init & a & Haus & ->).
  split; [done |]. split.
  - simpl. rewrite Haus in Hlen. by rewrite length_app in *.
  - rewrite <- Hheld. unfold held_samples. simpl.
    rewrite Haus, !concat_app. simpl. by rewrite !app_nil_r, !app_assoc.
Qed.

Lemma pushed_samples_cons c calls :
  pushed_samples (c :: calls)
  = match c with
    | call_push_audio (Some samples) => samples
    | _ => []
    end ++ pushed_samples calls.
Proof. unfold pushed_samples. by destruct c as [| [|] |]. Qed.

Lemma run_holds calls : forall P s s',
  holds_samples P s ->
  forallb keeps_audio_segment calls = true ->
  run calls s = Some s' ->
  holds_samples (P ++ pushed_samples calls) s'.
Proof.
  induction calls as [| c calls IH]; intros P s s' Hs; simpl.
  - intros _ [= <-]. unfold pushed_samples. simpl. by rewrite app_nil_r.
  - intros [Hc Hcs]%andb_prop.
    destruct (state_after (exec c s)) as [s1 |] eqn:H1; [| done].
    intros Hrun. rewrite pushed_samples_cons.
    destruct c as [f | [samples |] |]; try done; unfold exec in H1.
    + rewrite app_nil_l. apply (IH P s1); try done.
      pose proof (push_video_holds P f s Hs) as H.
      destruct (push_video f s); simpl in H1; [| | done];
        by injection H1 as <-.
    + rewrite app_assoc. apply (IH (P ++ samples) s1); try done.
      pose proof (push_samples_holds P samples s Hs) as H.
      destruct (push_audio (Some samples) s); simpl in H1; [| | done];
        by injection H1 as <-.
Qed.

(** X10: no sample is lost, duplicated or moved.  As long as no audio
    reset marker is pushed and nothing is popped, the samples attached to
    the frames of the output queue, in queue order, followed by the
    samples that still wait, are exactly the samples pushed, in the order
    they were pushed; they wait in one segment. *)
Theorem samples_are_conserved :
  forall in_fps fd am svc calls s,
    run calls (implementation_new in_fps fd am svc) = Some s ->
    forallb keeps_audio_segment calls = true ->
    held_samples s = pushed_samples calls
    /\ length (audio_streams_ s) = 1.
Proof.
  intros in_fps fd am svc calls s Hrun Hcalls.
  assert (H0 : holds_samples [] (implementation_new in_fps fd am svc)).
  { split; [apply inv_new | done]. }
  destruct (run_holds calls [] _ _ H0 Hcalls Hrun) as (_ & Hlen & Hheld).
  done.
Qed.

Lemma samples_are_conserved_witness :
  exists s,
    run [call_push_audio (Some [1; 2; 3]%Z);
         call_push_video (Some picture_progressive);
         call_push_audio (Some [4; 5; 6; 7; 8; 9]%Z);
         call_push_video None;
         call_push_video (Some picture_progressive)]
        (implementation_new 25 format_50p true identity_service) = Some s
    /\ attached_samples (frames_ s) (frame_buffer_ s) = [1; 2; 3; 4; 5; 6; 7; 8]%Z
    /\ held_samples s = [1; 2; 3; 4; 5; 6; 7; 8; 9]%Z.
Proof.
  eexists. split; [vm_compute; reflexivity |]. split; [reflexivity |].
  refine (proj1 (samples_are_conserved 25 format_50p true identity_service
                   [call_push_audio (Some [1; 2; 3]%Z);
                    call_push_video (Some picture_progressive);
                    call_push_audio (Some [4; 5; 6; 7; 8; 9]%Z);
                    call_push_video None;
                    call_push_video (Some picture_progressive)] _ _ _)).
  - vm_compute. reflexivity.
  - reflexivity.
Defined.

(** ** A stall *)

Section Returns.
Context (I : implementation -> Prop).

Lemma returns_ret {A} (a : A) : returns I (ret a).
Proof. intros s Hs. exact Hs. Qed.

Lemma returns_get : returns I get.
Proof. intros s Hs. exact Hs. Qed.

Lemma returns_bind {A B} (m : M A) (k : A -> M B) :
  returns I m -> (forall a, returns I (k a)) -> returns I (bind m k).
Proof.
  intros Hm Hk s Hs. unfold bind. specialize (Hm s Hs).
  destruct (m s) as [a s1 | e s1 |]; [| done | done]. by apply Hk.
Qed.

Lemma returns_modify f : (forall s, I s -> I (f s)) -> returns I (modify f).
Proof. intros Hf s Hs. by apply Hf. Qed.

Lemma returns_when b m : returns I m -> returns I (when b m).
Proof. destruct b; simpl; [done | intros _; apply returns_ret]. Qed.

Lemma returns_for_each {A} (l : list A) body :
  (forall x, returns I (body x)) -> returns I (for_each l body).
Proof.
  intros Hb. induction l as [| x l IH]; simpl.
  - apply returns_ret.
  - apply returns_bind; [apply Hb | intros _; exact IH].
Qed.
End Returns.

Lemma stalled_same_streams v a fb s s' :
  same_streams s s' -> stalled v a fb s -> stalled v a fb s'.
Proof.
  intros (Hv & Ha & Hb & Hd) (Hvn & Han & Hlen & Hfb & vs & aus & Hvs & ? & Has & ?).
  unfold stalled, samples_per_frame in *. rewrite Hv, Ha, Hb, Hd.
  repeat split; try done. by exists vs, aus.
Qed.

Ltac returns_step :=
  lazymatch goal with
  | |- returns _ (ret _) => apply returns_ret
  | |- returns _ get => apply returns_get
  | |- returns _ (bind _ _) => apply returns_bind; [ | intros ? ]
  | |- returns _ (when _ _) => apply returns_when
  | |- returns _ (for_each _ _) => apply returns_for_each; intros ?
  | |- returns _ (log _) =>
      apply returns_modify; intros ?; apply stalled_same_streams;
      by repeat split
  | |- returns _ (modify _) =>
      apply returns_modify; intros ?; apply stalled_same_streams;
      by repeat split
  | |- returns _ increment_video_frame_count =>
      apply returns_modify; intros ?; apply stalled_same_streams;
      by repeat split
  | |- returns _ (if ?b then _ else _) => destruct b
  | |- returns _ (match ?x with _ => _ end) => destruct x
  | |- returns _ _ => solve [ eauto with returns ]
  end.

Ltac returns_auto := repeat returns_step.

Lemma put_frames_stalled v a fb s : stalled v a fb s -> put_frames s = Ok tt s.
Proof.
  intros (Hvn & Han & Hlen & Hfb & vs & aus & Hvs & Hvsn & Has & Hasn).
  rewrite put_frames_eq, truncated_keep.
  - unfold combine, bind, front_video, front_audio, get. rewrite Hvs.
    destruct v; [done |]. simpl. rewrite Has.
    by replace (Nat.ltb (length a) _) with true
      by (symmetry; by apply Nat.ltb_lt).
  - intros v' v2 vs' a' a2 aus'. rewrite Hvs, Has. by intros [= <- _] [= <- _].
Qed.

Lemma returns_put_frames v a fb : returns (stalled v a fb) put_frames.
Proof. intros s Hs. by rewrite (put_frames_stalled v a fb s Hs). Qed.

Lemma returns_new_frame v a fb w : returns (stalled v a fb) (new_frame w).
Proof.
  intros s Hs. unfold new_frame.
  apply (stalled_same_streams v a fb s); [by repeat split | done].
Qed.

(** The newest segment is not the oldest one. *)
Lemma update_back_keeps_front {A} (f : A -> A) x (l l' : list A) :
  l <> [] -> update_back f (x :: l) = Some l' ->
  exists r, l' = x :: r /\ r <> [].
Proof.
  intros Hl (init & y & Heq & ->)%update_back_Some.
  destruct init as [| x0 init]; simpl in *.
  - injection Heq as _ Heq. congruence.
  - injection Heq as Hx Heq. subst. exists (init ++ [f y]).
    split; [done |]. by destruct init.
Qed.

Lemma returns_push_back_video v a fb frame :
  returns (stalled v a fb) (push_back_video frame).
Proof.
  intros s (Hvn & Han & Hlen & Hfb & vs & aus & Hvs & Hvsn & Has & Hasn).
  unfold push_back_video. rewrite Hvs.
  destruct (update_back _ (v :: vs)) as [l' |] eqn:Hu.
  2: { by apply update_back_None in Hu. }
  destruct (update_back_keeps_front _ _ _ _ Hvsn Hu) as (r & -> & Hr).
  repeat split; try done. by exists r, aus.
Qed.

Lemma returns_push_back_audio v a fb samples :
  returns (stalled v a fb) (push_back_audio samples).
Proof.
  intros s (Hvn & Han & Hlen & Hfb & vs & aus & Hvs & Hvsn & Has & Hasn).
  unfold push_back_audio. rewrite Has.
  destruct (update_back _ (a :: aus)) as [l' |] eqn:Hu.
  2: { by apply update_back_None in Hu. }
  destruct (update_back_keeps_front _ _ _ _ Hasn Hu) as (r & -> & Hr).
  repeat split; try done. by exists vs, r.
Qed.

Create HintDb returns.
#[global] Hint Resolve returns_put_frames returns_new_frame
  returns_push_back_video returns_push_back_audio : returns.

Lemma returns_push_video v a fb f : returns (stalled v a fb) (push_video f).
Proof.
  destruct f as [f |]; unfold push_video, decide_display_mode, filter_execute.
  - returns_auto.
  - returns_auto.
    apply returns_modify.
    intros s (Hvn & Han & Hlen & Hfb & vs & aus & Hvs & Hvsn & Has & Hasn).
    repeat split; try done. exists (vs ++ [[]]), aus. simpl. rewrite Hvs.
    repeat split; try done. by destruct vs.
Qed.

Lemma returns_push_audio v a fb samples :
  returns (stalled v a fb) (push_audio samples).
Proof.
  destruct samples as [samples |].
  - unfold push_audio. returns_auto.
  - intros s (Hvn & Han & Hlen & Hfb & vs & aus & Hvs & Hvsn & Has & Hasn).
    rewrite push_audio_reset.
    destruct (Nat.eqb_spec (samples_per_frame s) 0) as [Hz | _]; [lia |].
    repeat split; try done. exists vs, (aus ++ [[]]). simpl. rewrite Has.
    repeat split; try done. by destruct aus.
Qed.

(** X11: a stall.  Once both sides hold more than one segment while the
    oldest video segment holds a picture and the oldest audio segment
    holds some samples, but less than one frame's worth, the pump neither
    drops the pair nor combines it: every later push, of whatever kind,
    returns normally and leaves the two oldest segments and the output
    queue as they are.  No further frame is emitted. *)
Theorem stalled_forever :
  forall v a buffer s c,
    stalled v a buffer s ->
    is_pop c = false ->
    exists s', exec c s = Ok tt s' /\ stalled v a buffer s'.
Proof.
  intros v a buffer s c Hs Hc.
  destruct c as [f | samples |]; [| | done]; unfold exec.
  - pose proof (returns_push_video v a buffer f s Hs) as H.
    destruct (push_video f s) as [[] s' | |]; [| done | done]. by exists s'.
  - pose proof (returns_push_audio v a buffer samples s Hs) as H.
    destruct (push_audio samples s) as [[] s' | |]; [| done | done].
    by exists s'.
Qed.

Lemma stalled_forever_witness :
  exists s s',
    run [call_push_video (Some picture_progressive);
         call_push_audio (Some [1; 2; 3]%Z);
         call_push_video None; call_push_audio None]
        (implementation_new 25 format_25p true identity_service) = Some s
    /\ stalled [0] [1; 2; 3]%Z [] s
    /\ exec (call_push_audio (Some [4; 5; 6; 7; 8; 9; 10; 11]%Z)) s = Ok tt s'
    /\ stalled [0] [1; 2; 3]%Z [] s'.
Proof.
  eexists.
  assert (Hst : stalled [0] [1; 2; 3]%Z []
            (set_audio_sample_count_ 0%Z
               (set_audio_streams_ [[1; 2; 3]%Z; []]
                  (set_video_frame_count_ 0%Z
                     (set_video_streams_ [[0]; []]
                        (set_frames_ [admitted_frame format_25p picture_progressive]
                           (set_log_ [log_frame_muxer "simple";
                                      log_video_frame_count 1;
                                      log_audio_chunk_count 0]
                              (set_display_mode_ display_mode.simple
                                 (implementation_new 25 format_25p true
                                    identity_service))))))))).
  { repeat split; try done; [vm_compute; lia |].
    exists [[]], [[]]. by repeat split. }
  destruct (stalled_forever _ _ _ _
              (call_push_audio (Some [4; 5; 6; 7; 8; 9; 10; 11]%Z)) Hst eq_refl)
    as (s' & Hexec & Hst').
  exists s'. split; [vm_compute; reflexivity |].
  split; [exact Hst |]. split; [exact Hexec | exact Hst'].
Defined.

(** ** The field order *)

#[global] Instance keeps_field_order_refl : Reflexive keeps_field_order.
Proof. intros s. by split. Qed.

#[global] Instance keeps_field_order_trans : Transitive keeps_field_order.
Proof.
  intros a b c [Hd1 H1] [Hd2 H2]. split; [congruence |].
  intros H. by apply H2, H1.
Qed.

Ltac field_order_goal := by split.

Lemma field_order_fixed_admitted m f :
  field_order_fixed m (fix_field_order m (make_write_frame f)).
Proof.
  destruct f as [d h sm]. by destruct sm, m.
Qed.

Lemma field_order_fixed_set_audio m samples w :
  field_order_fixed m w ->
  field_order_fixed m (write_frame.set_audio_data samples w).
Proof. done. Qed.

Lemma field_order_pop_video : keeps keeps_field_order pop_video.
Proof. intros s. unfold pop_video. repeat break_inner; by split. Qed.

Lemma field_order_pop_audio : keeps keeps_field_order pop_audio.
Proof. intros s. unfold pop_audio. repeat break_inner; by split. Qed.

Lemma field_order_push_back_video a :
  keeps keeps_field_order (push_back_video a).
Proof. intros s. unfold push_back_video. repeat break_inner; by split. Qed.

Lemma field_order_push_back_audio a :
  keeps keeps_field_order (push_back_audio a).
Proof. intros s. unfold push_back_audio. repeat break_inner; by split. Qed.

Lemma field_order_truncate : keeps keeps_field_order truncate.
Proof.
  intros s. rewrite truncate_eq. unfold truncated.
  repeat break_inner; by split.
Qed.

Lemma field_order_write_audio a samples :
  keeps keeps_field_order
    (write_frame_at a (write_frame.set_audio_data samples)).
Proof.
  intros s. unfold write_frame_at.
  destruct (frames_ s !! a) as [w |] eqn:Hw; [| done].
  split; [done |]. simpl. intros H.
  apply Forall_insert; [done |].
  apply field_order_fixed_set_audio. by eapply Forall_lookup_1.
Qed.

(** A frame made of a picture for the target of the current state. *)
Lemma field_order_admit av_frame (k : addr -> M unit) :
  (forall frame, keeps keeps_field_order (k frame)) ->
  keeps keeps_field_order
    (do s <- get;
     do frame <- new_frame
                   (fix_field_order (video_format_desc.mode (format_desc_ s))
                                    (make_write_frame av_frame));
     k frame).
Proof.
  intros Hk s. unfold bind at 1 2, get, new_frame.
  specialize (Hk (length (frames_ s))
                (set_frames_
                   (frames_ s ++
                    [fix_field_order (video_format_desc.mode (format_desc_ s))
                                     (make_write_frame av_frame)]) s)).
  destruct (k _ _) as [[] s' | e s' |]; [| | done];
    (destruct Hk as [Hd H]; split; [done |]; intros H0; apply H; simpl;
     apply Forall_app; split; [done |];
     apply Forall_singleton, field_order_fixed_admitted).
Qed.

(** A copy of a stored frame. *)
Lemma field_order_copy a (k : write_frame.t -> addr -> M unit) :
  (forall original frame1, keeps keeps_field_order (k original frame1)) ->
  keeps keeps_field_order
    (do original <- read_frame a;
     do frame1 <- new_frame original;
     k original frame1).
Proof.
  intros Hk s. unfold bind at 1 2, read_frame, new_frame.
  destruct (frames_ s !! a) as [w |] eqn:Hw; [| done].
  specialize (Hk w (length (frames_ s)) (set_frames_ (frames_ s ++ [w]) s)).
  destruct (k _ _ _) as [[] s' | e s' |]; [| | done];
    (destruct Hk as [Hd H]; split; [done |]; intros H0; apply H; simpl;
     apply Forall_app; split; [done |];
     apply Forall_singleton; by eapply Forall_lookup_1).
Qed.

Lemma field_order_placeholder (k : addr -> M unit) :
  (forall frame, keeps keeps_field_order (k frame)) ->
  keeps keeps_field_order (do frame <- new_frame write_frame.empty; k frame).
Proof.
  intros Hk s. unfold bind at 1, new_frame.
  specialize (Hk (length (frames_ s))
                (set_frames_ (frames_ s ++ [write_frame.empty]) s)).
  destruct (k _ _) as [[] s' | e s' |]; [| | done];
    (destruct Hk as [Hd H]; split; [done |]; intros H0; apply H; simpl;
     apply Forall_app; split; [done |];
     apply Forall_singleton; unfold field_order_fixed, expected_translation;
     simpl; by destruct (video_format_desc.mode (format_desc_ s))).
Qed.

#[global] Hint Resolve field_order_pop_video field_order_pop_audio
  field_order_push_back_video field_order_push_back_audio
  field_order_truncate field_order_write_audio : keeps.

Lemma field_order_simple : keeps keeps_field_order simple.
Proof. unfold simple. keeps_auto_with field_order_goal. Qed.

Lemma field_order_half : keeps keeps_field_order half.
Proof. unfold half. keeps_auto_with field_order_goal. Qed.

Lemma field_order_interlace : keeps keeps_field_order interlace.
Proof. unfold interlace. keeps_auto_with field_order_goal. Qed.

Lemma field_order_duplicate : keeps keeps_field_order duplicate.
Proof.
  unfold duplicate.
  apply keeps_bind; [apply _ | keeps_auto_with field_order_goal |]. intros v.
  destruct (is_empty v); [apply keeps_ret; apply _ |].
  apply keeps_bind; [apply _ | keeps_auto_with field_order_goal |]. intros a.
  apply keeps_bind; [apply _ | keeps_auto_with field_order_goal |]. intros s.
  destruct (Nat.ltb _ _); [apply keeps_ret; apply _ |].
  apply keeps_bind; [apply _ | keeps_auto_with field_order_goal |].
  intros frame.
  apply field_order_copy. intros original frame1.
  keeps_auto_with field_order_goal.
Qed.

#[global] Hint Resolve field_order_simple field_order_half
  field_order_interlace field_order_duplicate : keeps.

Lemma field_order_put_frames : keeps keeps_field_order put_frames.
Proof.
  unfold put_frames, combine, dispatch. keeps_auto_with field_order_goal.
Qed.

#[global] Hint Resolve field_order_put_frames : keeps.

Lemma field_order_exec c : keeps keeps_field_order (exec c).
Proof.
  destruct c as [[f |] | [a |] |]; unfold exec, push_video, push_audio.
  - destruct (AVFrame.data0 f).
    + apply keeps_bind; [apply _ | keeps_auto_with field_order_goal |].
      intros s0.
      apply keeps_bind; [apply _ | |].
      { unfold decide_display_mode. keeps_auto_with field_order_goal. }
      intros _.
      apply keeps_bind; [apply _ | keeps_auto_with field_order_goal |].
      intros filtered.
      apply keeps_for_each; [apply _ | apply _ |]. intros av_frame.
      apply field_order_admit. intros frame.
      keeps_auto_with field_order_goal.
    + apply field_order_placeholder. intros frame.
      keeps_auto_with field_order_goal.
  - keeps_auto_with field_order_goal.
  - keeps_auto_with field_order_goal.
  - keeps_auto_with field_order_goal.
  - keeps_auto_with field_order_goal.
Qed.

Lemma run_field_order calls : forall s s',
  run calls s = Some s' -> keeps_field_order s s'.
Proof.
  induction calls as [| c calls IH]; intros s s'; simpl.
  - intros [= <-]. reflexivity.
  - destruct (state_after (exec c s)) as [s1 |] eqn:H1; [| done].
    intros H. etransitivity; [| by apply IH].
    eapply keeps_state_after; [apply field_order_exec | done].
Qed.

(** X12: the field order is fixed once and for all.  Every frame the muxer
    has made, whether it waits in a segment, was dropped or was emitted,
    the copies made under [duplicate] included, is shifted half a scan
    line down when it is lower field first and the target is upper field
    first, half a scan line up when it is upper field first and the
    target is lower field first, and not at all otherwise. *)
Theorem field_order_is_fixed :
  forall in_fps fd am svc calls s a w,
    run calls (implementation_new in_fps fd am svc) = Some s ->
    frames_ s !! a = Some w ->
    write_frame.get_fill_translation w
    = expected_translation (video_format_desc.mode fd) w.
Proof.
  intros in_fps fd am svc calls s a w Hrun Hw.
  destruct (run_field_order calls _ _ Hrun) as [Hfd H]. simpl in Hfd, H.
  rewrite Hfd in H. specialize (H (Forall_nil_2 _)).
  by apply (Forall_lookup_1 _ _ _ _ H Hw).
Qed.

Lemma field_order_is_fixed_witness :
  exists s w,
    run [call_push_video
           (Some (AVFrame.make (Some [16; 128]%Z) 576%Z video_mode.lower));
         call_push_audio (Some [1; 2; 3; 4]%Z)]
        (implementation_new 25 format_25i false identity_service) = Some s
    /\ frame_buffer_ s = [frame_ref 0]
    /\ frames_ s !! 0 = Some w
    /\ write_frame.get_fill_translation w = translation_half_line_down 576.
Proof.
  eexists. eexists. split; [vm_compute; reflexivity |].
  split; [reflexivity |]. split; [reflexivity |].
  refine (field_order_is_fixed 25 format_25i false identity_service
            [call_push_video
               (Some (AVFrame.make (Some [16; 128]%Z) 576%Z video_mode.lower));
             call_push_audio (Some [1; 2; 3; 4]%Z)] _ 0 _ _ _).
  - vm_compute. reflexivity.
  - reflexivity.
Defined.

(** ** One pump, one combination *)

Lemma grows_same k s s' : frame_buffer_ s' = frame_buffer_ s -> grows k s s'.
Proof. intros H. exists []. split; [by rewrite app_nil_r | simpl; lia]. Qed.

#[global] Instance grows_0_refl : Reflexive (grows 0).
Proof. intros s. by apply grows_same. Qed.

#[global] Instance grows_0_trans : Transitive (grows 0).
Proof.
  intros a b c (o1 & H1 & L1) (o2 & H2 & L2).
  destruct o1; [| simpl in L1; lia]. destruct o2; [| simpl in L2; lia].
  apply grows_same. rewrite H2, H1. by rewrite !app_nil_r.
Qed.

Ltac grows_goal := by apply grows_same.

Lemma grows_mono i j {A} (m : M A) :
  i <= j -> keeps (grows i) m -> keeps (grows j) m.
Proof.
  intros Hij Hk s. specialize (Hk s).
  destruct (m s); [| | done]; destruct Hk as (out & ? & ?);
    exists out; (split; [done | lia]).
Qed.

Lemma grows_bind i j {A B} (m : M A) (k : A -> M B) :
  keeps (grows i) m -> (forall a, keeps (grows j) (k a)) ->
  keeps (grows (i + j)) (bind m k).
Proof.
  intros Hm Hk s. unfold bind. specialize (Hm s).
  destruct (m s) as [a s1 | e s1 |]; [| | done].
  - specialize (Hk a s1). destruct Hm as (o1 & H1 & L1).
    destruct (k a s1) as [b s2 | e s2 |]; [| | done];
      destruct Hk as (o2 & H2 & L2); exists (o1 ++ o2);
      (split; [by rewrite H2, H1, app_assoc | rewrite length_app; lia]).
  - destruct Hm as (o1 & H1 & L1). exists o1. split; [done | lia].
Qed.

Lemma grows_push_back_dest b : keeps (grows 1) (push_back_dest b).
Proof. intros s. exists [b]. by split. Qed.

Lemma grows_pop_video : keeps (grows 0) pop_video.
Proof. intros s. unfold pop_video. repeat break_inner; first [ done | by apply grows_same ]. Qed.

Lemma grows_pop_audio : keeps (grows 0) pop_audio.
Proof. intros s. unfold pop_audio. repeat break_inner; first [ done | by apply grows_same ]. Qed.

Lemma grows_push_back_video a : keeps (grows 0) (push_back_video a).
Proof.
  intros s. unfold push_back_video. repeat break_inner;
    first [ done | by apply grows_same ].
Qed.

Lemma grows_push_back_audio a : keeps (grows 0) (push_back_audio a).
Proof.
  intros s. unfold push_back_audio. repeat break_inner;
    first [ done | by apply grows_same ].
Qed.

#[global] Hint Resolve grows_pop_video grows_pop_audio grows_push_back_video
  grows_push_back_audio : keeps.

(** Splits a combiner: every step but [push_back_dest] leaves the output
    queue alone. *)
Ltac grows_step :=
  lazymatch goal with
  | |- keeps (grows _) (ret _) =>
      apply (grows_mono 0); [ lia | apply keeps_ret; apply _ ]
  | |- keeps (grows (S ?k)) (bind (push_back_dest _) _) =>
      apply (grows_bind 1 k); [ apply grows_push_back_dest | intros ? ]
  | |- keeps (grows ?k) (bind _ _) =>
      apply (grows_bind 0 k); [ keeps_auto_with grows_goal | intros ? ]
  | |- keeps (grows _) (if ?b then _ else _) => destruct b
  | |- keeps (grows _) (push_back_dest _) =>
      apply (grows_mono 1); [ lia | apply grows_push_back_dest ]
  end.

Lemma grows_simple : keeps (grows 1) simple.
Proof. unfold simple. repeat grows_step. Qed.

Lemma grows_half : keeps (grows 1) half.
Proof. unfold half. repeat grows_step. Qed.

Lemma grows_interlace : keeps (grows 1) interlace.
Proof. unfold interlace. repeat grows_step. Qed.

Lemma grows_duplicate : keeps (grows 2) duplicate.
Proof. unfold duplicate. repeat grows_step. Qed.

Lemma grows_dispatch s :
  match dispatch s with
  | Ok _ s' | Throw _ s' => grows (frames_per_pump (display_mode_ s)) s s'
  | Undefined => True
  end.
Proof.
  unfold dispatch, bind, get.
  destruct (display_mode_ s); simpl;
    first [ apply grows_simple | apply grows_duplicate | apply grows_half
          | apply grows_interlace | by apply grows_same ].
Qed.

Lemma grows_put_frames s :
  match put_frames s with
  | Ok _ s' | Throw _ s' => grows (frames_per_pump (display_mode_ s)) s s'
  | Undefined => True
  end.
Proof.
  rewrite put_frames_eq.
  assert (Hsame : frame_buffer_ (truncated s) = frame_buffer_ s
                  /\ display_mode_ (truncated s) = display_mode_ s).
  { unfold truncated. repeat break_inner; done. }
  destruct Hsame as [Hfb Hdm].
  unfold combine, bind, front_video, front_audio, get.
  destruct (video_streams_ (truncated s)) as [| v vs]; [done |].
  destruct (is_empty v); [by apply grows_same |].
  destruct (audio_streams_ (truncated s)) as [| a aus]; [done |].
  destruct (Nat.ltb _ _); [by apply grows_same |].
  pose proof (grows_dispatch (truncated s)) as H. rewrite Hdm in H.
  destruct (dispatch (truncated s)); [| | done];
    destruct H as (out & H & L); exists out; by rewrite H, Hfb.
Qed.

(** X13: one pump combines at most once.  A push of samples, of a
    placeholder or of a reset marker appends at most one frame to the
    output queue, at most two under [duplicate] and none while no policy
    is set, however much data waits in the segments. *)
Theorem one_pump_one_combination :
  forall c s s',
    is_real_picture c = false -> is_pop c = false ->
    state_after (exec c s) = Some s' ->
    exists out,
      frame_buffer_ s' = frame_buffer_ s ++ out
      /\ length out <= frames_per_pump (display_mode_ s).
Proof.
  intros c s s' Hreal Hpop.
  destruct c as [[f |] | [samples |] |]; try done; unfold exec.
  - unfold is_real_picture in Hreal. unfold push_video.
    destruct (AVFrame.data0 f); [done |].
    unfold bind at 1 2 3, new_frame, push_back_video,
      increment_video_frame_count, modify.
    simpl. destruct (update_back _ _) as [vs' |]; [| done]. simpl.
    match goal with
    | |- state_after (put_frames ?s1) = _ -> _ =>
        pose proof (grows_put_frames s1) as H
    end.
    simpl in H. destruct (put_frames _); simpl; [| | done];
      by intros [= <-].
  - rewrite push_video_reset. simpl. intros [= <-]. simpl.
    exists []. split; [by rewrite app_nil_r | simpl; lia].
  - unfold push_audio. unfold bind at 1 2, modify, push_back_audio. simpl.
    destruct (update_back _ _) as [aus' |]; [| done]. simpl.
    match goal with
    | |- state_after (put_frames ?s1) = _ -> _ =>
        pose proof (grows_put_frames s1) as H
    end.
    simpl in H. destruct (put_frames _); simpl; [| | done];
      by intros [= <-].
  - rewrite push_audio_reset. destruct (Nat.eqb _ _); [done |].
    simpl. intros [= <-]. simpl.
    exists []. split; [by rewrite app_nil_r | simpl; lia].
Qed.

Lemma one_pump_one_combination_witness :
  exists s s',
    run [call_push_video (Some picture_progressive);
         call_push_video (Some picture_progressive);
         call_push_video (Some picture_progressive)]
        (implementation_new 25 format_25p false identity_service) = Some s
    /\ state_after
         (exec (call_push_audio
                  (Some [1; 2; 3; 4; 5; 6; 7; 8; 9; 10; 11; 12]%Z)) s)
       = Some s'
    /\ length (frame_buffer_ s') <= 1
    /\ video_streams_ s' = [[1; 2]].
Proof.
  eexists. eexists. split; [vm_compute; reflexivity |].
  split; [vm_compute; reflexivity |].
  split; [| reflexivity].
  match goal with
  | |- length (frame_buffer_ ?s') <= 1 =>
      destruct (one_pump_one_combination
                  (call_push_audio
                     (Some [1; 2; 3; 4; 5; 6; 7; 8; 9; 10; 11; 12]%Z))
                  (set_video_frame_count_ 3%Z
                     (set_video_streams_ [[0; 1; 2]]
                        (set_frames_
                           [admitted_frame format_25p picture_progressive;
                            admitted_frame format_25p picture_progressive;
                            admitted_frame format_25p picture_progressive]
                           (set_log_ [log_frame_muxer "simple"]
                              (set_display_mode_ display_mode.simple
                                 (implementation_new 25 format_25p false
                                    identity_service))))))
                  s' eq_refl eq_refl ltac:(vm_compute; reflexivity))
        as (out & Hfb & Hlen)
  end.
  simpl in Hfb, Hlen. rewrite Hfb. simpl. exact Hlen.
Defined.

(** ** The simple policy in its steady state *)

Lemma simple_picture_waits out in_fps om ffps h n am asc vc store svc lg f
    pixels :
  let fd := video_format_desc.make om ffps h (S n) in
  AVFrame.data0 f = Some pixels ->
  push_video (Some f)
    (make_implementation [[]] [[]] out display_mode.simple in_fps fd am asc
       vc ffmpeg_filter.pass_through store svc lg)
  = Ok tt (make_implementation [[length store]] [[]] out display_mode.simple
             in_fps fd am asc (size_t_add vc 1)
             ffmpeg_filter.pass_through (store ++ [admitted_frame fd f]) svc
             lg).
Proof.
  intros fd Hd. rewrite (push_real_decided f pixels) by done.
  cbn [format_desc_]. generalize (admitted_frame fd f). intros w.
  reflexivity.
Qed.

Lemma simple_picture_emits out in_fps om ffps h am asc vc store svc lg f
    pixels :
  let fd := video_format_desc.make om ffps h 0 in
  AVFrame.data0 f = Some pixels ->
  push_video (Some f)
    (make_implementation [[]] [[]] out display_mode.simple in_fps fd am asc
       vc ffmpeg_filter.pass_through store svc lg)
  = Ok tt (make_implementation [[]] [[]] (out ++ [frame_ref (length store)])
             display_mode.simple in_fps fd am asc (size_t_add vc 1)
             ffmpeg_filter.pass_through
             (store ++ [write_frame.set_audio_data [] (admitted_frame fd f)])
             svc lg).
Proof.
  intros fd Hd. rewrite (push_real_decided f pixels) by done.
  cbn [format_desc_]. generalize (admitted_frame fd f). intros w.
  unfold_combiners. simpl.
  rewrite list_lookup_middle by done. simpl.
  rewrite insert_app_r_alt by done. rewrite Nat.sub_diag. reflexivity.
Qed.

Lemma simple_samples_arrive out in_fps om ffps h n am asc vc store svc lg w
    samples :
  let fd := video_format_desc.make om ffps h (S n) in
  length samples = S n ->
  push_audio (Some samples)
    (make_implementation [[length store]] [[]] out display_mode.simple in_fps
       fd am asc vc ffmpeg_filter.pass_through (store ++ [w]) svc lg)
  = Ok tt (make_implementation [[]] [[]] (out ++ [frame_ref (length store)])
             display_mode.simple in_fps fd am
             (size_t_add asc (Z.of_nat (length samples))) vc
             ffmpeg_filter.pass_through
             (store ++ [write_frame.set_audio_data samples w]) svc lg).
Proof.
  intros fd Hlen.
  assert (H1 : Nat.ltb (length samples) (S n) = false)
    by (apply Nat.ltb_ge; lia).
  assert (Htake : take (S n) samples = samples) by (apply take_ge; lia).
  assert (Hdrop : drop (S n) samples = []) by (apply drop_ge; lia).
  unfold push_audio. unfold_combiners. simpl. rewrite H1. simpl.
  rewrite H1. simpl. rewrite H1. simpl. rewrite Htake, Hdrop.
  rewrite list_lookup_middle by done. simpl.
  rewrite insert_app_r_alt by done. rewrite Nat.sub_diag. reflexivity.
Qed.

Lemma simple_no_samples_arrive out in_fps om ffps h am asc vc store svc lg :
  let fd := video_format_desc.make om ffps h 0 in
  push_audio (Some [])
    (make_implementation [[]] [[]] out display_mode.simple in_fps fd am asc
       vc ffmpeg_filter.pass_through store svc lg)
  = Ok tt (make_implementation [[]] [[]] out display_mode.simple in_fps fd am
             (size_t_add asc 0) vc ffmpeg_filter.pass_through store svc lg).
Proof. reflexivity. Qed.

(** X14: the simple law.  An idle muxer under the [simple] policy (both
    current segments empty, pass-through filter) that is pushed one real
    picture and then one frame's worth of samples returns normally both
    times and appends exactly one frame to the output queue: a new frame
    with the picture's pixels and the pushed samples.  It is idle again
    afterwards, and the frames it held before are unchanged. *)
Theorem simple_law :
  forall s f pixels samples,
    display_mode_ s = display_mode.simple ->
    filter_ s = ffmpeg_filter.pass_through ->
    video_streams_ s = [[]] ->
    audio_streams_ s = [[]] ->
    AVFrame.data0 f = Some pixels ->
    length samples = samples_per_frame s ->
    exists s1 s2 w,
      push_video (Some f) s = Ok tt s1
      /\ push_audio (Some samples) s1 = Ok tt s2
      /\ frame_buffer_ s2
         = frame_buffer_ s ++ [frame_ref (length (frames_ s))]
      /\ frames_ s2 = frames_ s ++ [w]
      /\ write_frame.image_data w = pixels
      /\ write_frame.audio_data w = samples
      /\ video_streams_ s2 = [[]]
      /\ audio_streams_ s2 = [[]].
Proof.
  intros [vs aus out dm in_fps fd am asc vc fl store svc lg] f pixels samples
    Hdm Hfl Hv Ha Hd Hlen.
  simpl in *. subst. unfold samples_per_frame in Hlen. simpl in Hlen.
  pose proof (admitted_frame_image fd f pixels Hd) as Himg.
  destruct fd as [om ffps h [| n]]; simpl in Hlen.
  - destruct samples; [| done].
    eexists. eexists.
    exists (write_frame.set_audio_data []
              (admitted_frame (video_format_desc.make om ffps h 0) f)).
    split; [by apply (simple_picture_emits _ _ _ _ _ _ _ _ _ _ _ f pixels) |].
    split; [apply simple_no_samples_arrive |].
    by repeat split.
  - eexists. eexists.
    exists (write_frame.set_audio_data samples
              (admitted_frame (video_format_desc.make om ffps h (S n)) f)).
    split; [by apply (simple_picture_waits _ _ _ _ _ _ _ _ _ _ _ _ f pixels) |].
    split; [by apply simple_samples_arrive |].
    by repeat split.
Qed.

Lemma simple_law_witness :
  exists s s',
    run [call_push_video (Some picture_progressive);
         call_push_audio (Some [1; 2; 3; 4]%Z)]
        (implementation_new 25 format_25p false identity_service) = Some s
    /\ run [call_push_video (Some picture_progressive);
            call_push_audio (Some [5; 6; 7; 8]%Z)] s = Some s'
    /\ frame_buffer_ s' = [frame_ref 0; frame_ref 1]
    /\ write_frame.audio_data (frame_at (frames_ s') 1) = [5; 6; 7; 8]%Z.
Proof.
  destruct (simple_law
              (make_implementation [[]] [[]] [frame_ref 0]
                 display_mode.simple 25 format_25p false 4%Z 1%Z
                 ffmpeg_filter.pass_through
                 [write_frame.set_audio_data [1; 2; 3; 4]%Z
                    (admitted_frame format_25p picture_progressive)]
                 identity_service [log_frame_muxer "simple"])
              picture_progressive [16; 128; 235]%Z [5; 6; 7; 8]%Z
              eq_refl eq_refl eq_refl eq_refl eq_refl eq_refl)
    as (s1 & s2 & w & H1 & H2 & Hfb & Hfr & Himg & Haud & _).
  exists (make_implementation [[]] [[]] [frame_ref 0]
            display_mode.simple 25 format_25p false 4%Z 1%Z
            ffmpeg_filter.pass_through
            [write_frame.set_audio_data [1; 2; 3; 4]%Z
               (admitted_frame format_25p picture_progressive)]
            identity_service [log_frame_muxer "simple"]).
  exists s2. split; [vm_compute; reflexivity |]. split.
  - cbv [run]. cbv [exec]. rewrite H1. cbv [state_after]. rewrite H2.
    reflexivity.
  - split; [exact Hfb |]. rewrite Hfr. simpl. exact Haud.
Defined.
